(** * zap-desktop: the lnd lifecycle code, embedded and verified

    The development follows the four source files of the repository:

    - the [lnd] redux module (sync status reducer, the [syncPercentage]
      selector and the [lndSyncStatus] thunk);
    - [app/lib/lnd/walletUnlocker.js] (the [WalletUnlocker] gRPC connector
      and its state machine);
    - the [ZapController] (its [connectLnd] guard and [shutdownNeutrino]);
    - [electron/preload.js] ([openExternal] and its domain whitelist).

    JavaScript numbers are IEEE 754 binary64 values.  They are modelled
    by exact rationals together with the rounding function of the format
    (round to nearest, ties to even), so that [/] and [*] round exactly as
    the source does; the rounding is proved equal to that of the Standard
    Library's [SpecFloat] on the heights that occur.  An object used as a
    map is a [gmap] of its own properties, looked up together with what it
    inherits from [Object.prototype]; effects are explicit traces, and the state machines installed by [javascript-state-machine]
    are transition tables interpreted by a small model of that library. *)

From stdpp Require Import base strings gmap list.
From Stdlib Require Import ZArith QArith Qround Qpower Lia Lqa.
From Stdlib Require Import SpecFloat.

Close Scope Q_scope.

(* ===================================================================== *)
(** * Part I: the embedding                                               *)
(* ===================================================================== *)

(** ** JavaScript numbers *)

Module JS.
Local Open Scope Q_scope.

(** A Number: [NaN], the two infinities, or a finite value.  Zero stands
    for [+0]; the code under study never produces [-0] from heights. *)
Inductive number : Type :=
| NaN
| PosInf
| NegInf
| Fin (q : Q).

(** A JavaScript value as far as this module needs it: a property that is
    absent reads as [undefined]. *)
Inductive value : Type :=
| Undefined
| Number (n : number).

Definition pow2 (e : Z) : Q := 2 ^ e.

(** [flog2 q] is the integer [k] with [2^k <= q < 2^(k+1)], for [0 < q]. *)
Definition flog2 (q : Q) : Z :=
  let k := (Z.log2 (Qnum q) - Z.log2 (Z.pos (Qden q)))%Z in
  if Qle_bool (pow2 k) q then k else (k - 1)%Z.

(** Round to the nearest integer, ties to the even one. *)
Definition rne (q : Q) : Z :=
  let f := Qfloor q in
  match Qcompare (q - inject_Z f) (1 # 2) with
  | Lt => f
  | Gt => (f + 1)%Z
  | Eq => if Z.even f then f else (f + 1)%Z
  end.

(** The exponent of the unit in the last place of binary64 at [q]:
    53 significant bits, subnormals below [2^-1022]. *)
Definition ulp_exp (q : Q) : Z := Z.max (flog2 q - 52) (-1074).

(** binary64 rounding of a positive rational, before the overflow test. *)
Definition round_pos (q : Q) : Q :=
  let e := ulp_exp q in
  inject_Z (rne (q / pow2 e)) * pow2 e.

(** The Number nearest to the rational [q] (roundTiesToEven). *)
Definition round64 (q : Q) : number :=
  match Qnum q with
  | Z0 => Fin 0
  | Zpos _ =>
      let r := round_pos q in
      if Qle_bool (pow2 1024) r then PosInf else Fin (Qred r)
  | Zneg _ =>
      let r := round_pos (- q) in
      if Qle_bool (pow2 1024) r then NegInf else Fin (Qred (- r))
  end.

(** A Number that holds the integer [z]. *)
Definition of_Z (z : Z) : number := round64 (inject_Z z).

Definition ToNumber (v : value) : number :=
  match v with
  | Undefined => NaN
  | Number n => n
  end.

Definition is_zero (q : Q) : bool := (Qnum q =? 0)%Z.
Definition is_neg (q : Q) : bool := (Qnum q <? 0)%Z.

(** [x + y] on Numbers. *)
Definition add (x y : number) : number :=
  match x, y with
  | NaN, _ | _, NaN => NaN
  | PosInf, NegInf | NegInf, PosInf => NaN
  | PosInf, _ | _, PosInf => PosInf
  | NegInf, _ | _, NegInf => NegInf
  | Fin a, Fin b => round64 (a + b)
  end.

(** [x * y] on Numbers. *)
Definition mul (x y : number) : number :=
  match x, y with
  | NaN, _ | _, NaN => NaN
  | Fin a, Fin b => round64 (a * b)
  | Fin a, PosInf | PosInf, Fin a =>
      if is_zero a then NaN else if is_neg a then NegInf else PosInf
  | Fin a, NegInf | NegInf, Fin a =>
      if is_zero a then NaN else if is_neg a then PosInf else NegInf
  | PosInf, PosInf | NegInf, NegInf => PosInf
  | PosInf, NegInf | NegInf, PosInf => NegInf
  end.

(** [x / y] on Numbers. *)
Definition div (x y : number) : number :=
  match x, y with
  | NaN, _ | _, NaN => NaN
  | Fin a, Fin b =>
      if is_zero b then
        if is_zero a then NaN else if is_neg a then NegInf else PosInf
      else round64 (a / b)
  | Fin _, (PosInf | NegInf) => Fin 0
  | PosInf, Fin b => if is_neg b then NegInf else PosInf
  | NegInf, Fin b => if is_neg b then PosInf else NegInf
  | (PosInf | NegInf), (PosInf | NegInf) => NaN
  end.

(** Numbers whose value is an integer: what [Math.floor] returns. *)
Inductive integral : Type :=
| INaN
| IPosInf
| INegInf
| IInt (z : Z).

Definition Math_floor (x : number) : integral :=
  match x with
  | NaN => INaN
  | PosInf => IPosInf
  | NegInf => INegInf
  | Fin q => IInt (Qfloor q)
  end.

Definition Number_isNaN (x : integral) : bool :=
  match x with INaN => true | _ => false end.

(** [x === Infinity] *)
Definition is_Infinity (x : integral) : bool :=
  match x with IPosInf => true | _ => false end.

Definition to_number (x : integral) : number :=
  match x with
  | INaN => NaN
  | IPosInf => PosInf
  | INegInf => NegInf
  | IInt z => Fin (inject_Z z)
  end.

(** *** [parseInt(x, 10)] of an integer-valued Number

    [parseInt] first converts its argument to a string.  Below [10^21] the
    string is the decimal numeral of the integer, and reading it back gives
    the same Number.  From [10^21] on the string is in exponent form
    ([d.ddde+NN]), and [parseInt] stops at the first character that is not
    a digit: it returns the leading digit of the shortest decimal that
    rounds to the Number. *)

Fixpoint digits10_aux (fuel : nat) (z : Z) : Z :=
  match fuel with
  | O => 1%Z
  | S fuel' => if (z <? 10)%Z then 1%Z else (1 + digits10_aux fuel' (z / 10))%Z
  end.

(** Number of decimal digits of [z > 0]. *)
Definition digits10 (z : Z) : Z := digits10_aux (Z.to_nat (Z.log2 z)) z.

Definition rounds_to (cand z : Z) : bool :=
  match round64 (inject_Z cand) with
  | Fin q => Qeq_bool q (inject_Z z)
  | _ => false
  end.

(** The leading digit of the shortest [k]-digit decimal [s * 10^(n-k)]
    that rounds to [z], trying [k = k0, k0 + 1, ...]. *)
Fixpoint shortest_lead (fuel : nat) (k : Z) (d z : Z) : Z :=
  match fuel with
  | O => (z / 10 ^ (d - 1))%Z
  | S fuel' =>
      let unit := (10 ^ (d - k))%Z in
      let lo := (z / unit * unit)%Z in
      let hi := (lo + unit)%Z in
      let lead c := if (10 ^ d <=? c)%Z then 1%Z else (c / 10 ^ (d - 1))%Z in
      match rounds_to lo z, rounds_to hi z with
      | true, true => if (z - lo <=? hi - z)%Z then lead lo else lead hi
      | true, false => lead lo
      | false, true => lead hi
      | false, false => shortest_lead fuel' (k + 1)%Z d z
      end
  end.

Definition parseInt10 (x : integral) : integral :=
  match x with
  | IInt z =>
      if (Z.abs z <? 10 ^ 21)%Z then IInt z
      else IInt (Z.sgn z * shortest_lead 17 1 (digits10 (Z.abs z)) (Z.abs z))
  | _ => INaN
  end.

(** *** Vocabulary for the properties *)

(** The order of the non-negative Numbers: finite ones by value, below
    [Infinity]. *)
Definition nle (x y : number) : Prop :=
  match x, y with
  | Fin a, Fin b => a <= b
  | Fin _, PosInf => True
  | PosInf, PosInf => True
  | _, _ => False
  end.

End JS.

(** ** The lnd redux module ([reducers/lnd]) *)

Module Lnd.
Import JS.

(** *** Constants *)

Definition SET_SYNC_STATUS_PENDING : string := "SET_SYNC_STATUS_PENDING".
Definition SET_SYNC_STATUS_WAITING : string := "SET_SYNC_STATUS_WAITING".
Definition SET_SYNC_STATUS_IN_PROGRESS : string := "SET_SYNC_STATUS_IN_PROGRESS".
Definition SET_SYNC_STATUS_COMPLETE : string := "SET_SYNC_STATUS_COMPLETE".
Definition RECEIVE_CURRENT_BLOCK_HEIGHT : string := "RECEIVE_CURRENT_BLOCK_HEIGHT".
Definition RECEIVE_LND_BLOCK_HEIGHT : string := "RECEIVE_LND_BLOCK_HEIGHT".
Definition RECEIVE_LND_CFILTER_HEIGHT : string := "RECEIVE_LND_CFILTER_HEIGHT".
Definition SET_LIGHTNING_WALLET_ACTIVE : string := "SET_LIGHTNING_WALLET_ACTIVE".

(** *** Actions and state *)

(** An action object: its [type] and the payload properties the handlers
    destructure; a property the action does not carry is [Undefined]. *)
Record action : Type := Action {
  act_type : string;
  act_blockHeight : value;
  act_lndBlockHeight : value;
  act_lndCfilterHeight : value
}.

(** An action that carries only its type. *)
Definition plain (t : string) : action := Action t Undefined Undefined Undefined.

(** The [lnd] slice of the store. *)
Record state : Type := State {
  syncStatus : string;
  lightningGrpcActive : bool;
  blockHeight : value;
  lndBlockHeight : value;
  lndCfilterHeight : value
}.

(** Object spread with one property overridden: [{ ...state, f: v }]. *)
Definition with_syncStatus (v : string) (s : state) : state :=
  State v (lightningGrpcActive s) (blockHeight s) (lndBlockHeight s) (lndCfilterHeight s).
Definition with_lightningGrpcActive (v : bool) (s : state) : state :=
  State (syncStatus s) v (blockHeight s) (lndBlockHeight s) (lndCfilterHeight s).
Definition with_blockHeight (v : value) (s : state) : state :=
  State (syncStatus s) (lightningGrpcActive s) v (lndBlockHeight s) (lndCfilterHeight s).
Definition with_lndBlockHeight (v : value) (s : state) : state :=
  State (syncStatus s) (lightningGrpcActive s) (blockHeight s) v (lndCfilterHeight s).
Definition with_lndCfilterHeight (v : value) (s : state) : state :=
  State (syncStatus s) (lightningGrpcActive s) (blockHeight s) (lndBlockHeight s) v.

(** *** Action handlers *)

Abbreviation handler := (state -> action -> state).

(** The own properties of the object literal [ACTION_HANDLERS]. *)
Definition ACTION_HANDLERS : gmap string handler :=
  list_to_map [
    (SET_SYNC_STATUS_PENDING, fun s _ => with_syncStatus "pending" s);
    (SET_SYNC_STATUS_WAITING, fun s _ => with_syncStatus "waiting" s);
    (SET_SYNC_STATUS_IN_PROGRESS, fun s _ => with_syncStatus "in-progress" s);
    (SET_SYNC_STATUS_COMPLETE, fun s _ => with_syncStatus "complete" s);
    (RECEIVE_CURRENT_BLOCK_HEIGHT, fun s a => with_blockHeight (act_blockHeight a) s);
    (RECEIVE_LND_BLOCK_HEIGHT, fun s a => with_lndBlockHeight (act_lndBlockHeight a) s);
    (RECEIVE_LND_CFILTER_HEIGHT, fun s a => with_lndCfilterHeight (act_lndCfilterHeight a) s);
    (SET_LIGHTNING_WALLET_ACTIVE, fun s _ => with_lightningGrpcActive true s)
  ].

(** *** Reducer *)

Definition initialState : state :=
  State "pending" false (Number (Fin 0)) (Number (Fin 0)) (Number (Fin 0)).

(** [ACTION_HANDLERS] is an object literal, so [ACTION_HANDLERS[key]] also
    finds what every object inherits from [Object.prototype].  For each
    inherited name, this is what the reducer's call [handler(state, action)]
    comes to: the member is called with [this] undefined and the state, an
    object, as its first argument. *)
Inductive inherited : Type :=
| ReturnsArgument
| ReturnsString (v : string)
| ThrowsTypeError.

(** [Object(state)] is [state]; [toString] answers for an undefined
    [this]; the other methods convert [this] to an object first, which
    throws; and [__proto__] reads as [Object.prototype], which is not a
    function. *)
Definition Object_prototype : gmap string inherited :=
  list_to_map [
    ("constructor", ReturnsArgument);
    ("toString", ReturnsString "[object Undefined]");
    ("toLocaleString", ThrowsTypeError);
    ("valueOf", ThrowsTypeError);
    ("hasOwnProperty", ThrowsTypeError);
    ("isPrototypeOf", ThrowsTypeError);
    ("propertyIsEnumerable", ThrowsTypeError);
    ("__defineGetter__", ThrowsTypeError);
    ("__defineSetter__", ThrowsTypeError);
    ("__lookupGetter__", ThrowsTypeError);
    ("__lookupSetter__", ThrowsTypeError);
    ("__proto__", ThrowsTypeError)
  ].

(** What a call of the reducer comes to: the next state, a string
    returned in the place of a state, or a [TypeError] thrown. *)
Inductive reduced : Type :=
| Next (s : state)
| NotAState (v : string)
| TypeError.

(** [lndReducer(state = initialState, action)]: [None] is a call without
    a state. *)
Definition lndReducer (st : option state) (a : action) : reduced :=
  let s := default initialState st in
  match ACTION_HANDLERS !! act_type a with
  | Some h => Next (h s a)
  | None =>
      match Object_prototype !! act_type a with
      | Some ReturnsArgument => Next s
      | Some (ReturnsString v) => NotAState v
      | Some ThrowsTypeError => TypeError
      | None => Next s
      end
  end.

(** *** Selectors *)

(** The store as the selectors and the thunk read it: the [lnd] slice and
    [info.data.identity_pubkey] ([None] when it is not set). *)
Record root : Type := Root {
  lnd : state;
  identity_pubkey : option string
}.

Definition blockHeightSelector (st : root) : value := blockHeight (lnd st).
Definition lndBlockHeightSelector (st : root) : value := lndBlockHeight (lnd st).
Definition lndCfilterHeightSelector (st : root) : value := lndCfilterHeight (lnd st).

(** The result function given to [createSelector]. *)
Definition percentage_of (blockHeight lndBlockHeight lndCfilterHeight : value) : value :=
  let percentage :=
    Math_floor
      (mul (div (add (ToNumber lndBlockHeight) (ToNumber lndCfilterHeight))
                (mul (ToNumber blockHeight) (Fin 2)))
           (Fin 100)) in
  if is_Infinity percentage || Number_isNaN percentage then Undefined
  else Number (to_number (parseInt10 percentage)).

Definition syncPercentage (st : root) : value :=
  percentage_of (blockHeightSelector st) (lndBlockHeightSelector st)
                (lndCfilterHeightSelector st).

(** *** The [lndSyncStatus] thunk *)

(** What the thunk does to the outside, in order. *)
Inductive effect : Type :=
| StoreSet (store key : string) (v : bool)
| Dispatch (a : action)
| DispatchThunk (creator : string)
| ShowNotification (title body : string).

(** The redux store, the persistent [wallet] store of [electron-store]
    (dotted key to value) and the effects so far. *)
Record world : Type := World {
  app : root;
  wallet : gmap string bool;
  effects : list effect
}.

Definition getState (w : world) : root := app w.

(** A string is truthy when it is present and not empty. *)
Definition truthy (v : option string) : bool :=
  match v with
  | Some s => negb (String.eqb s "")
  | None => false
  end.

(** [store.set(key, v)] on [new Store({ name: 'wallet' })]. *)
Definition store_set (key : string) (v : bool) (w : world) : world :=
  World (app w) (<[key := v]> (wallet w)) (effects w ++ [StoreSet "wallet" key v]).

(** [dispatch] of a plain action: the [lnd] slice goes through
    [lndReducer].  The thunks of this module dispatch the handled types
    only, for which the reducer returns a state; when the reducer returns
    none, the slice is left as it was. *)
Definition dispatch (a : action) (w : world) : world :=
  match lndReducer (Some (lnd (app w))) a with
  | Next s =>
      World (Root s (identity_pubkey (app w))) (wallet w) (effects w ++ [Dispatch a])
  | _ => World (app w) (wallet w) (effects w ++ [Dispatch a])
  end.

(** [dispatch] of a thunk of another module ([setHasSynced], [fetchTicker],
    [fetchBalance], [fetchInfo]): recorded, its own actions are not of this
    reducer. *)
Definition dispatch_thunk (creator : string) (w : world) : world :=
  World (app w) (wallet w) (effects w ++ [DispatchThunk creator]).

Definition showNotification (title body : string) (w : world) : world :=
  World (app w) (wallet w) (effects w ++ [ShowNotification title body]).

Definition hasSynced_key (pubKey : string) : string := pubKey +:+ ".hasSynced".

Definition lndSyncStatus (status : string) (w : world) : world :=
  let notifTitle := "Lightning Node Synced" in
  let notifBody := "Visa who? You're your own payment processor now!" in
  let st := getState w in
  let pubKey := identity_pubkey st in
  let w :=
    if truthy pubKey then store_set (hasSynced_key (default "" pubKey)) true w
    else w in
  if String.eqb status "waiting" then
    dispatch (plain SET_SYNC_STATUS_WAITING) w
  else if String.eqb status "in-progress" then
    dispatch (plain SET_SYNC_STATUS_IN_PROGRESS) w
  else if String.eqb status "complete" then
    let w := dispatch (plain SET_SYNC_STATUS_COMPLETE) w in
    let w := dispatch_thunk "setHasSynced(true)" w in
    let w := dispatch_thunk "fetchTicker()" w in
    let w := dispatch_thunk "fetchBalance()" w in
    let w := dispatch_thunk "fetchInfo()" w in
    showNotification notifTitle notifBody w
  else
    dispatch (plain SET_SYNC_STATUS_PENDING) w.

(** *** Vocabulary for the frame of the handlers *)

Definition handled_types : list string := [
  SET_SYNC_STATUS_PENDING; SET_SYNC_STATUS_WAITING; SET_SYNC_STATUS_IN_PROGRESS;
  SET_SYNC_STATUS_COMPLETE; RECEIVE_CURRENT_BLOCK_HEIGHT; RECEIVE_LND_BLOCK_HEIGHT;
  RECEIVE_LND_CFILTER_HEIGHT; SET_LIGHTNING_WALLET_ACTIVE
].

(** The names of the members of [Object.prototype]. *)
Definition inherited_names : list string := [
  "constructor"; "toString"; "toLocaleString"; "valueOf"; "hasOwnProperty";
  "isPrototypeOf"; "propertyIsEnumerable"; "__defineGetter__"; "__defineSetter__";
  "__lookupGetter__"; "__lookupSetter__"; "__proto__"
].

Inductive field : Type :=
| FSyncStatus
| FLightningGrpcActive
| FBlockHeight
| FLndBlockHeight
| FLndCfilterHeight.

Inductive field_value : Type :=
| VString (s : string)
| VBool (b : bool)
| VValue (v : value).

Definition get (f : field) (s : state) : field_value :=
  match f with
  | FSyncStatus => VString (syncStatus s)
  | FLightningGrpcActive => VBool (lightningGrpcActive s)
  | FBlockHeight => VValue (blockHeight s)
  | FLndBlockHeight => VValue (lndBlockHeight s)
  | FLndCfilterHeight => VValue (lndCfilterHeight s)
  end.

(** A height that holds the integer [z] exactly. *)
Definition height (z : Z) : value := Number (Fin (inject_Z z)).

(** The store [st] with its three heights set to the integers [b], [l]
    and [c]. *)
Definition heights (b l c : Z) (st : root) : root :=
  Root (State (syncStatus (lnd st)) (lightningGrpcActive (lnd st))
              (height b) (height l) (height c))
       (identity_pubkey st).

(** The one field an action of type [t] is meant to write. *)
Definition own_field (t : string) : option field :=
  if bool_decide (t ∈ [SET_SYNC_STATUS_PENDING; SET_SYNC_STATUS_WAITING;
                       SET_SYNC_STATUS_IN_PROGRESS; SET_SYNC_STATUS_COMPLETE])
  then Some FSyncStatus
  else if bool_decide (t = RECEIVE_CURRENT_BLOCK_HEIGHT) then Some FBlockHeight
  else if bool_decide (t = RECEIVE_LND_BLOCK_HEIGHT) then Some FLndBlockHeight
  else if bool_decide (t = RECEIVE_LND_CFILTER_HEIGHT) then Some FLndCfilterHeight
  else if bool_decide (t = SET_LIGHTNING_WALLET_ACTIVE) then Some FLightningGrpcActive
  else None.

End Lnd.

(** *** The percentage of the specification

    The formula as the specification writes it, over the integers:
    [floor((l + c) / (2 * b) * 100)]. *)

Module HeightSyncSpec.

Definition percentage (b l c : Z) : Z :=
  Qfloor ((inject_Z l + inject_Z c) / (2 * inject_Z b) * 100).

End HeightSyncSpec.

(** *** The same computation on the Standard Library's binary64

    [SpecFloat] is the Standard Library's executable specification of IEEE
    754 arithmetic.  The percentage is computed with it a second time,
    to check the rounding of [JS.round64] against it: [Binary64Facts]
    proves that the two give the same percentage on heights below [2^53]. *)

Module Binary64.
Local Open Scope Z_scope.

Definition prec : Z := 53.
Definition emax : Z := 1024.

Definition of_int (z : Z) : spec_float := binary_normalize prec emax z 0 false.

Definition floor (x : spec_float) : option Z :=
  match x with
  | S754_zero _ => Some 0
  | S754_finite s m e =>
      let v := if s then Z.neg m else Z.pos m in
      Some (if 0 <=? e then v * 2 ^ e else v / 2 ^ (- e))
  | _ => None
  end.

(** [Math.floor(((l + c) / (b * 2)) * 100)], [None] when it is not
    finite. *)
Definition percentage (b l c : Z) : option Z :=
  floor (SFmul prec emax
           (SFdiv prec emax (SFadd prec emax (of_int l) (of_int c))
                            (SFmul prec emax (of_int b) (of_int 2)))
           (of_int 100)).

(** The percentage of the embedding, read the same way. *)
Definition embedded (b l c : Z) : option Z :=
  match Lnd.percentage_of (Lnd.height b) (Lnd.height l) (Lnd.height c) with
  | JS.Number (JS.Fin q) => Some (Qfloor q)
  | _ => None
  end.

Definition agree (bs ls cs : list Z) : bool :=
  forallb
    (fun b =>
       forallb
         (fun l =>
            forallb
              (fun c =>
                 match embedded b l c, percentage b l c with
                 | Some x, Some y => x =? y
                 | None, None => true
                 | _, _ => false
                 end)
              cs)
         ls)
    bs.

(** *** Vocabulary for the comparison with [JS.round64] *)

(** The rational [m * 2^e]. *)
Definition F (m e : Z) : Q := (inject_Z m * JS.pow2 e)%Q.

(** [x] lies in [[m * 2^e, (m + 1) * 2^e)] at the place [loc] says. *)
Definition inbetween (x : Q) (m e : Z) (loc : location) : Prop :=
  match loc with
  | loc_Exact => (x == F m e)%Q
  | loc_Inexact c =>
      (F m e < x)%Q /\ (x < F (m + 1) e)%Q
      /\ Qcompare x (F (2 * m + 1) (e - 1)) = c
  end.

(** The exponent of the last place of a number with [e] binary digits. *)
Definition fexp64 (e : Z) : Z := fexp 53 1024 e.

(** The float [sf] is the non-negative rational [q]: zero, or a normal
    number with a mantissa of 53 bits. *)
Definition represents (sf : spec_float) (q : Q) : Prop :=
  match sf with
  | S754_zero _ => (q == 0)%Q
  | S754_finite false m e => 2 ^ 52 <= Z.pos m < 2 ^ 53 /\ (q == F (Z.pos m) e)%Q
  | _ => False
  end.

(** A positive rational whose rounding is a normal number. *)
Definition normal (q : Q) : Prop := (0 < q)%Q /\ -1022 <= JS.flog2 q < 1023.

End Binary64.

(** ** Errors and promises *)

Module Err.

(** The [code] property of an error: a string (the codes of [lnd/util]),
    a number (a gRPC status) or nothing. *)
Inductive code : Type :=
| CodeString (s : string)
| CodeNumber (n : Z)
| NoCode.

(** An error object as the handlers read it. *)
Record error : Type := Error {
  err_code : code;
  err_message : string;
  err_details : option string
}.

(** How a promise settles. *)
Inductive settled (A : Type) : Type :=
| Resolved (a : A)
| Rejected (e : error).
Arguments Resolved {A} a.
Arguments Rejected {A} e.



End Err.

(** ** The state machine library

    [StateMachine.factory(Class, { init, transitions })] of
    javascript-state-machine 3 gives every instance a [state], a method per
    transition name, [can] and [is].  The library is not part of the
    repository; this is its documented behaviour: a transition fired from a
    state it is not declared for throws (the default [onInvalidTransition]),
    one fired while another is in progress throws (the default
    [onPendingTransition]), and a lifecycle hook that returns a promise
    holds the transition until the promise settles, a rejection cancelling
    it and leaving the state as it was. *)

Module StateMachine.

Record transition : Type := Transition {
  t_name : string;
  t_from : string;
  t_to : string
}.

Definition wildcard : string := "*".

(** The transition map: [(from, name)] to the target state. *)
Abbreviation table := (gmap (string * string) string).

Definition build (ts : list transition) : table :=
  foldl (fun m t => <[(t_from t, t_name t) := t_to t]> m) ∅ ts.

(** The state before any transition, and after [init] when one is given. *)
Definition initial (init : option string) : string := default "none" init.

(** [seek]: the target of [name] from [st], the wildcard entry second. *)
Definition seek (m : table) (st name : string) : option string :=
  match m !! (st, name) with
  | Some to => Some to
  | None => m !! (wildcard, name)
  end.

Definition can (m : table) (pending : bool) (st name : string) : bool :=
  negb pending && bool_decide (is_Some (seek m st name)).

Inductive fault : Type :=
| InvalidTransition (name from : string)
| PendingTransition (name from : string)
| HookRejected (e : Err.error)
| StateAssignment.

(** The checks [fire] makes before it runs any hook: the target state, or
    the exception thrown. *)
Definition check (m : table) (pending : bool) (st name : string) : fault + string :=
  match seek m st name with
  | None => inl (InvalidTransition name st)
  | Some to => if pending then inl (PendingTransition name st) else inr to
  end.

End StateMachine.

(** ** [app/lib/lnd/walletUnlocker.js] *)

Module WalletUnlocker.
Import Err.

(** The fields of [LndConfig] that the connector reads. *)
Record LndConfig : Type := Config {
  rpcProtoPath : string;
  host : string;
  cert : string;
  macaroon : string
}.

(** The gRPC client held in [this.service]. *)
Record client : Type := Client {
  client_host : string;
  closed : bool
}.

(** An instance: [service], [lndConfig] and the state machine's [state]
    with its transition-in-progress flag. *)
Record t : Type := Instance {
  service : option client;
  lndConfig : LndConfig;
  state : string;
  pending : bool
}.

(** [StateMachine.factory(WalletUnlocker, ...)] *)
Definition init : string := "ready".
Definition transitions : list StateMachine.transition := [
  StateMachine.Transition "connect" "ready" "connected";
  StateMachine.Transition "disconnect" "connected" "ready"
].
Definition fsm : StateMachine.table := StateMachine.build transitions.

(** [new WalletUnlocker(lndConfig)] *)
Definition new (cfg : LndConfig) : t :=
  Instance None cfg (StateMachine.initial (Some init)) false.

Definition can (name : string) (u : t) : bool :=
  StateMachine.can fsm (pending u) (state u) name.

(** What a call does to the outside, in order. *)
Inductive effect : Type :=
| Log (msg : string)
| ValidateHost (h : string)
| LoadSync (path : string)
| LoadPackageDefinition
| CreateSslCreds (c : string)
| CreateMacaroonCreds (m : string)
| CombineChannelCredentials
| NewClient (h : string)
| WaitForReady (deadline : nat)
| Close.

(** How the outside answers one connection attempt: each field is the
    error the step fails with, [None] when it succeeds.
    [ssl_settles_first] says which of the two credential promises given to
    [Promise.all] settles first. *)
Record answers : Type := Answers {
  validateHost_err : option error;
  loadSync_err : option error;
  createSslCreds_err : option error;
  createMacaroonCreds_err : option error;
  ssl_settles_first : bool;
  waitForReady_err : option error
}.

(** [Promise.all([createSslCreds(cert), createMacaroonCreds(macaroon)])]:
    the first rejection, if any. *)
Definition credentials_err (a : answers) : option error :=
  match createSslCreds_err a, createMacaroonCreds_err a with
  | None, None => None
  | Some e, None | None, Some e => Some e
  | Some e1, Some e2 => Some (if ssl_settles_first a then e1 else e2)
  end.

Section Connect.
(** [getDeadline] of [lnd/util]: the deadline that lies the given number
    of seconds ahead. *)
Variable getDeadline : nat -> nat.

(** [onBeforeConnect]: how the returned promise settles, the instance
    afterwards and the effects in order. *)
Definition onBeforeConnect (a : answers) (u : t) : settled unit * t * list effect :=
  let cfg := lndConfig u in
  let tr := [Log "Connecting to WalletUnlocker gRPC service"; ValidateHost (host cfg)] in
  match validateHost_err a with
  | Some e => (Rejected e, u, tr)
  | None =>
      let tr := tr ++ [LoadSync (rpcProtoPath cfg)] in
      match loadSync_err a with
      | Some e => (Rejected e, u, tr)
      | None =>
          let tr := tr ++ [LoadPackageDefinition;
                           CreateSslCreds (cert cfg);
                           CreateMacaroonCreds (macaroon cfg)] in
          match credentials_err a with
          | Some e => (Rejected e, u, tr)
          | None =>
              let tr := tr ++ [CombineChannelCredentials; NewClient (host cfg)] in
              let u := Instance (Some (Client (host cfg) false)) cfg (state u) (pending u) in
              let tr := tr ++ [WaitForReady (getDeadline 2)] in
              match waitForReady_err a with
              | Some e =>
                  (Rejected e,
                   Instance (Some (Client (host cfg) true)) cfg (state u) (pending u),
                   tr ++ [Close])
              | None => (Resolved tt, u, tr)
              end
          end
      end
  end.

(** [onBeforeDisconnect] *)
Definition onBeforeDisconnect (u : t) : t * list effect :=
  let tr := [Log "Disconnecting from WalletUnlocker gRPC service"] in
  match service u with
  | Some c => (Instance (Some (Client (client_host c) true)) (lndConfig u) (state u) (pending u),
               tr ++ [Close])
  | None => (u, tr)
  end.

Definition set_fsm (st : string) (p : bool) (u : t) : t :=
  Instance (service u) (lndConfig u) st p.

(** [connect()]: the library's checks; when they pass, the transition is
    in progress and [onBeforeConnect] has been started. *)
Definition connect (u : t) : (StateMachine.fault + unit) * t :=
  match StateMachine.check fsm (pending u) (state u) "connect" with
  | inl f => (inl f, u)
  | inr _ => (inr tt, set_fsm (state u) true u)
  end.

(** The promise of [onBeforeConnect] settles: resolved, the transition
    completes and the state changes; rejected, the transition is cancelled
    and the promise of [connect()] rejects with the same error.  Without a
    [connect()] in progress nothing happens. *)
Definition connect_settles (a : answers) (u : t)
  : (StateMachine.fault + unit) * t * list effect :=
  match pending u, StateMachine.seek fsm (state u) "connect" with
  | true, Some to =>
      match onBeforeConnect a u with
      | (Resolved _, u', tr) => (inr tt, set_fsm to false u', tr)
      | (Rejected e, u', tr) =>
          (inl (StateMachine.HookRejected e), set_fsm (state u) false u', tr)
      end
  | _, _ => (inr tt, u, [])
  end.

(** [await connect()]: the call and the settling of its promise. *)
Definition connect_await (a : answers) (u : t)
  : (StateMachine.fault + unit) * t * list effect :=
  match connect u with
  | (inl f, u') => (inl f, u', [])
  | (inr _, u') => connect_settles a u'
  end.

(** [disconnect()]: the library's checks, then [onBeforeDisconnect], which
    returns at once, so the transition completes within the call. *)
Definition disconnect (u : t) : (StateMachine.fault + unit) * t * list effect :=
  match StateMachine.check fsm (pending u) (state u) "disconnect" with
  | inl f => (inl f, u, [])
  | inr to =>
      let '(u', tr) := onBeforeDisconnect (set_fsm (state u) true u) in
      (inr tt, set_fsm to false u', tr)
  end.

(** What can happen to an instance: a call of a transition method, the
    settling of the hook's promise, or an assignment to [state], which the
    library's setter refuses. *)
Inductive call : Type :=
| CallConnect
| HookSettles (a : answers)
| CallDisconnect
| AssignState (st : string).

Definition step (c : call) (u : t) : (StateMachine.fault + unit) * t * list effect :=
  match c with
  | CallConnect => let '(r, u') := connect u in (r, u', [])
  | HookSettles a => connect_settles a u
  | CallDisconnect => disconnect u
  | AssignState _ => (inl StateMachine.StateAssignment, u, [])
  end.

(** The instance after a sequence of calls. *)
Definition run (cs : list call) (u : t) : t :=
  foldl (fun u c => snd (fst (step c u))) u cs.

End Connect.

(** *** Vocabulary for the properties *)

(** The states an instance can be in: [ready], with or without a
    [connect()] in progress, or [connected] with nothing in progress. *)
Definition well_formed (u : t) : Prop :=
  state u = "ready" \/ (state u = "connected" /\ pending u = false).

(** Everything a connection attempt can do, in order, the closing of the
    channel after a failed wait included. *)
Definition connect_sequence (deadline : nat) (cfg : LndConfig) : list effect := [
  Log "Connecting to WalletUnlocker gRPC service";
  ValidateHost (host cfg);
  LoadSync (rpcProtoPath cfg);
  LoadPackageDefinition;
  CreateSslCreds (cert cfg);
  CreateMacaroonCreds (macaroon cfg);
  CombineChannelCredentials;
  NewClient (host cfg);
  WaitForReady deadline;
  Close
].

End WalletUnlocker.

(** *** The Service Connector of the specification

    The states and moves the specification gives a Service Connector:
    [idle -(connect)-> connecting -(ready)-> ready -(disconnect)-> idle],
    and [connecting] may fail and return to [idle]. *)

Module ConnectorSpec.

Inductive phase : Type := idle | connecting | ready | disconnecting.

Inductive move : Type :=
| m_connect
| m_ready
| m_fail (e : Err.error)
| m_disconnect.

Definition next (p : phase) (m : move) : option phase :=
  match p, m with
  | idle, m_connect => Some connecting
  | connecting, m_ready => Some ready
  | connecting, m_fail _ => Some idle
  | ready, m_disconnect => Some idle
  | _, _ => None
  end.

(** How the instance's [state] and its transition-in-progress flag are
    read as a phase: the code calls the unconnected state [ready] and the
    connected one [connected]. *)
Definition phase_of (u : WalletUnlocker.t) : option phase :=
  if String.eqb (WalletUnlocker.state u) "ready" then
    Some (if WalletUnlocker.pending u then connecting else idle)
  else if String.eqb (WalletUnlocker.state u) "connected" then
    Some (if WalletUnlocker.pending u then disconnecting else ready)
  else None.

End ConnectorSpec.

(** ** The [ZapController] *)

Module ZapController.
Import Err.

(** [lndConfig.type] *)
Inductive conn_type : Type := local | custom | btcpayserver.

Definition is_local (ty : conn_type) : bool :=
  match ty with local => true | _ => false end.

(** The [Lightning] connector as the controller uses it: what its state
    machine answers to [can('terminate')] and [can('disconnect')].  The
    class itself is in [lnd/lightning], outside these sources. *)
Record Lightning : Type := LightningInstance {
  can_terminate : bool;
  can_disconnect : bool
}.

(** The controller: whether [mainWindow] is set, the connection type of
    [lndConfig], [lightning], whether [neutrino] is set, and the state
    machine's [state] with its transition-in-progress flag. *)
Record t : Type := Controller {
  mainWindow : bool;
  lndConfig_type : conn_type;
  lightning : option Lightning;
  neutrino : bool;
  state : string;
  pending : bool
}.

(** [StateMachine.factory(ZapController, ...)]: no [init], so a new
    controller is in the library's state [none]. *)
Definition transitions : list StateMachine.transition := [
  StateMachine.Transition "startOnboarding" "*" "onboarding";
  StateMachine.Transition "startLnd" "onboarding" "running";
  StateMachine.Transition "connectLnd" "onboarding" "connected";
  StateMachine.Transition "terminate" "*" "terminated"
].
Definition fsm : StateMachine.table := StateMachine.build transitions.

(** The data sent along with a message to the renderer. *)
Inductive data : Type :=
| NoData
| Errors (errors : gmap string string).

Inductive effect : Type :=
| LogDebug (msg : string)
| LogInfo (msg : string)
| LogWarn (msg : string)
| LogError (msg : string)
| Send (msg : string) (d : data)
| Subscribe
| IpcOn (channel : string).

(** [sendMessage(msg, data)] *)
Definition sendMessage (c : t) (msg : string) (d : data) : list effect :=
  if mainWindow c then [LogInfo "Sending message to renderer process"; Send msg d]
  else [LogWarn "Unable to send message to renderer process (main window not available)"].

Definition set_lightning (l : Lightning) (c : t) : t :=
  Controller (mainWindow c) (lndConfig_type c) (Some l) (neutrino c) (state c) (pending c).

Definition set_fsm (st : string) (p : bool) (c : t) : t :=
  Controller (mainWindow c) (lndConfig_type c) (lightning c) (neutrino c) st p.

(** [startLightningWallet()]: [l] is the new [Lightning] instance and
    [answer] how its [connect()] settles. *)
Definition startLightningWallet (l : Lightning) (answer : settled unit) (c : t)
  : settled unit * t * list effect :=
  let tr := [LogInfo "Establishing connection to Lightning gRPC interface..."] in
  let c := set_lightning l c in
  match answer with
  | Resolved _ =>
      (Resolved tt, c,
       tr ++ [Subscribe; IpcOn "lnd"] ++ sendMessage c "lightningGrpcActive" NoData)
  | Rejected e =>
      (Rejected e, c, tr ++ [LogWarn "Unable to connect to Lighitnng gRPC interface"])
  end.





Local Open Scope N_scope.

(** *** [shutdownNeutrino]

    Time is counted in milliseconds, as a natural number.  The call returns a promise; what
    happens to it later depends on three events from outside: the node
    process closing, and the promise of [lightning.terminate()] resolving
    or rejecting.  The timer set by the call fires on its own. *)

Inductive promise : Type :=
| Pending
| ResolvedAt (time : N)
| RejectedAt (time : N).

Inductive action : Type :=
| LogShutdown (msg : string)
| SetTimeout (ms : N)
| ClearTimeout
| OnceClose
| RemoveCloseListener
| LightningTerminate
| NeutrinoKill
| UncaughtTypeError.

(** A shutdown in progress: the time the timer fires at while it is set,
    whether [closeHandler] listens for [close], the promise returned, the
    actions so far with their times, and whether [this.neutrino] is set. *)
Record shutdown : Type := Shutdown {
  timer : option N;
  closeListener : bool;
  result : promise;
  log : list (N * action);
  has_neutrino : bool
}.

Definition grace_ms : N := 1000 * 10.

(** [resolve()] of the returned promise: only the first call settles it. *)
Definition resolve (now : N) (p : promise) : promise :=
  match p with
  | Pending => ResolvedAt now
  | _ => p
  end.

Definition shutdownNeutrino (c : t) (now : N) : shutdown :=
  if negb (is_local (lndConfig_type c)) then
    Shutdown None false (ResolvedAt now) [] (neutrino c)
  else if match lightning c with Some l => can_terminate l | None => false end then
    let lg := [(now, LogShutdown "Shutting down Neutrino..."); (now, SetTimeout grace_ms)] in
    if neutrino c then
      Shutdown (Some (now + grace_ms)) true Pending
               (lg ++ [(now, OnceClose); (now, LightningTerminate)]) true
    else
      (* [this.neutrino.once] throws inside the executor *)
      Shutdown (Some (now + grace_ms)) false (RejectedAt now) lg false
  else if neutrino c then
    Shutdown None false (ResolvedAt now) [(now, NeutrinoKill)] true
  else
    Shutdown None false (ResolvedAt now) [] false.

(** The callback given to [setTimeout]. *)
Definition on_timeout (now : N) (s : shutdown) : shutdown :=
  if has_neutrino s then
    Shutdown None false (resolve now (result s))
             (log s ++ [(now, RemoveCloseListener);
                        (now, LogShutdown "Graceful shutdown failed to complete within 30 seconds.");
                        (now, NeutrinoKill)])
             true
  else
    Shutdown None (closeListener s) (result s) (log s ++ [(now, UncaughtTypeError)]) false.

Inductive event : Type :=
| ProcessClose
| TerminateResolved
| TerminateRejected.

(** The handlers registered by the call. *)
Definition handle (now : N) (ev : event) (s : shutdown) : shutdown :=
  match ev with
  | ProcessClose =>
      if closeListener s then
        Shutdown None false (resolve now (result s))
                 (log s ++ [(now, LogShutdown "Neutrino shutdown complete."); (now, ClearTimeout)])
                 (has_neutrino s)
      else s
  | TerminateResolved =>
      Shutdown (timer s) (closeListener s) (result s)
               (log s ++ [(now, LogShutdown "Neutrino Daemon shutdown complete")])
               (has_neutrino s)
  | TerminateRejected =>
      if has_neutrino s then
        Shutdown (timer s) (closeListener s) (resolve now (result s))
                 (log s ++ [(now, LogShutdown "Unable to gracefully shutdown LND");
                            (now, NeutrinoKill)])
                 true
      else
        Shutdown (timer s) (closeListener s) (result s)
                 (log s ++ [(now, LogShutdown "Unable to gracefully shutdown LND")])
                 false
  end.

(** The timer fires once the clock has passed its time. *)
Definition fire_due (now : N) (s : shutdown) : shutdown :=
  match timer s with
  | Some at_ => if at_ <? now then on_timeout at_ s else s
  | None => s
  end.

(** The events from outside, each with the delay since the one before;
    a timer that is due fires before the event is handled. *)
Fixpoint deliver (clock : N) (evs : list (N * event)) (s : shutdown) : shutdown :=
  match evs with
  | [] => s
  | (delay, ev) :: rest =>
      let now := clock + delay in
      deliver now rest (handle now ev (fire_due now s))
  end.

(** The shutdown as seen at [time]: the events up to then delivered, and
    the timer fired if its time has come. *)
Fixpoint upto (clock time : N) (evs : list (N * event)) : list (N * event) :=
  match evs with
  | [] => []
  | (delay, ev) :: rest =>
      if clock + delay <=? time then (delay, ev) :: upto (clock + delay) time rest else []
  end.

Definition observe (start time : N) (evs : list (N * event)) (s : shutdown) : shutdown :=
  fire_due (time + 1) (deliver start (upto start time evs) s).

(** The shutdown in the end: all the events delivered, and the timer fired
    if it is still set. *)
Definition finish (s : shutdown) : shutdown :=
  match timer s with
  | Some at_ => on_timeout at_ s
  | None => s
  end.

(** *** Vocabulary for the properties *)

(** What holds of a graceful shutdown begun at [start] at every moment:
    the process handle is there, the promise is pending only while the
    timer is set for the deadline, and it was resolved between [start] and
    the deadline if it is resolved. *)
Definition graceful_inv (start : N) (s : shutdown) : Prop :=
  has_neutrino s = true
  /\ (timer s = Some (start + grace_ms) \/ timer s = None)
  /\ match result s with
     | Pending => timer s = Some (start + grace_ms)
     | ResolvedAt t => start <= t <= start + grace_ms
     | RejectedAt _ => False
     end.

Definition is_close (ev : event) : bool :=
  match ev with ProcessClose => true | _ => false end.

Definition is_kill (a : action) : bool :=
  match a with NeutrinoKill => true | _ => false end.

End ZapController.

(** ** [electron/preload.js] *)

Module Preload.

Definition WHITELISTED_DOMAINS : list string := [
  "blockstream.info";
  "coinfaucet.eu";
  "insight.litecore.io";
  "live.blockcypher.com";
  "ln-zap.github.io";
  "testnet.litecore.io";
  "testnet.smartbit.com.au";
  "litecore.io";
  "www.smartbit.com.au"
].

Inductive effect : Type :=
| ShellOpenExternal (url : string).

(** [Array.prototype.includes] on strings. *)
Definition includes (l : list string) (s : string) : bool :=
  existsb (String.eqb s) l.

Section OpenExternal.
(** [url.parse(urlString).hostname] of Node's [url] module: [None] is
    [null]. *)
Variable hostname : string -> option string.

Definition openExternal (urlString : string) : list effect :=
  match hostname urlString with
  | None => []
  | Some h =>
      if String.eqb h "" then []
      else if includes WHITELISTED_DOMAINS h then [ShellOpenExternal urlString]
      else []
  end.

Definition openHelpPage : list effect :=
  openExternal "https://ln-zap.github.io/zap-tutorials/zap-desktop-getting-started".

Definition openTestnetFaucet : list effect :=
  openExternal "https://coinfaucet.eu/en/btc-testnet/".

End OpenExternal.

End Preload.

(** ** The other thunks of the lnd redux module *)

Module LndThunks.
Import JS Lnd.

(** [lightningGrpcActive()] *)
Definition lightningGrpcActive (w : world) : world :=
  dispatch (plain SET_LIGHTNING_WALLET_ACTIVE) (dispatch_thunk "fetchInfo()" w).

(** [currentBlockHeight(event, height)] *)
Definition currentBlockHeight (height : value) (w : world) : world :=
  dispatch (Action RECEIVE_CURRENT_BLOCK_HEIGHT height Undefined Undefined) w.

(** [lndBlockHeight(event, height)] *)
Definition lndBlockHeight (height : value) (w : world) : world :=
  dispatch (Action RECEIVE_LND_BLOCK_HEIGHT Undefined height Undefined) w.

(** [lndCfilterHeight(event, height)] *)
Definition lndCfilterHeight (height : value) (w : world) : world :=
  dispatch (Action RECEIVE_LND_CFILTER_HEIGHT Undefined Undefined height) w.

(** *** Vocabulary for the properties *)

(** What happens to the store between two renderings: a thunk call that
    an IPC message of the main process leads to, or the [info] module
    setting [state.info.data.identity_pubkey], as it does when the
    [fetchInfo()] dispatched here is answered. *)
Inductive message : Type :=
| MsgLndSyncStatus (status : string)
| MsgLightningGrpcActive
| MsgCurrentBlockHeight (height : value)
| MsgLndBlockHeight (height : value)
| MsgLndCfilterHeight (height : value)
| InfoReceived (identity_pubkey : option string).

Definition receive (m : message) (w : world) : world :=
  match m with
  | MsgLndSyncStatus status => lndSyncStatus status w
  | MsgLightningGrpcActive => lightningGrpcActive w
  | MsgCurrentBlockHeight h => currentBlockHeight h w
  | MsgLndBlockHeight h => lndBlockHeight h w
  | MsgLndCfilterHeight h => lndCfilterHeight h w
  | InfoReceived pubKey => World (Root (lnd (app w)) pubKey) (wallet w) (effects w)
  end.

Definition receive_all (ms : list message) (w : world) : world :=
  foldl (fun w m => receive m w) w ms.

(** What a message carries for each field of the state. *)
Definition carried_syncStatus (m : message) : option string :=
  match m with
  | MsgLndSyncStatus status =>
      Some (if bool_decide (status ∈ ["waiting"; "in-progress"; "complete"])
            then status else "pending")
  | _ => None
  end.

Definition carried_blockHeight (m : message) : option value :=
  match m with MsgCurrentBlockHeight h => Some h | _ => None end.

Definition carried_lndBlockHeight (m : message) : option value :=
  match m with MsgLndBlockHeight h => Some h | _ => None end.

Definition carried_lndCfilterHeight (m : message) : option value :=
  match m with MsgLndCfilterHeight h => Some h | _ => None end.

Definition carried_pubkey (m : message) : option (option string) :=
  match m with InfoReceived pubKey => Some pubKey | _ => None end.

Definition is_grpcActive (m : message) : bool :=
  match m with MsgLightningGrpcActive => true | _ => false end.

#[global] Instance field_eq_dec : EqDecision field.
Proof. solve_decision. Defined.


Definition is_complete (m : message) : bool :=
  match m with MsgLndSyncStatus status => String.eqb status "complete" | _ => false end.

Definition is_notification (e : effect) : bool :=
  match e with ShowNotification _ _ => true | _ => false end.


(** The last value the messages carry, [d] when they carry none. *)
Definition last_carried {A : Type} (carried : message -> option A)
           (ms : list message) (d : A) : A :=
  default d (last (omap carried ms)).

End LndThunks.

(** ** The unit roundoff *)

Module Roundoff.

(** Half the distance, relative to its size, between a number and the
    binary64 number next to it: [2^-53]. *)
Definition u53 : Q := (1 # 9007199254740992)%Q.

End Roundoff.

(** ** The channel of a [WalletUnlocker] *)

Module Channel.
Import Err WalletUnlocker.

(** *** Vocabulary for the properties *)






Section Log.
Variable getDeadline : nat -> nat.


End Log.

End Channel.

(** ** The [ZapController]: helpers and lifecycle *)

Module Lifecycle.
Import Err ZapController.

(** [grpcSslCipherSuites(connectionType)] *)
Definition grpcSslCipherSuites (connectionType : conn_type) : string :=
  String.concat ":"
    (match connectionType with
     | btcpayserver =>
         ["ECDHE-RSA-AES256-GCM-SHA384";
          "ECDHE-RSA-AES128-GCM-SHA256"]
     | _ =>
         ["ECDHE-ECDSA-AES128-GCM-SHA256";
          "ECDHE-ECDSA-AES256-GCM-SHA384";
          "ECDHE-ECDSA-AES128-CBC-SHA256";
          "ECDHE-ECDSA-CHACHA20-POLY1305"]
     end).

(** The listeners of [ipcMain]: how many there are on each channel. *)
Abbreviation listeners := (gmap string nat).

Definition count (ch : string) (ipc : listeners) : nat := default 0 (ipc !! ch).

(** [ipcMain.on(ch, ...)] *)
Definition ipc_on (ch : string) (ipc : listeners) : listeners :=
  <[ch := S (count ch ipc)]> ipc.

(** [ipcMain.removeAllListeners(ch)] *)
Definition removeAllListeners (ch : string) (ipc : listeners) : listeners :=
  delete ch ipc.

Definition _registerIpcListeners (ipc : listeners) : listeners :=
  ipc_on "startLnd" ipc.

Definition _removeIpcListeners (ipc : listeners) : listeners :=
  removeAllListeners "lnd"
    (removeAllListeners "walletUnlocker"
       (removeAllListeners "startLnd" ipc)).


(** The controller together with what its helpers reach: the
    [WalletUnlocker] it holds, the fields of [lndConfig] that connector
    reads, the listeners of [ipcMain], and
    [process.env.GRPC_SSL_CIPHER_SUITES]. *)
Record world : Type := World {
  controller : ZapController.t;
  walletUnlocker : option WalletUnlocker.t;
  unlockerConfig : WalletUnlocker.LndConfig;
  ipc : listeners;
  GRPC_SSL_CIPHER_SUITES : option string
}.

Inductive effect : Type :=
| Ctl (e : ZapController.effect)
| Unlocker (e : WalletUnlocker.effect)
| SaveLndConfig (type : conn_type) (currency network wallet : string)
                (settings : gmap string string)
| SettingsSet (key : string) (type : conn_type) (currency network wallet : string)
| LightningDisconnect
| SetTimeout (ms : N).

(** The listeners after the [ipcMain.on] calls of a controller trace. *)
Definition ipc_after (tr : list ZapController.effect) (ipc : listeners) : listeners :=
  foldl (fun ipc e => match e with IpcOn ch => ipc_on ch ipc | _ => ipc end) ipc tr.

Section Helpers.
(** [getDeadline] of [lnd/util]. *)
Variable getDeadline : nat -> nat.

(** [startWalletUnlocker()]: [a] is how the outside answers the
    connection attempt of the new connector; the result is what
    [await this.walletUnlocker.connect()] gives, an error being thrown
    on. *)
Definition startWalletUnlocker (a : WalletUnlocker.answers) (w : world)
  : (StateMachine.fault + unit) * world * list effect :=
  let tr := [Ctl (LogInfo "Establishing connection to Wallet Unlocker gRPC interface...")] in
  let u := WalletUnlocker.new (unlockerConfig w) in
  match WalletUnlocker.connect_await getDeadline a u with
  | (inr _, u', tr') =>
      (inr tt,
       World (controller w) (Some u') (unlockerConfig w)
             (ipc_on "walletUnlocker" (ipc w)) (GRPC_SSL_CIPHER_SUITES w),
       tr ++ (Unlocker <$> tr') ++ [Ctl (IpcOn "walletUnlocker")]
          ++ (Ctl <$> sendMessage (controller w) "walletUnlockerGrpcActive" NoData))
  | (inl f, u', tr') =>
      (inl f,
       World (controller w) (Some u') (unlockerConfig w) (ipc w) (GRPC_SSL_CIPHER_SUITES w),
       tr ++ (Unlocker <$> tr')
          ++ [Ctl (LogWarn "Unable to connect to WalletUnlocker gRPC interface")])
  end.

(** [startLightningWallet()] with the listener it registers. *)
Definition startLightningWallet (l : Lightning) (answer : settled unit) (w : world)
  : settled unit * world * list effect :=
  let '(r, c, tr) := ZapController.startLightningWallet l answer (controller w) in
  (r,
   World c (walletUnlocker w) (unlockerConfig w) (ipc_after tr (ipc w))
         (GRPC_SSL_CIPHER_SUITES w),
   Ctl <$> tr).

(** What [onOnboarding] and [onTerminated] do about the connection they
    come from. *)
Inductive teardown : Type :=
| Disconnect
| ShutdownNeutrino (s : shutdown)
| NoTeardown.

Definition teardown_from (from : string) (c : ZapController.t) (now : N) : teardown :=
  if String.eqb from "connected"
     && match lightning c with Some l => can_disconnect l | None => false end
  then Disconnect
  else if String.eqb from "running" then ShutdownNeutrino (shutdownNeutrino c now)
  else NoTeardown.

(** [onOnboarding(lifecycle)], up to the [await]: the listeners are reset
    and the teardown is begun. *)
Definition onOnboarding (from : string) (now : N) (w : world) : world * teardown * list effect :=
  let td := teardown_from from (controller w) now in
  (World (controller w) (walletUnlocker w) (unlockerConfig w)
         (_registerIpcListeners (_removeIpcListeners (ipc w)))
         (GRPC_SSL_CIPHER_SUITES w),
   td,
   [Ctl (LogDebug "[FSM] onOnboarding...")]
     ++ match td with Disconnect => [LightningDisconnect] | _ => [] end).

(** [onTerminated(lifecycle)], up to the [await]. *)
Definition onTerminated (from : string) (now : N) (w : world) : world * teardown * list effect :=
  let td := teardown_from from (controller w) now in
  (w, td,
   [Ctl (LogDebug "[FSM] onTerminated...")]
     ++ match td with Disconnect => [LightningDisconnect] | _ => [] end).

End Helpers.

(** *** [finishOnboarding] *)

(** The options sent by the renderer: the connection type and the other
    properties. *)
Record onboardingOptions : Type := Options {
  opt_type : conn_type;
  opt_props : gmap string string
}.

(** [pick(object, paths)] of lodash on flat property names. *)
Definition pick (object : gmap string string) (paths : list string) : gmap string string :=
  filter (fun kv => kv.1 ∈ paths) object.

(** The transition that [finishOnboarding] ends with. *)
Definition transition_for (ty : conn_type) : string :=
  if is_local ty then "startLnd" else "connectLnd".

Section FinishOnboarding.
(** [LndConfig.SETTINGS_PROPS] and the fields a connector reads from a new
    [LndConfig]; the class is in [lnd/config], outside these sources. *)
Variable SETTINGS_PROPS : conn_type -> list string.
Variable connectorConfig : conn_type -> gmap string string -> WalletUnlocker.LndConfig.

(** [finishOnboarding(options)] up to the call of the transition: the
    configuration and the active connection are saved, the cipher suites
    are set unless they are set already, and the transition is fired.  The
    result is what the state machine's checks say to it: the exception
    thrown, or the state the transition goes to once its hooks are
    through. *)
Definition finishOnboarding (options : onboardingOptions) (w : world)
  : (StateMachine.fault + string) * world * list effect :=
  let ty := opt_type options in
  let settings := pick (opt_props options) (SETTINGS_PROPS ty) in
  let c := controller w in
  let c := Controller (mainWindow c) ty (lightning c) (neutrino c)
                      (ZapController.state c) (ZapController.pending c) in
  let env := if Lnd.truthy (GRPC_SSL_CIPHER_SUITES w) then GRPC_SSL_CIPHER_SUITES w
             else Some (grpcSslCipherSuites ty) in
  let tr := [Ctl (LogInfo "Finishing onboarding");
             SaveLndConfig ty "bitcoin" "testnet" "wallet-1" settings;
             SettingsSet "activeConnection" ty "bitcoin" "testnet" "wallet-1";
             Ctl (LogInfo "Saved active connection as: %o")] in
  let w' := World c (walletUnlocker w) (connectorConfig ty settings) (ipc w) env in
  (StateMachine.check fsm (ZapController.pending c) (ZapController.state c)
                      (transition_for ty),
   w', tr).

End FinishOnboarding.


(** *** Vocabulary for the properties *)

(** The world after the renderer has sent [startLnd] with each of the
    options in turn. *)
Definition finish_all (SETTINGS_PROPS : conn_type -> list string)
           (connectorConfig : conn_type -> gmap string string -> WalletUnlocker.LndConfig)
           (os : list onboardingOptions) (w : world) : world :=
  foldl (fun w o => snd (fst (finishOnboarding SETTINGS_PROPS connectorConfig o w))) w os.

(** What can happen to the listeners between two transitions. *)
Inductive op : Type :=
| EnterOnboarding (from : string) (now : N)
| LightningWallet (l : Lightning) (answer : settled unit)
| UnlockerStart (a : WalletUnlocker.answers).

Definition apply_op (getDeadline : nat -> nat) (o : op) (w : world) : world :=
  match o with
  | EnterOnboarding from now => fst (fst (onOnboarding from now w))
  | LightningWallet l answer => snd (fst (startLightningWallet l answer w))
  | UnlockerStart a => snd (fst (startWalletUnlocker getDeadline a w))
  end.

Definition run_ops (getDeadline : nat -> nat) (ops : list op) (w : world) : world :=
  foldl (fun w o => apply_op getDeadline o w) w ops.

Definition is_enter (o : op) : bool :=
  match o with EnterOnboarding _ _ => true | _ => false end.

(** The connection attempts that succeed. *)
Definition lightning_connected (o : op) : bool :=
  match o with LightningWallet _ (Resolved _) => true | _ => false end.

Definition answers_ok (a : WalletUnlocker.answers) : bool :=
  match WalletUnlocker.validateHost_err a, WalletUnlocker.loadSync_err a,
        WalletUnlocker.credentials_err a, WalletUnlocker.waitForReady_err a with
  | None, None, None, None => true
  | _, _, _, _ => false
  end.

Definition unlocker_connected (o : op) : bool :=
  match o with UnlockerStart a => answers_ok a | _ => false end.

End Lifecycle.

(** ** [shutdownNeutrino]: what a run does to the process *)

Module Shutdown.
Import Err ZapController.
Local Open Scope N_scope.

(** *** Vocabulary for the properties *)

Definition is_rejection (ev : event) : bool :=
  match ev with TerminateRejected => true | _ => false end.

(** No action of the log kills the process. *)
Definition no_kill (s : shutdown) : bool :=
  forallb (fun a => negb (is_kill (snd a))) (log s).

(** A shutdown that waits for the process to close. *)
Definition waiting (deadline : N) (s : shutdown) : Prop :=
  timer s = Some deadline /\ closeListener s = true /\ result s = Pending
  /\ no_kill s = true.

(** A shutdown that saw the process close between [start] and
    [deadline]: the timer was cleared then and the promise resolved. *)
Definition closed_cleanly (start deadline : N) (s : shutdown) : Prop :=
  timer s = None /\ closeListener s = false /\ no_kill s = true
  /\ exists t, start <= t <= deadline
               /\ (t, ClearTimeout) ∈ log s /\ result s = ResolvedAt t.

End Shutdown.

(** ** [electron/preload.js]: the environment *)

Module PreloadEnv.
Import Preload.

Definition WHITELISTED_ENV_VARS : list string :=
  ["DEBUG"; "DEBUG_LEVEL"; "DEBUG_PROD"; "NODE_ENV"; "HOT"].

(** [Object.keys(process.env)]: the names of the variables, each once. *)
Definition Object_keys (env : gmap string string) : list string :=
  (map_to_list env).*1.

(** [window.env]: the whitelisted names are kept and each is given the
    value it has in [process.env]. *)
Definition window_env (process_env : gmap string string) : gmap string string :=
  foldl (fun obj key =>
           match process_env !! key with
           | Some v => <[key := v]> obj
           | None => obj
           end)
        ∅
        (List.filter (fun key => includes WHITELISTED_ENV_VARS key) (Object_keys process_env)).

End PreloadEnv.

(* ===================================================================== *)
(** * Part II: properties                                                 *)
(* ===================================================================== *)

(** ** Numbers *)

Module JSFacts.
Import JS.
Local Open Scope Q_scope.

Lemma pow2_pos (e : Z) : 0 < pow2 e.
Proof. unfold pow2. apply Qpower_0_lt. reflexivity. Qed.

Lemma pow2_add (a b : Z) : pow2 (a + b) == pow2 a * pow2 b.
Proof. unfold pow2. apply Qpower_plus. discriminate. Qed.

Lemma pow2_le (a b : Z) : (a <= b)%Z -> pow2 a <= pow2 b.
Proof. intros H. unfold pow2. apply Qpower_le_compat_l; [assumption | discriminate]. Qed.

Lemma pow2_lt (a b : Z) : (a < b)%Z -> pow2 a < pow2 b.
Proof. intros H. unfold pow2. apply Qpower_lt_compat_l; [assumption | reflexivity]. Qed.

Lemma pow2_lt_inv (a b : Z) : pow2 a < pow2 b -> (a < b)%Z.
Proof. intros H. unfold pow2 in H. apply Qpower_lt_compat_l_inv in H; [assumption | reflexivity]. Qed.

Lemma pow2_inject (e : Z) : (0 <= e)%Z -> pow2 e == inject_Z (2 ^ e).
Proof. intros H. unfold pow2. symmetry. apply (Zpower_Qpower 2 e H). Qed.

Lemma pow2_sub (a b : Z) : pow2 (a - b) == pow2 a / pow2 b.
Proof. unfold pow2. apply Qpower_minus. discriminate. Qed.

(** [q] written as its numerator over its denominator. *)
Lemma Q_as_fraction (q : Q) : q * inject_Z (Z.pos (Qden q)) == inject_Z (Qnum q).
Proof. destruct q as [n d]. unfold Qeq, Qmult, inject_Z. simpl. rewrite Pos.mul_1_r. ring. Qed.

Lemma flog2_spec (q : Q) :
  0 < q -> pow2 (flog2 q) <= q /\ q < pow2 (flog2 q + 1).
Proof.
  intros Hq.
  assert (Hn : (0 < Qnum q)%Z).
  { destruct q as [n d]. unfold Qlt in Hq. simpl in *. lia. }
  set (a := Z.log2 (Qnum q)). set (b := Z.log2 (Z.pos (Qden q))).
  pose proof (Z.log2_spec (Qnum q) Hn) as [Ha1 Ha2]. fold a in Ha1, Ha2.
  pose proof (Z.log2_spec (Z.pos (Qden q)) ltac:(lia)) as [Hb1 Hb2]. fold b in Hb1, Hb2.
  pose proof (Z.log2_nonneg (Qnum q)) as Ha0. fold a in Ha0.
  pose proof (Z.log2_nonneg (Z.pos (Qden q))) as Hb0. fold b in Hb0.
  pose proof (Q_as_fraction q) as Hfrac.
  assert (Hlow : pow2 (a - b - 1) <= q).
  { apply Qmult_le_r with (z := pow2 (b + 1)); [apply pow2_pos |].
    rewrite <- pow2_add. replace (a - b - 1 + (b + 1))%Z with a by lia.
    apply Qle_trans with (inject_Z (Qnum q)).
    - rewrite pow2_inject by lia. rewrite <- Zle_Qle. assumption.
    - rewrite <- Hfrac. apply Qmult_le_l; [assumption |].
      rewrite pow2_inject by lia. rewrite <- Zle_Qle. lia. }
  assert (Hhigh : q < pow2 (a - b + 1)).
  { apply Qmult_lt_r with (z := pow2 b); [apply pow2_pos |].
    rewrite <- pow2_add. replace (a - b + 1 + b)%Z with (Z.succ a) by lia.
    apply Qle_lt_trans with (inject_Z (Qnum q)).
    - rewrite <- Hfrac. apply Qmult_le_l; [assumption |].
      rewrite pow2_inject by lia. rewrite <- Zle_Qle. assumption.
    - rewrite pow2_inject by lia. rewrite <- Zlt_Qlt. assumption. }
  unfold flog2. fold a b.
  destruct (Qle_bool (pow2 (a - b)) q) eqn:Hc.
  - apply Qle_bool_iff in Hc. split; assumption.
  - assert (Hlt : q < pow2 (a - b)).
    { apply Qnot_le_lt. intros H. apply Qle_bool_iff in H. congruence. }
    split; [assumption |]. replace (a - b - 1 + 1)%Z with (a - b)%Z by lia. assumption.
Qed.


Lemma flog2_unique (q : Q) (k : Z) :
  pow2 k <= q -> q < pow2 (k + 1) -> flog2 q = k.
Proof.
  intros H1 H2.
  assert (Hq : 0 < q) by (apply Qlt_le_trans with (pow2 k); [apply pow2_pos | assumption]).
  destruct (flog2_spec q Hq) as [H3 H4].
  assert (k < flog2 q + 1)%Z by (apply pow2_lt_inv; now apply Qle_lt_trans with q).
  assert (flog2 q < k + 1)%Z by (apply pow2_lt_inv; now apply Qle_lt_trans with q).
  lia.
Qed.

Lemma flog2_mono (q q' : Q) : 0 < q -> q <= q' -> (flog2 q <= flog2 q')%Z.
Proof.
  intros Hq Hle.
  assert (Hq' : 0 < q') by now apply Qlt_le_trans with q.
  destruct (flog2_spec q Hq) as [H1 _]. destruct (flog2_spec q' Hq') as [_ H2].
  assert (flog2 q < flog2 q' + 1)%Z.
  { apply pow2_lt_inv. apply Qle_lt_trans with q'; [| assumption].
    now apply Qle_trans with q. }
  lia.
Qed.

(** *** Rounding to the nearest integer *)

Lemma rne_bounds (q : Q) : (Qfloor q <= rne q <= Qfloor q + 1)%Z.
Proof.
  unfold rne. destruct (Qcompare _ _); [destruct (Z.even _) | |]; lia.
Qed.

Lemma rne_ge (q : Q) (n : Z) : inject_Z n <= q -> (n <= rne q)%Z.
Proof.
  intros H. apply Qfloor_resp_le in H. rewrite Qfloor_Z in H.
  pose proof (rne_bounds q). lia.
Qed.

Lemma rne_le (q : Q) (n : Z) : q <= inject_Z n -> (rne q <= n)%Z.
Proof.
  intros H.
  destruct (Qlt_le_dec q (inject_Z n)) as [Hlt | Hge].
  - assert (Qfloor q < n)%Z.
    { rewrite Zlt_Qlt. apply Qle_lt_trans with q; [apply Qfloor_le | assumption]. }
    pose proof (rne_bounds q). lia.
  - assert (Heq : q == inject_Z n) by now apply Qle_antisym.
    assert (Hf : Qfloor q = n) by (rewrite (Qfloor_comp q (inject_Z n) Heq); apply Qfloor_Z).
    unfold rne. rewrite Hf.
    destruct (Qcompare (q - inject_Z n) (1 # 2)) eqn:Hc; [exfalso | lia | exfalso].
    + apply Qeq_alt in Hc. lra.
    + apply Qgt_alt in Hc. lra.
Qed.

Ltac qcompare_hyps :=
  repeat match goal with
         | H : Qcompare _ _ = Eq |- _ => apply Qeq_alt in H
         | H : Qcompare _ _ = Lt |- _ => apply Qlt_alt in H
         | H : Qcompare _ _ = Gt |- _ => apply Qgt_alt in H
         end.

Lemma rne_mono (q q' : Q) : q <= q' -> (rne q <= rne q')%Z.
Proof.
  intros Hle.
  pose proof (Qfloor_resp_le _ _ Hle) as Hf.
  pose proof (rne_bounds q) as Hb. pose proof (rne_bounds q') as Hb'.
  destruct (Z.eq_dec (Qfloor q) (Qfloor q')) as [Heq | Hne]; [| lia].
  unfold rne. rewrite <- Heq.
  destruct (Qcompare (q - inject_Z (Qfloor q)) (1 # 2)) eqn:Hc;
    destruct (Qcompare (q' - inject_Z (Qfloor q)) (1 # 2)) eqn:Hc';
    try (destruct (Z.even (Qfloor q))); try lia; exfalso; qcompare_hyps; lra.
Qed.

Lemma rne_inject (n : Z) : rne (inject_Z n) = n.
Proof.
  pose proof (rne_ge (inject_Z n) n ltac:(apply Qle_refl)).
  pose proof (rne_le (inject_Z n) n ltac:(apply Qle_refl)). lia.
Qed.

Lemma rne_comp (q q' : Q) : q == q' -> rne q = rne q'.
Proof.
  intros H.
  pose proof (rne_mono q q' ltac:(rewrite H; apply Qle_refl)).
  pose proof (rne_mono q' q ltac:(rewrite H; apply Qle_refl)). lia.
Qed.


(** *** binary64 rounding of positive rationals *)

Lemma ulp_exp_mono (q q' : Q) : 0 < q -> q <= q' -> (ulp_exp q <= ulp_exp q')%Z.
Proof. intros Hq Hle. unfold ulp_exp. pose proof (flog2_mono q q' Hq Hle). lia. Qed.

Lemma pow2_split (k e : Z) : (e <= k)%Z -> pow2 k == inject_Z (2 ^ (k - e)) * pow2 e.
Proof.
  intros H. rewrite <- pow2_inject by lia. rewrite <- pow2_add.
  replace (k - e + e)%Z with k by lia. reflexivity.
Qed.

Lemma round_pos_le_pow2 (q : Q) (k : Z) :
  q <= pow2 k -> (ulp_exp q <= k)%Z -> round_pos q <= pow2 k.
Proof.
  intros Hle He. unfold round_pos. set (e := ulp_exp q) in *.
  rewrite (pow2_split k e He).
  apply Qmult_le_compat_r; [| apply Qlt_le_weak, pow2_pos].
  rewrite <- Zle_Qle. apply rne_le.
  apply Qle_shift_div_r; [apply pow2_pos |].
  now rewrite <- (pow2_split k e He).
Qed.

Lemma round_pos_ge_pow2 (q : Q) (k : Z) :
  pow2 k <= q -> (ulp_exp q <= k)%Z -> pow2 k <= round_pos q.
Proof.
  intros Hle He. unfold round_pos. set (e := ulp_exp q) in *.
  rewrite (pow2_split k e He).
  apply Qmult_le_compat_r; [| apply Qlt_le_weak, pow2_pos].
  rewrite <- Zle_Qle. apply rne_ge.
  apply Qle_shift_div_l; [apply pow2_pos |].
  now rewrite <- (pow2_split k e He).
Qed.

Lemma round_pos_mono (q q' : Q) : 0 < q -> q <= q' -> round_pos q <= round_pos q'.
Proof.
  intros Hq Hle.
  assert (Hq' : 0 < q') by now apply Qlt_le_trans with q.
  pose proof (ulp_exp_mono q q' Hq Hle) as He.
  destruct (Z.eq_dec (ulp_exp q) (ulp_exp q')) as [Heq | Hne].
  - unfold round_pos. rewrite <- Heq.
    apply Qmult_le_compat_r; [| apply Qlt_le_weak, pow2_pos].
    rewrite <- Zle_Qle. apply rne_mono.
    apply Qmult_le_compat_r; [assumption |].
    apply Qlt_le_weak, Qinv_lt_0_compat, pow2_pos.
  - destruct (flog2_spec q Hq) as [_ Hup]. destruct (flog2_spec q' Hq') as [Hlo _].
    assert (Ht : (ulp_exp q' = flog2 q' - 52 /\ flog2 q + 1 <= flog2 q')%Z)
      by (unfold ulp_exp in *; lia).
    destruct Ht as [Ht1 Ht2].
    apply Qle_trans with (pow2 (flog2 q')).
    + apply round_pos_le_pow2; [| unfold ulp_exp in *; lia].
      apply Qlt_le_weak. apply Qlt_le_trans with (pow2 (flog2 q + 1)); [assumption |].
      now apply pow2_le.
    + apply round_pos_ge_pow2; [assumption | lia].
Qed.

Lemma round_pos_pos (q : Q) : 0 < q -> 0 <= round_pos q.
Proof.
  intros Hq. unfold round_pos.
  apply Qmult_le_0_compat; [| apply Qlt_le_weak, pow2_pos].
  replace 0 with (inject_Z 0) by reflexivity. rewrite <- Zle_Qle. apply rne_ge.
  apply Qle_shift_div_l; [apply pow2_pos |].
  assert (H0 : inject_Z 0 * pow2 (ulp_exp q) == 0) by ring.
  rewrite H0. now apply Qlt_le_weak.
Qed.


(** *** [round64] on the non-negative rationals *)

Lemma Qnum_pos (q : Q) : 0 < q <-> (0 < Qnum q)%Z.
Proof. destruct q as [n d]. unfold Qlt. simpl. lia. Qed.

Lemma Qnum_zero (q : Q) : q == 0 <-> Qnum q = 0%Z.
Proof. destruct q as [n d]. unfold Qeq. simpl. lia. Qed.

(** The three outcomes of rounding a non-negative rational. *)
Lemma round64_cases (q : Q) :
  0 <= q ->
  (q == 0 /\ round64 q = Fin 0)
  \/ (0 < q /\ pow2 1024 <= round_pos q /\ round64 q = PosInf)
  \/ (0 < q /\ round_pos q < pow2 1024 /\ round64 q = Fin (Qred (round_pos q))).
Proof.
  intros Hq. unfold round64. destruct (Qnum q) as [| p | p] eqn:Hn.
  - left. split; [now apply Qnum_zero | reflexivity].
  - right. assert (Hpos : 0 < q) by (apply Qnum_pos; lia).
    destruct (Qle_bool (pow2 1024) (round_pos q)) eqn:Hc.
    + left. apply Qle_bool_iff in Hc. auto.
    + right. split; [assumption | split; [| reflexivity]].
      apply Qnot_le_lt. intros H. apply Qle_bool_iff in H. congruence.
  - exfalso. destruct q as [n d]. unfold Qle in Hq. simpl in *. lia.
Qed.

Lemma round64_mono (q q' : Q) : 0 <= q -> q <= q' -> nle (round64 q) (round64 q').
Proof.
  intros Hq Hle.
  assert (Hq' : 0 <= q') by now apply Qle_trans with q.
  destruct (round64_cases q Hq) as [[H0 ->] | [(Hp & Hr & ->) | (Hp & Hr & ->)]];
    destruct (round64_cases q' Hq') as [[H0' ->] | [(Hp' & Hr' & ->) | (Hp' & Hr' & ->)]];
    simpl; auto; rewrite ?Qred_correct;
    try solve [ apply Qle_refl
              | now apply round_pos_pos
              | now apply round_pos_mono
              | exfalso; lra
              | exfalso; pose proof (round_pos_mono q q' Hp Hle); lra ].
Qed.

Lemma flog2_le_of_le_pow2 (q : Q) (k : Z) : 0 < q -> q <= pow2 k -> (flog2 q <= k)%Z.
Proof.
  intros Hq Hle. destruct (flog2_spec q Hq) as [Hlo _].
  destruct (Z_le_gt_dec (flog2 q) k) as [H | H]; [assumption | exfalso].
  pose proof (pow2_lt k (flog2 q) ltac:(lia)). lra.
Qed.

(** A rational between 0 and a power of two rounds to a finite Number in
    the same range. *)
Lemma round64_fin (q : Q) (k : Z) :
  0 <= q -> q <= pow2 k -> (-1074 <= k < 1024)%Z ->
  exists r, round64 q = Fin r /\ 0 <= r /\ r <= pow2 k.
Proof.
  intros Hq Hle Hk.
  assert (Hb : 0 < q -> round_pos q <= pow2 k).
  { intros Hp. apply round_pos_le_pow2; [assumption |].
    pose proof (flog2_le_of_le_pow2 q k Hp Hle). unfold ulp_exp. lia. }
  destruct (round64_cases q Hq) as [[H0 ->] | [(Hp & Hr & ->) | (Hp & Hr & ->)]].
  - exists 0. split; [reflexivity | split; [apply Qle_refl |]].
    apply Qlt_le_weak, pow2_pos.
  - exfalso. pose proof (Hb Hp). pose proof (pow2_lt k 1024 ltac:(lia)). lra.
  - eexists. split; [reflexivity |]. rewrite Qred_correct.
    split; [now apply round_pos_pos | now apply Hb].
Qed.

(** A rational at or above a power of two rounds at or above it. *)
Lemma round64_ge_pow2 (q r : Q) (k : Z) :
  pow2 k <= q -> (-1074 <= k)%Z -> round64 q = Fin r -> pow2 k <= r.
Proof.
  intros Hle Hk Hr.
  assert (Hp : 0 < q) by (apply Qlt_le_trans with (pow2 k); [apply pow2_pos | assumption]).
  destruct (round64_cases q (Qlt_le_weak _ _ Hp)) as [[H0 _] | [(_ & _ & H) | (_ & _ & H)]].
  - lra.
  - congruence.
  - rewrite H in Hr. injection Hr as <-. rewrite Qred_correct.
    destruct (flog2_spec q Hp) as [Hlo Hhi].
    assert (Hkf : (k <= flog2 q)%Z).
    { destruct (Z_le_gt_dec k (flog2 q)) as [H' | H']; [assumption | exfalso].
      pose proof (pow2_le (flog2 q + 1) k ltac:(lia)). lra. }
    apply Qle_trans with (pow2 (flog2 q)); [now apply pow2_le |].
    apply round_pos_ge_pow2; [assumption | unfold ulp_exp; lia].
Qed.


End JSFacts.

(** ** The sync percentage *)

Module SyncPercentageFacts.
Import JS Lnd JSFacts.
Local Open Scope Q_scope.

Lemma pow2_const (k : Z) (z : Z) : (0 <= k)%Z -> (2 ^ k)%Z = z -> pow2 k == inject_Z z.
Proof. intros Hk <-. now apply pow2_inject. Qed.

Lemma is_zero_pos (q : Q) : 0 < q -> is_zero q = false.
Proof. intros H. apply Qnum_pos in H. unfold is_zero. apply Z.eqb_neq. lia. Qed.

(** The four roundings behind a percentage, for heights that are exact
    integers below [2^53]. *)
Lemma percentage_chain (b l c : Z) :
  (0 < b < 2 ^ 53)%Z -> (0 <= l < 2 ^ 53)%Z -> (0 <= c < 2 ^ 53)%Z ->
  exists sq dq xq yq : Q,
    round64 (inject_Z l + inject_Z c) = Fin sq
    /\ round64 (inject_Z b * 2) = Fin dq
    /\ round64 (sq / dq) = Fin xq
    /\ round64 (xq * 100) = Fin yq
    /\ 0 <= sq /\ 0 < dq /\ 0 <= xq /\ 0 <= yq
    /\ (0 <= Qfloor yq < 10 ^ 21)%Z
    /\ percentage_of (height b) (height l) (height c)
       = Number (Fin (inject_Z (Qfloor yq))).
Proof.
  intros Hb Hl Hc.
  change (2 ^ 53)%Z with 9007199254740992%Z in *.
  destruct (round64_fin (inject_Z l + inject_Z c) 54) as (sq & Hs & Hs0 & Hs1); [| | lia |].
  { rewrite <- inject_Z_plus. replace 0 with (inject_Z 0) by reflexivity.
    rewrite <- Zle_Qle. lia. }
  { rewrite <- inject_Z_plus, (pow2_const 54 18014398509481984) by (lia || reflexivity).
    rewrite <- Zle_Qle. lia. }
  assert (Hb2 : inject_Z b * 2 == inject_Z (b * 2)).
  { rewrite inject_Z_mult. reflexivity. }
  destruct (round64_fin (inject_Z b * 2) 54) as (dq & Hd & Hd0 & Hd1); [| | lia |].
  { rewrite Hb2. replace 0 with (inject_Z 0) by reflexivity. rewrite <- Zle_Qle. lia. }
  { rewrite Hb2, (pow2_const 54 18014398509481984) by (lia || reflexivity).
    rewrite <- Zle_Qle. lia. }
  assert (Hd2 : pow2 1 <= dq).
  { apply (round64_ge_pow2 (inject_Z b * 2) dq 1); [| lia | assumption].
    rewrite Hb2, (pow2_const 1 2) by (lia || reflexivity). rewrite <- Zle_Qle. lia. }
  assert (Hdpos : 0 < dq) by (pose proof (pow2_pos 1); lra).
  destruct (round64_fin (sq / dq) 53) as (xq & Hx & Hx0 & Hx1); [| | lia |].
  { apply Qle_shift_div_l; [assumption |]. lra. }
  { apply Qle_shift_div_r; [assumption |].
    apply Qle_trans with (pow2 53 * pow2 1).
    - rewrite <- pow2_add. assumption.
    - apply Qmult_le_l; [apply pow2_pos | assumption]. }
  destruct (round64_fin (xq * 100) 60) as (yq & Hy & Hy0 & Hy1); [| | lia |].
  { apply Qmult_le_0_compat; [assumption | discriminate]. }
  { apply Qle_trans with (pow2 53 * pow2 7).
    - apply Qle_trans with (pow2 53 * 100).
      + apply Qmult_le_compat_r; [assumption | discriminate].
      + apply Qmult_le_l; [apply pow2_pos |].
        rewrite (pow2_const 7 128) by (lia || reflexivity). discriminate.
    - rewrite <- pow2_add. apply Qle_refl. }
  assert (Hp : (0 <= Qfloor yq <= 2 ^ 60)%Z).
  { split.
    - apply Qfloor_resp_le in Hy0. exact Hy0.
    - rewrite (pow2_const 60 (2 ^ 60)) in Hy1 by (lia || reflexivity).
      apply Qfloor_resp_le in Hy1. now rewrite Qfloor_Z in Hy1. }
  exists sq, dq, xq, yq.
  repeat (split; [assumption |]).
  split; [change (2 ^ 60)%Z with 1152921504606846976%Z in Hp;
          change (10 ^ 21)%Z with 1000000000000000000000%Z; lia |].
  unfold percentage_of, height, ToNumber, add, mul. rewrite Hs, Hd.
  unfold div. rewrite (is_zero_pos dq Hdpos), Hx, Hy. simpl.
  assert (Hlt : (Z.abs (Qfloor yq) <? 10 ^ 21)%Z = true).
  { apply Z.ltb_lt. change (2 ^ 60)%Z with 1152921504606846976%Z in Hp.
    change (10 ^ 21)%Z with 1000000000000000000000%Z. lia. }
  rewrite Hlt. reflexivity.
Qed.


Lemma round64_fin_mono (q q' r r' : Q) :
  0 <= q -> q <= q' -> round64 q = Fin r -> round64 q' = Fin r' -> r <= r'.
Proof.
  intros Hq Hle Hr Hr'. pose proof (round64_mono q q' Hq Hle) as H.
  now rewrite Hr, Hr' in H.
Qed.

Lemma percentage_mono (b l l' c c' : Z) :
  (0 < b < 2 ^ 53)%Z -> (0 <= l <= l')%Z -> (l' < 2 ^ 53)%Z ->
  (0 <= c <= c')%Z -> (c' < 2 ^ 53)%Z ->
  exists p p' : Z,
    percentage_of (height b) (height l) (height c) = Number (Fin (inject_Z p))
    /\ percentage_of (height b) (height l') (height c') = Number (Fin (inject_Z p'))
    /\ (0 <= p <= p')%Z.
Proof.
  intros Hb Hl Hl' Hc Hc'.
  destruct (percentage_chain b l c Hb ltac:(lia) ltac:(lia))
    as (sq & dq & xq & yq & Hs & Hd & Hx & Hy & Hs0 & Hd0 & Hx0 & Hy0 & Hp & Heq).
  destruct (percentage_chain b l' c' Hb ltac:(lia) ltac:(lia))
    as (sq' & dq' & xq' & yq' & Hs' & Hd' & Hx' & Hy' & Hs0' & Hd0' & Hx0' & Hy0' & Hp' & Heq').
  exists (Qfloor yq), (Qfloor yq'). split; [assumption | split; [assumption |]].
  split; [lia |].
  assert (Hdd : dq' = dq) by congruence. subst dq'.
  assert (Hss : sq <= sq').
  { apply (round64_fin_mono (inject_Z l + inject_Z c) (inject_Z l' + inject_Z c'));
      try assumption.
    - rewrite <- inject_Z_plus. replace 0 with (inject_Z 0) by reflexivity.
      rewrite <- Zle_Qle. lia.
    - rewrite <- !inject_Z_plus, <- Zle_Qle. lia. }
  assert (Hxx : xq <= xq').
  { apply (round64_fin_mono (sq / dq) (sq' / dq)); try assumption.
    - apply Qle_shift_div_l; [assumption | lra].
    - apply Qmult_le_compat_r; [assumption |].
      apply Qlt_le_weak, Qinv_lt_0_compat. assumption. }
  assert (Hyy : yq <= yq').
  { apply (round64_fin_mono (xq * 100) (xq' * 100)); try assumption.
    - apply Qmult_le_0_compat; [assumption | discriminate].
    - apply Qmult_le_compat_r; [assumption | discriminate]. }
  now apply Qfloor_resp_le.
Qed.

Lemma percentage_zero_reference (l c : Z) :
  (0 <= l)%Z -> (0 <= c)%Z ->
  percentage_of (height 0) (height l) (height c) = Undefined.
Proof.
  intros Hl Hc. unfold percentage_of, height, ToNumber, add.
  change (mul (Fin (inject_Z 0)) (Fin 2)) with (Fin 0).
  assert (Hq : 0 <= inject_Z l + inject_Z c).
  { rewrite <- inject_Z_plus. replace 0 with (inject_Z 0) by reflexivity.
    rewrite <- Zle_Qle. lia. }
  destruct (round64_cases _ Hq) as [[H0 ->] | [(Hp & Hr & ->) | (Hp & Hr & Hf)]];
    try reflexivity.
  rewrite Hf.
  assert (Hge : pow2 0 <= Qred (round_pos (inject_Z l + inject_Z c))).
  { apply (round64_ge_pow2 (inject_Z l + inject_Z c) _ 0); [| lia | assumption].
    rewrite <- inject_Z_plus, (pow2_const 0 1) by (lia || reflexivity).
    rewrite <- Zle_Qle. rewrite <- inject_Z_plus in Hp.
    apply Qnum_pos in Hp. simpl in Hp. lia. }
  assert (Hpos : 0 < Qred (round_pos (inject_Z l + inject_Z c))).
  { apply Qlt_le_trans with (pow2 0); [apply pow2_pos | assumption]. }
  unfold div. change (is_zero 0) with true. cbv iota.
  rewrite (is_zero_pos _ Hpos).
  assert (Hneg : is_neg (Qred (round_pos (inject_Z l + inject_Z c))) = false).
  { unfold is_neg. apply Z.ltb_ge. apply Qnum_pos in Hpos. lia. }
  rewrite Hneg. reflexivity.
Qed.

Lemma syncPercentage_heights (b l c : Z) (st : root) :
  syncPercentage (heights b l c st) = percentage_of (height b) (height l) (height c).
Proof. reflexivity. Qed.

(** With a reference height of zero the percentage is [undefined],
    whatever the two other heights. *)
Lemma syncPercentage_zero_reference (l c : Z) (st : root) :
  (0 <= l)%Z -> (0 <= c)%Z -> syncPercentage (heights 0 l c st) = Undefined.
Proof. intros Hl Hc. rewrite syncPercentage_heights. now apply percentage_zero_reference. Qed.

(** With a positive reference height the percentage is a Number, a
    non-negative integer. *)
Lemma syncPercentage_defined (b l c : Z) (st : root) :
  (0 < b < 2 ^ 53)%Z -> (0 <= l < 2 ^ 53)%Z -> (0 <= c < 2 ^ 53)%Z ->
  exists p : Z, syncPercentage (heights b l c st) = Number (Fin (inject_Z p)) /\ (0 <= p)%Z.
Proof.
  intros Hb Hl Hc. rewrite syncPercentage_heights.
  destruct (percentage_mono b l l c c Hb) as (p & p' & Hp & _ & Hle); try lia.
  exists p. split; [assumption | lia].
Qed.

(** The rounding of [round64] is that of the Standard Library's binary64
    on a grid of small heights and on a selection of large ones. *)
Lemma percentage_agrees_with_SpecFloat :
  Binary64.agree (map Z.of_nat (seq 0 24)) (map Z.of_nat (seq 0 24)) [0; 1; 7; 1000003]%Z = true
  /\ Binary64.agree [1; 3; 7; 50; 1000; 1500000; 2 ^ 31; 2 ^ 52 + 1; 2 ^ 53 - 1]%Z
                    [0; 1; 29; 57; 870000; 2 ^ 40 + 3; 2 ^ 53 - 1]%Z
                    [0; 1; 290; 2 ^ 53 - 1; 2 ^ 52 + 12345]%Z
     = true.
Proof. split; vm_compute; reflexivity. Qed.

(** The scenario of the specification: heights 1000, 500 and 300 give 40,
    and 1000, 1000 and 1000 give 100. *)
Lemma syncPercentage_scenario :
  let st := Root initialState None in
  syncPercentage (heights 1000 500 300 st) = Number (Fin 40)
  /\ syncPercentage (heights 1000 1000 1000 st) = Number (Fin 100)
  /\ HeightSyncSpec.percentage 1000 500 300 = 40%Z
  /\ HeightSyncSpec.percentage 1000 1000 1000 = 100%Z.
Proof. repeat split; vm_compute; reflexivity. Qed.

(** C1.  At the heights 50, 57 and 0 the formula of the specification
    gives 57, and the selector returns 56: [57 / 100] is not a binary64
    number, the quotient is rounded below it, and its product with 100 is
    rounded to the binary64 number just below 57.  The same happens at 50,
    29, 0 and at 1000, 290, 290, where the formula gives 29 and the
    selector 28.  The Standard Library's binary64 gives the same results. *)
Theorem syncPercentage_rounding_gap :
  let st := Root initialState None in
  syncPercentage (heights 50 57 0 st) = Number (Fin 56)
  /\ HeightSyncSpec.percentage 50 57 0 = 57%Z
  /\ syncPercentage (heights 50 29 0 st) = Number (Fin 28)
  /\ HeightSyncSpec.percentage 50 29 0 = 29%Z
  /\ syncPercentage (heights 1000 290 290 st) = Number (Fin 28)
  /\ HeightSyncSpec.percentage 1000 290 290 = 29%Z
  /\ Binary64.percentage 50 57 0 = Some 56%Z
  /\ Binary64.percentage 50 29 0 = Some 28%Z
  /\ Binary64.percentage 1000 290 290 = Some 28%Z.
Proof. repeat split; vm_compute; reflexivity. Qed.

(** C7, against the claim as stated, at heights that are Numbers but not
    below [2^53].  From the height 1 to the height [2^1023] the percentage
    goes from 50 to [undefined]: the product with 100 is not finite.  From
    the height [18 * 10^18] to the height [2 * 10^19] it goes from
    [9 * 10^20] to 1: [parseInt] reads the [1] of [1e+21]. *)
Lemma syncPercentage_monotone_counterexample :
  let st := Root initialState None in
  of_Z (2 ^ 1023) = Fin (inject_Z (2 ^ 1023))
  /\ of_Z (18 * 10 ^ 18) = Fin (inject_Z (18 * 10 ^ 18))
  /\ of_Z (2 * 10 ^ 19) = Fin (inject_Z (2 * 10 ^ 19))
  /\ syncPercentage (heights 1 1 0 st) = Number (Fin 50)
  /\ syncPercentage (heights 1 (2 ^ 1023) 0 st) = Undefined
  /\ syncPercentage (heights 1 (18 * 10 ^ 18) 0 st) = Number (Fin (inject_Z (9 * 10 ^ 20)))
  /\ syncPercentage (heights 1 (2 * 10 ^ 19) 0 st) = Number (Fin 1).
Proof. repeat split; vm_compute; reflexivity. Qed.

(** C7, amended.  For heights that are exact integers below [2^53], with a
    positive reference height, the percentage is a Number, and it does not
    decrease when the node's block height grows with the two other heights
    fixed, nor when the cfilter height grows with the two other heights
    fixed. *)
Theorem syncPercentage_monotone (b l l' c c' : Z) (st : root) :
  (0 < b < 2 ^ 53)%Z ->
  (0 <= l <= l')%Z -> (l' < 2 ^ 53)%Z ->
  (0 <= c <= c')%Z -> (c' < 2 ^ 53)%Z ->
  exists p pl pc : Z,
    syncPercentage (heights b l c st) = Number (Fin (inject_Z p))
    /\ syncPercentage (heights b l' c st) = Number (Fin (inject_Z pl))
    /\ syncPercentage (heights b l c' st) = Number (Fin (inject_Z pc))
    /\ (p <= pl)%Z /\ (p <= pc)%Z.
Proof.
  intros Hb Hl Hl' Hc Hc'. rewrite !syncPercentage_heights.
  destruct (percentage_mono b l l' c c Hb Hl Hl') as (p & pl & Hp & Hpl & Hle); try lia.
  destruct (percentage_mono b l l c c' Hb) as (p' & pc & Hp' & Hpc & Hle'); try lia.
  assert (p' = p) by (rewrite Hp in Hp'; injection Hp'; lia). subst p'.
  exists p, pl, pc. repeat split; try assumption; lia.
Qed.

(** [syncPercentage_monotone] at the heights of the specification's
    scenario. *)
Lemma syncPercentage_monotone_witness :
  exists p pl pc : Z,
    syncPercentage (heights 1000 500 300 (Root initialState None)) = Number (Fin (inject_Z p))
    /\ syncPercentage (heights 1000 1000 300 (Root initialState None)) = Number (Fin (inject_Z pl))
    /\ syncPercentage (heights 1000 500 1000 (Root initialState None)) = Number (Fin (inject_Z pc))
    /\ (p <= pl)%Z /\ (p <= pc)%Z.
Proof.
  apply (syncPercentage_monotone 1000 500 1000 300 1000 (Root initialState None));
    first [split; reflexivity | reflexivity | discriminate | lia].
Defined.

End SyncPercentageFacts.

(** ** The rounding of [JS.round64] is that of the Standard Library

    [SpecFloat] rounds a mantissa by shifting it to the right while it
    records what falls off; [JS.round64] rounds a rational to the nearest
    multiple of its last place.  On the numbers that a percentage goes
    through the two agree, operation by operation. *)

Module Binary64Facts.
Import JS JSFacts Binary64.
Local Open Scope Q_scope.

(** *** Mantissas, exponents and places *)

Lemma digits2_pos_log2 (p : positive) : Z.pos (digits2_pos p) = (Z.log2 (Z.pos p) + 1)%Z.
Proof.
  induction p as [p IH | p IH |]; simpl; try reflexivity.
  - rewrite Pos2Z.inj_succ, IH. destruct p; simpl; lia.
  - rewrite Pos2Z.inj_succ, IH. destruct p; simpl; lia.
Qed.

Lemma pow2_succ (e : Z) : pow2 (e + 1) == 2 * pow2 e.
Proof. rewrite pow2_add. unfold pow2 at 2. simpl. ring. Qed.

Lemma F_succ (m e : Z) : F m (e + 1) == 2 * F m e.
Proof. unfold F. rewrite pow2_succ. ring. Qed.

Lemma F_half (m e : Z) : 2 * F (2 * m + 1) (e - 1) == F m e + F (m + 1) e.
Proof.
  unfold F. rewrite !inject_Z_plus, !inject_Z_mult.
  assert (H : pow2 e == 2 * pow2 (e - 1)).
  { rewrite <- pow2_succ. replace (e - 1 + 1)%Z with e by lia. reflexivity. }
  rewrite H. simpl. ring.
Qed.

Lemma flog2_inbetween (x : Q) (m e : Z) :
  (0 < m)%Z -> F m e <= x -> x < F (m + 1) e -> flog2 x = (Z.log2 m + e)%Z.
Proof.
  intros Hm Hlo Hhi. apply flog2_unique.
  - apply Qle_trans with (F m e); [| assumption]. unfold F.
    rewrite pow2_add. apply Qmult_le_compat_r; [| apply Qlt_le_weak, pow2_pos].
    rewrite pow2_inject by apply Z.log2_nonneg. rewrite <- Zle_Qle.
    apply Z.log2_spec. assumption.
  - apply Qlt_le_trans with (F (m + 1) e); [assumption |]. unfold F.
    replace (Z.log2 m + e + 1)%Z with (Z.log2 m + 1 + e)%Z by lia.
    rewrite pow2_add. apply Qmult_le_compat_r; [| apply Qlt_le_weak, pow2_pos].
    rewrite pow2_inject by (pose proof (Z.log2_nonneg m); lia). rewrite <- Zle_Qle.
    pose proof (Z.log2_spec m Hm). replace (Z.log2 m + 1)%Z with (Z.succ (Z.log2 m)) by lia. lia.
Qed.

Ltac qcompare_goal :=
  match goal with
  | |- Qcompare _ _ = Eq => apply -> Qeq_alt
  | |- Qcompare _ _ = Lt => apply -> Qlt_alt
  | |- Qcompare _ _ = Gt => apply -> Qgt_alt
  end.

Lemma inject_Z_xO (p : positive) : inject_Z (Z.pos p~0) == 2 * inject_Z (Z.pos p).
Proof. change (Z.pos p~0) with (2 * Z.pos p)%Z. now rewrite inject_Z_mult. Qed.

Lemma inject_Z_xI (p : positive) : inject_Z (Z.pos p~1) == 2 * inject_Z (Z.pos p) + 1.
Proof. change (Z.pos p~1) with (2 * Z.pos p + 1)%Z. now rewrite inject_Z_plus, inject_Z_mult. Qed.

(** The place of [x] in terms of one unit [u = 2^(e-1)]: for the mantissa
    [m] at exponent [e] the interval is [[2 m u, (2 m + 2) u)] with middle
    [(2 m + 1) u]. *)
Lemma inbetween_unit (x : Q) (m e : Z) (loc : location) :
  inbetween x m e loc <->
  match loc with
  | loc_Exact => x == 2 * inject_Z m * pow2 (e - 1)
  | loc_Inexact c =>
      2 * inject_Z m * pow2 (e - 1) < x
      /\ x < (2 * inject_Z m + 2) * pow2 (e - 1)
      /\ Qcompare x ((2 * inject_Z m + 1) * pow2 (e - 1)) = c
  end.
Proof.
  assert (He : pow2 e == 2 * pow2 (e - 1)).
  { rewrite <- pow2_succ. replace (e - 1 + 1)%Z with e by lia. reflexivity. }
  assert (H1 : F m e == 2 * inject_Z m * pow2 (e - 1)) by (unfold F; rewrite He; ring).
  assert (H2 : F (m + 1) e == (2 * inject_Z m + 2) * pow2 (e - 1)).
  { unfold F. rewrite He, inject_Z_plus. simpl. ring. }
  assert (H3 : F (2 * m + 1) (e - 1) == (2 * inject_Z m + 1) * pow2 (e - 1)).
  { unfold F. rewrite inject_Z_plus, inject_Z_mult. simpl. ring. }
  unfold inbetween. destruct loc as [| c]; rewrite ?H1, ?H2, ?H3; reflexivity.
Qed.

(** *** Shifting a mantissa to the right

    One shift halves the mantissa and keeps the place of the number in
    the round and sticky bits. *)

Lemma shr_1_inbetween (x : Q) (mrs : shr_record) (e : Z) :
  (0 <= shr_m mrs)%Z ->
  inbetween x (shr_m mrs) e (loc_of_shr_record mrs) ->
  (0 <= shr_m (shr_1 mrs))%Z
  /\ inbetween x (shr_m (shr_1 mrs)) (e + 1) (loc_of_shr_record (shr_1 mrs)).
Proof.
  destruct mrs as [m r s]. cbn [shr_m]. intros Hm H.
  apply inbetween_unit in H.
  assert (Hu : pow2 (e + 1 - 1) == 2 * pow2 (e - 1)).
  { replace (e + 1 - 1)%Z with (e - 1 + 1)%Z by lia. apply pow2_succ. }
  pose proof (pow2_pos (e - 1)) as Hpos.
  set (u := pow2 (e - 1)) in *.
  destruct m as [| p | p]; [| destruct p as [p | p |] | lia].
  all: split; [cbn; lia |].
  all: apply inbetween_unit.
  all: destruct r, s; cbn in H |- *; rewrite ?Hu; fold u.
  all: try rewrite inject_Z_xO in *; try rewrite inject_Z_xI in *.
  all: change (inject_Z 0) with 0 in *; change (inject_Z 1) with 1 in *.
  all: try (destruct H as (H1 & H2 & H3)); qcompare_hyps.
  all: repeat split; try qcompare_goal; try (set (a := inject_Z (Z.pos p)) in *); try nra.
Qed.

Lemma iter_shr_1_inbetween (x : Q) (p : positive) :
  forall (mrs : shr_record) (e : Z),
    (0 <= shr_m mrs)%Z ->
    inbetween x (shr_m mrs) e (loc_of_shr_record mrs) ->
    (0 <= shr_m (iter_pos shr_1 p mrs))%Z
    /\ inbetween x (shr_m (iter_pos shr_1 p mrs)) (e + Z.pos p)
                 (loc_of_shr_record (iter_pos shr_1 p mrs)).
Proof.
  induction p as [p IH | p IH |]; intros mrs e Hm H; cbn [iter_pos].
  - destruct (shr_1_inbetween x mrs e Hm H) as [Hm1 H1].
    destruct (IH _ _ Hm1 H1) as [Hm2 H2].
    destruct (IH _ _ Hm2 H2) as [Hm3 H3].
    split; [assumption |].
    replace (e + Z.pos p~1)%Z with (e + 1 + Z.pos p + Z.pos p)%Z by lia. assumption.
  - destruct (IH _ _ Hm H) as [Hm2 H2].
    destruct (IH _ _ Hm2 H2) as [Hm3 H3].
    split; [assumption |].
    replace (e + Z.pos p~0)%Z with (e + Z.pos p + Z.pos p)%Z by lia. assumption.
  - now apply shr_1_inbetween.
Qed.

Lemma loc_of_shr_record_of_loc (m : Z) (l : location) :
  loc_of_shr_record (shr_record_of_loc m l) = l
  /\ shr_m (shr_record_of_loc m l) = m.
Proof. destruct l as [| []]; split; reflexivity. Qed.

Lemma fexp64_eq (e : Z) : fexp64 e = Z.max (e - 53) (-1074).
Proof. reflexivity. Qed.

(** The first step of rounding: the mantissa is shifted to the exponent
    the format asks for, when that is above [e]. *)
Lemma shr_fexp_inbetween (x : Q) (m e : Z) (l : location) :
  (0 <= m)%Z -> inbetween x m e l ->
  let r := shr_fexp 53 1024 m e l in
  (0 <= shr_m (fst r))%Z
  /\ inbetween x (shr_m (fst r)) (snd r) (loc_of_shr_record (fst r))
  /\ snd r = Z.max e (fexp64 (Zdigits2 m + e)).
Proof.
  intros Hm H. unfold shr_fexp, shr. fold (fexp64 (Zdigits2 m + e)).
  destruct (loc_of_shr_record_of_loc m l) as [Hl Hsm].
  destruct (fexp64 (Zdigits2 m + e) - e)%Z as [| p | p] eqn:Hn; cbn [fst snd].
  - rewrite Hl, Hsm. split; [assumption | split; [assumption | lia]].
  - destruct (iter_shr_1_inbetween x p (shr_record_of_loc m l) e) as [H1 H2].
    + now rewrite Hsm.
    + now rewrite Hl, Hsm.
    + split; [assumption | split; [| lia]].
      replace (e + Z.pos p)%Z with (e + Z.pos p)%Z by lia. exact H2.
  - rewrite Hl, Hsm. split; [assumption | split; [assumption | lia]].
Qed.

Lemma Zdigits2_log2 (m : Z) : (0 < m)%Z -> Zdigits2 m = (Z.log2 m + 1)%Z.
Proof. intros H. destruct m as [| p | p]; try lia. simpl. apply digits2_pos_log2. Qed.

Lemma inbetween_bounds (x : Q) (m e : Z) (l : location) :
  inbetween x m e l -> F m e <= x /\ x < F (m + 1) e.
Proof.
  destruct l as [| c]; simpl.
  - intros H. rewrite H. split; [apply Qle_refl |].
    unfold F. apply Qmult_lt_compat_r; [apply pow2_pos |]. rewrite <- Zlt_Qlt. lia.
  - intros (H1 & H2 & _). split; [now apply Qlt_le_weak | assumption].
Qed.

Lemma rne_of_loc (x : Q) (m e : Z) (l : location) :
  inbetween x m e l -> rne (x / pow2 e) = round_nearest_even m l.
Proof.
  intros H. pose proof (pow2_pos e) as Hp.
  destruct l as [| c]; simpl in *.
  - rewrite (rne_comp _ (inject_Z m)); [apply rne_inject |].
    rewrite H. unfold F. field. intros H0. rewrite H0 in Hp. discriminate.
  - destruct H as (H1 & H2 & H3).
    set (y := x / pow2 e).
    assert (Hx : x == y * pow2 e).
    { unfold y. field. intros H0. rewrite H0 in Hp. discriminate. }
    unfold F in H1, H2.
    assert (Hy1 : inject_Z m < y).
    { apply Qmult_lt_r with (pow2 e); [assumption |]. now rewrite <- Hx. }
    assert (Hy2 : y < inject_Z (m + 1)).
    { apply Qmult_lt_r with (pow2 e); [assumption |]. now rewrite <- Hx. }
    assert (Hf : Qfloor y = m).
    { pose proof (Qfloor_le y). pose proof (Qlt_floor y).
      assert (m <= Qfloor y)%Z.
      { apply Qlt_le_weak in Hy1. apply Qfloor_resp_le in Hy1. now rewrite Qfloor_Z in Hy1. }
      assert (Qfloor y < m + 1)%Z.
      { rewrite Zlt_Qlt. apply Qle_lt_trans with y; assumption. }
      lia. }
    unfold rne. rewrite Hf.
    assert (Hmid : F (2 * m + 1) (e - 1) == (inject_Z m + (1 # 2)) * pow2 e).
    { unfold F. rewrite inject_Z_plus, inject_Z_mult.
      assert (He : pow2 e == 2 * pow2 (e - 1)).
      { rewrite <- pow2_succ. replace (e - 1 + 1)%Z with e by lia. reflexivity. }
      rewrite He. simpl. field. }
    assert (Hc : Qcompare (y - inject_Z m) (1 # 2) = c).
    { rewrite <- H3. rewrite Hmid.
      destruct (Qcompare x ((inject_Z m + (1 # 2)) * pow2 e)) eqn:Hcx; qcompare_hyps;
        qcompare_goal; rewrite Hx in Hcx.
      - apply Qmult_inj_r in Hcx; [lra | intros H0; rewrite H0 in Hp; discriminate].
      - apply Qmult_lt_r in Hcx; [lra | assumption].
      - apply Qmult_lt_r in Hcx; [lra | assumption]. }
    rewrite Hc. destruct c; reflexivity.
Qed.

Lemma shr_fexp_exact_small (m e : Z) :
  (2 ^ 52 <= m < 2 ^ 53)%Z -> (-1074 <= e)%Z ->
  shr_fexp 53 1024 m e loc_Exact = (Build_shr_record m false false, e).
Proof.
  intros Hm He. unfold shr_fexp, shr. fold (fexp64 (Zdigits2 m + e)).
  rewrite Zdigits2_log2 by lia.
  rewrite (Z.log2_unique m 52) by lia.
  rewrite fexp64_eq. replace (Z.max (52 + 1 + e - 53) (-1074) - e)%Z with 0%Z by lia.
  reflexivity.
Qed.

Lemma shr_fexp_exact_carry (e : Z) :
  (-1074 <= e)%Z ->
  shr_fexp 53 1024 (2 ^ 53) e loc_Exact = (Build_shr_record (2 ^ 52) false false, (e + 1)%Z).
Proof.
  intros He. unfold shr_fexp, shr. fold (fexp64 (Zdigits2 (2 ^ 53) + e)).
  change (Zdigits2 (2 ^ 53)) with 54%Z.
  rewrite fexp64_eq. replace (Z.max (54 + e - 53) (-1074) - e)%Z with 1%Z by lia.
  reflexivity.
Qed.

(** The rounding step of the binary64 operations returns the number
    [round_pos] describes, for a result in the normal range. *)
Lemma binary_round_aux_correct (x : Q) (m e : Z) (l : location) :
  (0 < m)%Z -> inbetween x m e l -> (e <= ulp_exp x)%Z ->
  (-1022 <= flog2 x < 1023)%Z ->
  exists (m' : positive) (e' : Z),
    binary_round_aux 53 1024 false m e l = S754_finite false m' e'
    /\ (2 ^ 52 <= Z.pos m' < 2 ^ 53)%Z
    /\ F (Z.pos m') e' == round_pos x.
Proof.
  intros Hm Hin He Hrange.
  destruct (inbetween_bounds x m e l Hin) as [Hlo Hhi].
  pose proof (flog2_inbetween x m e Hm Hlo Hhi) as Hlog.
  assert (Hx : 0 < x).
  { apply Qlt_le_trans with (F m e); [| assumption]. unfold F.
    apply Qmult_lt_0_compat; [| apply pow2_pos].
    replace 0 with (inject_Z 0) by reflexivity. now rewrite <- Zlt_Qlt. }
  assert (HE : ulp_exp x = (flog2 x - 52)%Z) by (unfold ulp_exp; lia).
  set (E := ulp_exp x) in *.
  assert (Hfexp : fexp64 (Zdigits2 m + e) = E).
  { rewrite Zdigits2_log2 by assumption. rewrite fexp64_eq. lia. }
  unfold binary_round_aux.
  pose proof (shr_fexp_inbetween x m e l ltac:(lia) Hin) as H1. cbv zeta in H1.
  destruct (shr_fexp 53 1024 m e l) as [mrs1 e1]. cbn [fst snd] in H1.
  destruct H1 as (Hm1 & Hin1 & He1). rewrite Hfexp in He1.
  assert (He1' : e1 = E) by lia. clear He1. subst e1.
  pose proof (rne_of_loc x _ _ _ Hin1) as Hrne.
  set (m2 := round_nearest_even (shr_m mrs1) (loc_of_shr_record mrs1)) in *.
  assert (Hround : round_pos x == F m2 E).
  { unfold round_pos, F. fold E. now rewrite Hrne. }
  destruct (flog2_spec x Hx) as [Hf1 Hf2].
  assert (Hm2 : (2 ^ 52 <= m2 <= 2 ^ 53)%Z).
  { rewrite <- Hrne. split.
    - apply rne_ge. apply Qle_shift_div_l; [apply pow2_pos |].
      rewrite <- pow2_inject by lia. rewrite <- pow2_add.
      replace (52 + E)%Z with (flog2 x) by lia. assumption.
    - apply rne_le. apply Qle_shift_div_r; [apply pow2_pos |].
      rewrite <- pow2_inject by lia. rewrite <- pow2_add.
      replace (53 + E)%Z with (flog2 x + 1)%Z by lia. now apply Qlt_le_weak. }
  destruct (Z.eq_dec m2 (2 ^ 53)) as [Hcarry | Hnc].
  - rewrite Hcarry, shr_fexp_exact_carry by lia. cbn [shr_m].
    change (2 ^ 52)%Z with (Z.pos (2 ^ 52)).
    assert (Hle : (E + 1 <=? 1024 - 53)%Z = true) by (apply Z.leb_le; lia).
    rewrite Hle. eexists _, _. split; [reflexivity |].
    split; [split; [lia | reflexivity] |].
    rewrite Hround, Hcarry. unfold F. rewrite pow2_succ.
    change (inject_Z (2 ^ 53)) with (2 * inject_Z (2 ^ 52)). 
    change (Z.pos (2 ^ 52)) with (2 ^ 52)%Z. ring.
  - rewrite shr_fexp_exact_small by lia. cbn [shr_m].
    destruct m2 as [| p | p] eqn:Hp; try lia.
    assert (Hle : (E <=? 1024 - 53)%Z = true) by (apply Z.leb_le; lia).
    rewrite Hle. exists p, E. split; [reflexivity |].
    split; [lia |]. now rewrite Hround.
Qed.

(** *** Numbers and their binary64 representation *)

Lemma F_pos (m e : Z) : (0 < m)%Z -> 0 < F m e.
Proof.
  intros H. unfold F. apply Qmult_lt_0_compat; [| apply pow2_pos].
  replace 0 with (inject_Z 0) by reflexivity. now rewrite <- Zlt_Qlt.
Qed.

Lemma F_lt_succ (m e : Z) : F m e < F (m + 1) e.
Proof.
  unfold F. apply Qmult_lt_compat_r; [apply pow2_pos |]. rewrite <- Zlt_Qlt. lia.
Qed.

Lemma F_shift (m e k : Z) : (0 <= k)%Z -> F (m * 2 ^ k) (e - k) == F m e.
Proof.
  intros Hk. unfold F. rewrite inject_Z_mult, <- pow2_inject by assumption.
  rewrite <- Qmult_assoc, <- pow2_add. replace (k + (e - k))%Z with e by lia. reflexivity.
Qed.

Lemma flog2_F (m e : Z) : (0 < m)%Z -> flog2 (F m e) = (Z.log2 m + e)%Z.
Proof.
  intros Hm. apply flog2_inbetween; [assumption | apply Qle_refl | apply F_lt_succ].
Qed.

Lemma flog2_comp (q q' : Q) : 0 < q -> q == q' -> flog2 q = flog2 q'.
Proof.
  intros Hq Heq. destruct (flog2_spec q Hq) as [H1 H2].
  symmetry. apply flog2_unique; now rewrite <- Heq.
Qed.

Lemma round_pos_comp (q q' : Q) : 0 < q -> q == q' -> round_pos q == round_pos q'.
Proof.
  intros Hq Heq. unfold round_pos, ulp_exp. rewrite (flog2_comp q q' Hq Heq).
  rewrite (rne_comp (q / _) (q' / pow2 (Z.max (flog2 q' - 52) (-1074)))); [reflexivity |].
  now rewrite Heq.
Qed.

(** A number that fits the format is its own rounding. *)
Lemma round_pos_exact (x : Q) (m e : Z) :
  (0 < m)%Z -> x == F m e -> (ulp_exp x <= e)%Z -> round_pos x == x.
Proof.
  intros Hm Hx He. unfold round_pos. set (E := ulp_exp x) in *.
  assert (Hq : x / pow2 E == inject_Z (m * 2 ^ (e - E))).
  { rewrite Hx. unfold F. rewrite inject_Z_mult, <- pow2_inject by lia.
    rewrite pow2_sub. field. pose proof (pow2_pos E). intros H0. rewrite H0 in H. discriminate. }
  rewrite (rne_comp _ _ Hq), rne_inject. fold (F (m * 2 ^ (e - E)) E).
  replace E with (e - (e - E))%Z at 2 by lia. rewrite F_shift by lia. now rewrite Hx.
Qed.

Lemma round64_normal (q : Q) :
  normal q -> round64 q = Fin (Qred (round_pos q)).
Proof.
  intros [Hq Hr]. destruct (round64_cases q (Qlt_le_weak _ _ Hq)) as [[H0 _] | [(_ & Hov & _) | (_ & _ & H)]].
  - rewrite H0 in Hq. discriminate.
  - exfalso. destruct (flog2_spec q Hq) as [_ Hhi].
    assert (Hle : round_pos q <= pow2 1023).
    { apply round_pos_le_pow2.
      - apply Qlt_le_weak. apply Qlt_le_trans with (pow2 (flog2 q + 1)); [assumption |].
        apply pow2_le. lia.
      - unfold ulp_exp. lia. }
    pose proof (pow2_lt 1023 1024 ltac:(lia)). lra.
  - assumption.
Qed.

Lemma binary_round_aux_represents (x : Q) (m e : Z) (l : location) :
  (0 < m)%Z -> inbetween x m e l -> (e <= ulp_exp x)%Z -> normal x ->
  exists r, round64 x = Fin r /\ represents (binary_round_aux 53 1024 false m e l) r.
Proof.
  intros Hm Hin He Hn. pose proof Hn as [_ Hr].
  destruct (binary_round_aux_correct x m e l Hm Hin He Hr) as (m' & e' & Heq & Hc & Hv).
  exists (Qred (round_pos x)). split; [now apply round64_normal |].
  rewrite Heq. simpl. split; [assumption |]. now rewrite Qred_correct, Hv.
Qed.

Lemma iter_xO (m d : positive) : Z.pos (Pos.iter xO m d) = (Z.pos m * 2 ^ Z.pos d)%Z.
Proof.
  induction d as [| d IH] using Pos.peano_ind.
  - simpl. lia.
  - rewrite Pos.iter_succ, Pos2Z.inj_xO, IH, Pos2Z.inj_succ, Z.pow_succ_r by lia. lia.
Qed.

Lemma shl_align_spec (mx : positive) (ex ex' : Z) :
  let r := shl_align mx ex ex' in
  F (Z.pos (fst r)) (snd r) == F (Z.pos mx) ex /\ snd r = Z.min ex ex'.
Proof.
  unfold shl_align. destruct (ex' - ex)%Z as [| d | d] eqn:Hd; cbn [fst snd].
  - split; [reflexivity | lia].
  - split; [reflexivity | lia].
  - split; [| lia]. rewrite iter_xO.
    replace ex' with (ex - Z.pos d)%Z by lia. apply F_shift. lia.
Qed.

Lemma binary_round_represents (x : Q) (mx : positive) (ex : Z) :
  x == F (Z.pos mx) ex -> normal x ->
  exists r, round64 x = Fin r /\ represents (binary_round 53 1024 false mx ex) r.
Proof.
  intros Hx Hn. unfold binary_round. fold (fexp64 (Z.pos (digits2_pos mx) + ex)).
  pose proof (shl_align_spec mx ex (fexp64 (Z.pos (digits2_pos mx) + ex))) as Hs.
  cbv zeta in Hs. destruct (shl_align mx ex _) as [mz ez]. cbn [fst snd] in Hs.
  destruct Hs as [Hv He].
  destruct Hn as [Hq Hr].
  assert (Hlog : flog2 x = (Z.log2 (Z.pos mx) + ex)%Z).
  { rewrite (flog2_comp x _ Hq Hx). apply flog2_F. lia. }
  apply binary_round_aux_represents; [lia | | | split; assumption].
  - simpl. now rewrite Hv.
  - rewrite He, digits2_pos_log2, fexp64_eq. unfold ulp_exp. lia.
Qed.

Lemma represents_comp (sf : spec_float) (q q' : Q) :
  represents sf q -> q == q' -> represents sf q'.
Proof.
  intros H Heq. destruct sf as [s | s | | [] m e]; simpl in *; try contradiction.
  - now rewrite <- Heq.
  - destruct H as [Hc Hv]. split; [assumption | now rewrite <- Heq].
Qed.

(** [of_int z] is the integer [z], for [0 <= z < 2^53]. *)
Lemma of_int_represents (z : Z) :
  (0 <= z < 2 ^ 53)%Z -> represents (Binary64.of_int z) (inject_Z z).
Proof.
  intros Hz. unfold Binary64.of_int, binary_normalize.
  destruct z as [| p | p]; [reflexivity | | lia].
  assert (Hx : inject_Z (Z.pos p) == F (Z.pos p) 0).
  { unfold F. change (pow2 0) with 1. ring. }
  assert (Hpos : 0 < inject_Z (Z.pos p)) by reflexivity.
  assert (Hlog : flog2 (inject_Z (Z.pos p)) = Z.log2 (Z.pos p)).
  { rewrite (flog2_comp _ _ Hpos Hx), flog2_F by lia. lia. }
  assert (Hl : (0 <= Z.log2 (Z.pos p) < 53)%Z).
  { split; [apply Z.log2_nonneg |]. apply Z.log2_lt_pow2; lia. }
  destruct (binary_round_represents (inject_Z (Z.pos p)) p 0 Hx) as (r & Hr & Hrep).
  { split; [assumption | lia]. }
  rewrite round64_normal in Hr by (split; [assumption | lia]).
  injection Hr as <-.
  assert (Hex : Qred (round_pos (inject_Z (Z.pos p))) == inject_Z (Z.pos p)).
  { rewrite Qred_correct. apply (round_pos_exact _ (Z.pos p) 0); [lia | assumption |].
    unfold ulp_exp. lia. }
  exact (represents_comp _ _ _ Hrep Hex).
Qed.

Lemma round64_zero (q : Q) : q == 0 -> round64 q = Fin 0.
Proof. intros H. apply Qnum_zero in H. unfold round64. now rewrite H. Qed.

Lemma represents_nonneg (sf : spec_float) (q : Q) : represents sf q -> 0 <= q.
Proof.
  destruct sf as [s | s | | [] m e]; simpl; try contradiction.
  - intros ->. apply Qle_refl.
  - intros [_ ->]. apply Qlt_le_weak, F_pos. lia.
Qed.

Lemma represents_zero (sf : spec_float) (q : Q) :
  represents sf q -> q == 0 -> exists s, sf = S754_zero s.
Proof.
  destruct sf as [s | s | | [] m e]; simpl; try contradiction.
  - eauto.
  - intros [_ Hv] H0. rewrite Hv in H0. pose proof (F_pos (Z.pos m) e ltac:(lia)) as Hp.
    rewrite H0 in Hp. discriminate.
Qed.

Lemma represents_pos (sf : spec_float) (q : Q) :
  represents sf q -> 0 < q ->
  exists m e, sf = S754_finite false m e /\ (2 ^ 52 <= Z.pos m < 2 ^ 53)%Z /\ q == F (Z.pos m) e.
Proof.
  destruct sf as [s | s | | [] m e]; simpl; try contradiction.
  - intros -> H. discriminate.
  - intros [Hc Hv] _. eauto.
Qed.

Lemma F_mul (m1 e1 m2 e2 : Z) : F m1 e1 * F m2 e2 == F (m1 * m2) (e1 + e2).
Proof. unfold F. rewrite inject_Z_mult, pow2_add. ring. Qed.

Lemma log2_canonical (m : Z) : (2 ^ 52 <= m < 2 ^ 53)%Z -> Z.log2 m = 52%Z.
Proof. intros H. apply Z.log2_unique; lia. Qed.

(** *** The operations of a percentage *)

(** Multiplication. *)
Lemma SFmul_represents (X Y : spec_float) (qx qy : Q) :
  represents X qx -> represents Y qy ->
  (0 < qx * qy -> normal (qx * qy)) ->
  exists r, round64 (qx * qy) = Fin r /\ represents (SFmul 53 1024 X Y) r.
Proof.
  intros HX HY Hn.
  pose proof (represents_nonneg X qx HX) as Hx0.
  pose proof (represents_nonneg Y qy HY) as Hy0.
  destruct (Qlt_le_dec 0 qx) as [Hxp | Hxz]; [destruct (Qlt_le_dec 0 qy) as [Hyp | Hyz] |].
  - destruct (represents_pos X qx HX Hxp) as (mx & ex & -> & Hcx & Hvx).
    destruct (represents_pos Y qy HY Hyp) as (my & ey & -> & Hcy & Hvy).
    assert (Hp : 0 < qx * qy) by now apply Qmult_lt_0_compat.
    cbn [SFmul xorb].
    assert (Hv : qx * qy == F (Z.pos (mx * my)) (ex + ey)).
    { rewrite Hvx, Hvy, F_mul. reflexivity. }
    apply binary_round_aux_represents; [lia | exact Hv | | now apply Hn].
    unfold ulp_exp. rewrite (flog2_comp _ _ Hp Hv), flog2_F by lia.
    assert (104 <= Z.log2 (Z.pos (mx * my)))%Z.
    { apply Z.log2_le_pow2; [lia |]. rewrite Pos2Z.inj_mul.
      change (2 ^ 104)%Z with (2 ^ 52 * 2 ^ 52)%Z. nia. }
    lia.
  - assert (H0 : qy == 0) by now apply Qle_antisym.
    destruct (represents_zero Y qy HY H0) as [sy ->].
    exists 0. split; [apply round64_zero; rewrite H0; ring |].
    destruct X as [s | s | | [] m e]; simpl in *; try contradiction; reflexivity.
  - assert (H0 : qx == 0) by now apply Qle_antisym.
    destruct (represents_zero X qx HX H0) as [sx ->].
    exists 0. split; [apply round64_zero; rewrite H0; ring |].
    destruct Y as [s | s | | [] m e]; simpl in *; try contradiction; reflexivity.
Qed.

Lemma F_add (m1 m2 e : Z) : F m1 e + F m2 e == F (m1 + m2) e.
Proof. unfold F. rewrite inject_Z_plus. ring. Qed.

(** Addition. *)
Lemma SFadd_represents (X Y : spec_float) (qx qy : Q) :
  represents X qx -> represents Y qy ->
  (0 < qx + qy -> normal (qx + qy)) ->
  exists r, round64 (qx + qy) = Fin r /\ represents (SFadd 53 1024 X Y) r.
Proof.
  intros HX HY Hn.
  pose proof (represents_nonneg X qx HX) as Hx0.
  pose proof (represents_nonneg Y qy HY) as Hy0.
  destruct (Qlt_le_dec 0 qx) as [Hxp | Hxz]; [destruct (Qlt_le_dec 0 qy) as [Hyp | Hyz] |].
  - destruct (represents_pos X qx HX Hxp) as (mx & ex & -> & Hcx & Hvx).
    destruct (represents_pos Y qy HY Hyp) as (my & ey & -> & Hcy & Hvy).
    assert (Hp : 0 < qx + qy) by lra.
    cbn [SFadd cond_Zopp].
    pose proof (shl_align_spec mx ex (Z.min ex ey)) as Hsx.
    pose proof (shl_align_spec my ey (Z.min ex ey)) as Hsy.
    cbv zeta in Hsx, Hsy.
    destruct (shl_align mx ex _) as [ax zx]. destruct (shl_align my ey _) as [ay zy].
    cbn [fst snd] in *. destruct Hsx as [Hax Hzx]. destruct Hsy as [Hay Hzy].
    assert (Hzx' : zx = Z.min ex ey) by lia. assert (Hzy' : zy = Z.min ex ey) by lia.
    clear Hzx Hzy. subst zx zy.
    change (Z.pos ax + Z.pos ay)%Z with (Z.pos (ax + ay)). cbn [binary_normalize].
    apply binary_round_represents; [| now apply Hn].
    rewrite Hvx, Hvy, <- Hax, <- Hay, F_add. reflexivity.
  - assert (H0 : qy == 0) by now apply Qle_antisym.
    destruct (represents_zero Y qy HY H0) as [sy ->].
    destruct (Qlt_le_dec 0 qx) as [Hxp' | Hxz'].
    + destruct (represents_pos X qx HX Hxp') as (mx & ex & -> & Hcx & Hvx).
      assert (Hq : qx + qy == F (Z.pos mx) ex) by (rewrite H0, <- Hvx; ring).
      assert (Hp : 0 < qx + qy) by lra.
      exists (Qred (round_pos (qx + qy))). split; [apply round64_normal, Hn, Hp |].
      cbn [SFadd]. simpl. split; [assumption |].
      rewrite Qred_correct. transitivity (qx + qy); [| exact Hq].
      apply (round_pos_exact _ (Z.pos mx) ex); [lia | exact Hq |].
      destruct (Hn Hp) as [_ Hr]. unfold ulp_exp.
      rewrite (flog2_comp _ _ Hp Hq), flog2_F, log2_canonical in * by lia. lia.
    + lra.
  - assert (H0 : qx == 0) by now apply Qle_antisym.
    destruct (represents_zero X qx HX H0) as [sx ->].
    destruct (Qlt_le_dec 0 qy) as [Hyp | Hyz].
    + destruct (represents_pos Y qy HY Hyp) as (my & ey & -> & Hcy & Hvy).
      assert (Hq : qx + qy == F (Z.pos my) ey) by (rewrite H0, <- Hvy; ring).
      assert (Hp : 0 < qx + qy) by lra.
      exists (Qred (round_pos (qx + qy))). split; [apply round64_normal, Hn, Hp |].
      cbn [SFadd]. simpl. split; [assumption |].
      rewrite Qred_correct. transitivity (qx + qy); [| exact Hq].
      apply (round_pos_exact _ (Z.pos my) ey); [lia | exact Hq |].
      destruct (Hn Hp) as [_ Hr]. unfold ulp_exp.
      rewrite (flog2_comp _ _ Hp Hq), flog2_F, log2_canonical in * by lia. lia.
    + assert (H0' : qy == 0) by now apply Qle_antisym.
      destruct (represents_zero Y qy HY H0') as [sy ->].
      exists 0. split; [apply round64_zero; rewrite H0, H0'; ring |].
      destruct sx, sy; reflexivity.
Qed.

(** The location that division reads off the remainder. *)
Lemma remainder_inbetween (x : Q) (q r m2 e : Z) (c : comparison) :
  (0 < r < m2)%Z -> x * inject_Z m2 == F (q * m2 + r) e ->
  (2 * r ?= m2)%Z = c -> inbetween x q e (loc_Inexact c).
Proof.
  intros Hr Hx Hc. unfold inbetween, F in *.
  assert (HP : pow2 e == 2 * pow2 (e - 1)).
  { rewrite <- pow2_succ. replace (e - 1 + 1)%Z with e by lia. reflexivity. }
  pose proof (pow2_pos (e - 1)) as HP'.
  rewrite !inject_Z_plus, !inject_Z_mult in *. rewrite HP in *.
  change (inject_Z 1) with 1. change (inject_Z 2) with 2.
  assert (HM : 0 < inject_Z m2) by (rewrite <- (Zlt_Qlt 0); lia).
  assert (HR : 0 < inject_Z r) by (rewrite <- (Zlt_Qlt 0); lia).
  assert (HRM : inject_Z r < inject_Z m2) by (rewrite <- Zlt_Qlt; lia).
  set (M := inject_Z m2) in *. set (R := inject_Z r) in *. set (A := inject_Z q) in *.
  set (P := pow2 (e - 1)) in *.
  assert (HRP : 0 < R * P) by nra.
  assert (HMP : 0 < M * P) by nra.
  assert (HRMP : R * P < M * P) by nra.
  assert (Hc' : Qcompare (2 * R) M = c).
  { subst c. unfold R, M. destruct (Z.compare_spec (2 * r) m2) as [H | H | H].
    - apply -> Qeq_alt. rewrite <- H, inject_Z_mult. reflexivity.
    - apply -> Qlt_alt. change 2 with (inject_Z 2). rewrite <- inject_Z_mult, <- Zlt_Qlt. lia.
    - apply -> Qgt_alt. change 2 with (inject_Z 2). rewrite <- inject_Z_mult, <- Zlt_Qlt. lia. }
  split; [| split].
  - nra.
  - nra.
  - destruct c.
    + apply Qeq_alt in Hc'. apply -> Qeq_alt. nra.
    + apply Qlt_alt in Hc'. apply -> Qlt_alt. nra.
    + apply Qgt_alt in Hc'. apply -> Qgt_alt. nra.
Qed.

Lemma new_location_inbetween (x : Q) (q r m2 e : Z) :
  (0 <= r < m2)%Z -> x * inject_Z m2 == F (q * m2 + r) e ->
  inbetween x q e (new_location m2 r).
Proof.
  intros Hr Hx.
  assert (HM : 0 < inject_Z m2) by (rewrite <- (Zlt_Qlt 0); lia).
  assert (Hex : r = 0%Z -> x == F q e).
  { intros ->. unfold F in *. rewrite Z.add_0_r, inject_Z_mult in Hx.
    apply (Qmult_inj_r _ _ (inject_Z m2)); [intros H0; rewrite H0 in HM; discriminate |].
    rewrite Hx. ring. }
  unfold new_location. destruct (Z.even m2) eqn:Hev.
  - unfold new_location_even. destruct (Z.eqb_spec r 0) as [H0 | H0]; [now apply Hex |].
    apply (remainder_inbetween x q r m2 e); [lia | assumption | reflexivity].
  - unfold new_location_odd. destruct (Z.eqb_spec r 0) as [H0 | H0]; [now apply Hex |].
    apply (remainder_inbetween x q r m2 e); [lia | assumption |].
    assert (Hodd : Z.odd m2 = true) by (rewrite <- Z.negb_even, Hev; reflexivity).
    apply Z.odd_spec in Hodd. destruct Hodd as [k Hk].
    destruct (Z.compare_spec (2 * r) m2), (Z.compare_spec (2 * r + 1) m2);
      first [reflexivity | lia].
Qed.

Lemma pow2_nonzero (e : Z) : ~ pow2 e == 0.
Proof. intros H. pose proof (pow2_pos e) as Hp. rewrite H in Hp. discriminate. Qed.

Lemma quotient_as_F (qx qy : Q) (mx ex my ey : Z) :
  (0 < my)%Z -> qx == F mx ex -> qy == F my ey ->
  qx / qy * inject_Z my == F mx (ex - ey).
Proof.
  intros Hmy Hx Hy. rewrite Hx, Hy. unfold F. rewrite pow2_sub.
  assert (HM : 0 < inject_Z my) by (rewrite <- (Zlt_Qlt 0); lia).
  field. split; [apply pow2_nonzero |]. intros H0. rewrite H0 in HM. discriminate.
Qed.

Lemma flog2_quotient (x : Q) (mx my d : Z) :
  (2 ^ 52 <= mx < 2 ^ 53)%Z -> (2 ^ 52 <= my < 2 ^ 53)%Z ->
  x * inject_Z my == F mx d -> 0 < x /\ (d - 1 <= flog2 x <= d)%Z.
Proof.
  intros Hmx Hmy Hx. unfold F in Hx.
  assert (HP : pow2 d == 2 * pow2 (d - 1)).
  { rewrite <- pow2_succ. replace (d - 1 + 1)%Z with d by lia. reflexivity. }
  assert (HP2 : pow2 (d + 1) == 2 * pow2 d) by apply pow2_succ.
  pose proof (pow2_pos (d - 1)) as HP'.
  assert (H1 : inject_Z my < 2 * inject_Z mx).
  { change 2 with (inject_Z 2). rewrite <- inject_Z_mult, <- Zlt_Qlt. lia. }
  assert (H2 : inject_Z mx < 2 * inject_Z my).
  { change 2 with (inject_Z 2). rewrite <- inject_Z_mult, <- Zlt_Qlt. lia. }
  assert (HM : 0 < inject_Z my) by (rewrite <- (Zlt_Qlt 0); lia).
  assert (HX : 0 < inject_Z mx) by (rewrite <- (Zlt_Qlt 0); lia).
  set (M := inject_Z my) in *. set (A := inject_Z mx) in *.
  assert (Hlo : pow2 (d - 1) < x).
  { set (P := pow2 (d - 1)) in *. rewrite HP in Hx. nra. }
  assert (Hhi : x < pow2 (d + 1)).
  { rewrite HP2. set (P := pow2 d) in *. assert (0 < P) by apply pow2_pos.
    assert (0 < (2 * M - A) * P) by (apply Qmult_lt_0_compat; lra).
    destruct (Qlt_le_dec x (2 * P)) as [Hlt | Hge]; [assumption |].
    assert (0 <= (x - 2 * P) * M) by (apply Qmult_le_0_compat; lra). lra. }
  assert (Hpos : 0 < x) by lra.
  split; [assumption |].
  destruct (flog2_spec x Hpos) as [H3 H4].
  assert (d - 1 < flog2 x + 1)%Z by (apply pow2_lt_inv; lra).
  assert (flog2 x < d + 1)%Z by (apply pow2_lt_inv; lra).
  lia.
Qed.

(** Division. *)
Lemma SFdiv_represents (X Y : spec_float) (qx qy : Q) :
  represents X qx -> represents Y qy -> 0 < qy ->
  (0 < qx -> normal (qx / qy)) ->
  exists r, round64 (qx / qy) = Fin r /\ represents (SFdiv 53 1024 X Y) r.
Proof.
  intros HX HY Hyp Hn.
  pose proof (represents_nonneg X qx HX) as Hx0.
  destruct (represents_pos Y qy HY Hyp) as (my & ey & -> & Hcy & Hvy).
  destruct (Qlt_le_dec 0 qx) as [Hxp | Hxz].
  - destruct (represents_pos X qx HX Hxp) as (mx & ex & -> & Hcx & Hvx).
    specialize (Hn Hxp).
    pose proof (quotient_as_F qx qy (Z.pos mx) ex (Z.pos my) ey ltac:(lia) Hvx Hvy) as Hq.
    destruct (flog2_quotient _ _ _ _ Hcx Hcy Hq) as [Hpos Hlog].
    destruct Hn as [Hn0 Hnr]. 
    cbn [SFdiv xorb]. unfold SFdiv_core_binary.
    rewrite !Zdigits2_log2, !log2_canonical by lia.
    fold (fexp64 (52 + 1 + ex - (52 + 1 + ey))). rewrite fexp64_eq.
    set (e' := Z.min _ _).
    assert (He' : (e' = Z.min (Z.max (ex - ey - 53) (-1074)) (ex - ey))%Z) by (unfold e'; f_equal; lia).
    clearbody e'.
    destruct (ex - ey - e')%Z as [| s | s] eqn:Hs; try lia.
    rewrite Z.shiftl_mul_pow2 by lia.
    pose proof (Z_div_mod (Z.pos mx * 2 ^ Z.pos s) (Z.pos my) ltac:(lia)) as Hdm.
    destruct (Z.div_eucl _ _) as [q r]. destruct Hdm as [Hdm Hr].
    assert (Hpw : (2 ^ 52 <= 2 ^ Z.pos s)%Z) by (apply Z.pow_le_mono_r; lia).
    apply binary_round_aux_represents.
    + nia.
    + apply new_location_inbetween; [assumption |].
      rewrite Hq. replace (q * Z.pos my + r)%Z with (Z.pos mx * 2 ^ Z.pos s)%Z by lia.
      replace e' with (ex - ey - Z.pos s)%Z by lia. symmetry. apply F_shift. lia.
    + unfold ulp_exp. lia.
    + split; assumption.
  - assert (H0 : qx == 0) by now apply Qle_antisym.
    destruct (represents_zero X qx HX H0) as [sx ->].
    exists 0. split; [| reflexivity].
    apply round64_zero. rewrite H0. unfold Qdiv. ring.
Qed.

Lemma Qfloor_quotient (a : Z) (p : positive) :
  Qfloor (inject_Z a / inject_Z (Z.pos p)) = (a / Z.pos p)%Z.
Proof.
  assert (H : inject_Z a / inject_Z (Z.pos p) == a # p).
  { unfold Qeq, Qdiv, Qmult, Qinv, inject_Z. simpl. lia. }
  rewrite (Qfloor_comp _ _ H). reflexivity.
Qed.

(** [Math.floor] of a represented number. *)
Lemma floor_represents (sf : spec_float) (q : Q) :
  represents sf q -> Binary64.floor sf = Some (Qfloor q).
Proof.
  destruct sf as [s | s | | [] m e]; cbn [represents Binary64.floor]; try contradiction.
  - intros H. now rewrite (Qfloor_comp _ _ H).
  - intros [_ H]. rewrite (Qfloor_comp _ _ H). f_equal. unfold F.
    destruct (Z.leb_spec 0 e) as [He | He].
    + assert (Hq : inject_Z (Z.pos m) * pow2 e == inject_Z (Z.pos m * 2 ^ e)).
      { rewrite inject_Z_mult, pow2_inject by assumption. reflexivity. }
      now rewrite (Qfloor_comp _ _ Hq), Qfloor_Z.
    + assert (Hp : (0 < 2 ^ (- e))%Z) by (apply Z.pow_pos_nonneg; lia).
      destruct (2 ^ (- e))%Z as [| p | p] eqn:Hpw; try lia.
      assert (Hq : inject_Z (Z.pos m) * pow2 e == inject_Z (Z.pos m) / inject_Z (Z.pos p)).
      { replace e with (0 - - e)%Z at 1 by lia. rewrite pow2_sub, (pow2_inject (- e)), Hpw by lia.
        change (pow2 0) with 1. field. discriminate. }
      now rewrite (Qfloor_comp _ _ Hq), Qfloor_quotient.
Qed.

(** *** The percentage *)

Lemma flog2_pow2 (k : Z) : flog2 (pow2 k) = k.
Proof. apply flog2_unique; [apply Qle_refl | apply pow2_lt; lia]. Qed.

Lemma normal_between (q : Q) (lo hi : Z) :
  pow2 lo <= q -> q <= pow2 hi -> (-1022 <= lo)%Z -> (hi < 1023)%Z -> normal q.
Proof.
  intros Hlo Hhi H1 H2.
  assert (Hq : 0 < q) by (pose proof (pow2_pos lo); lra).
  split; [assumption |]. split.
  - pose proof (flog2_mono (pow2 lo) q (pow2_pos lo) Hlo) as H. rewrite flog2_pow2 in H. lia.
  - pose proof (flog2_le_of_le_pow2 q hi Hq Hhi). lia.
Qed.

Lemma round64_pos_inv (q r : Q) : 0 <= q -> round64 q = Fin r -> 0 < r -> 0 < q.
Proof.
  intros Hq Hr Hp. destruct (Qlt_le_dec 0 q) as [H | H]; [assumption | exfalso].
  assert (H0 : q == 0) by now apply Qle_antisym.
  rewrite (round64_zero q H0) in Hr. injection Hr as <-. discriminate.
Qed.

(** X8.  On heights below [2^53] the percentage of the embedding is the one
    that the IEEE 754 operations of the standard library compute. *)
Theorem percentage_binary64 (b l c : Z) :
  (0 < b < 2 ^ 53)%Z -> (0 <= l < 2 ^ 53)%Z -> (0 <= c < 2 ^ 53)%Z ->
  Binary64.percentage b l c = Binary64.embedded b l c.
Proof.
  intros Hb Hl Hc.
  destruct (SyncPercentageFacts.percentage_chain b l c Hb Hl Hc)
    as (sq & dq & xq & yq & Hs & Hd & Hx & Hy & Hs0 & Hd0 & Hx0 & Hy0 & Hp & Heq).
  unfold Binary64.embedded. rewrite Heq, Qfloor_Z.
  unfold Binary64.percentage, Binary64.prec, Binary64.emax.
  change (2 ^ 53)%Z with 9007199254740992%Z in Hb, Hl, Hc.
  pose proof (of_int_represents l ltac:(lia)) as Rl.
  pose proof (of_int_represents c ltac:(lia)) as Rc.
  pose proof (of_int_represents b ltac:(lia)) as Rb.
  pose proof (of_int_represents 2 ltac:(lia)) as R2.
  pose proof (of_int_represents 100 ltac:(lia)) as R100.
  change (inject_Z 2) with 2 in R2. change (inject_Z 100) with 100 in R100.
  assert (HS0 : 0 <= inject_Z l + inject_Z c).
  { rewrite <- inject_Z_plus. change 0 with (inject_Z 0). rewrite <- Zle_Qle. lia. }
  assert (HS1 : inject_Z l + inject_Z c <= pow2 54).
  { rewrite <- inject_Z_plus, (SyncPercentageFacts.pow2_const 54 18014398509481984)
      by (lia || reflexivity). rewrite <- Zle_Qle. lia. }
  assert (HSp : 0 < inject_Z l + inject_Z c -> pow2 0 <= inject_Z l + inject_Z c).
  { rewrite <- inject_Z_plus. change 0 with (inject_Z 0). change (pow2 0) with (inject_Z 1).
    rewrite <- Zlt_Qlt, <- Zle_Qle. lia. }
  assert (Hb2 : inject_Z b * 2 == inject_Z (b * 2)).
  { rewrite inject_Z_mult. reflexivity. }
  assert (HD0 : pow2 1 <= inject_Z b * 2).
  { rewrite Hb2, (SyncPercentageFacts.pow2_const 1 2) by (lia || reflexivity).
    rewrite <- Zle_Qle. lia. }
  assert (HD1 : inject_Z b * 2 <= pow2 54).
  { rewrite Hb2, (SyncPercentageFacts.pow2_const 54 18014398509481984)
      by (lia || reflexivity). rewrite <- Zle_Qle. lia. }
  destruct (SFadd_represents _ _ _ _ Rl Rc) as (r1 & Hr1 & Rs).
  { intros H. apply (normal_between _ 0 54); auto; lia. }
  assert (r1 = sq) by congruence. subst r1.
  destruct (SFmul_represents _ _ _ _ Rb R2) as (r2 & Hr2 & Rd).
  { intros _. apply (normal_between _ 1 54); auto; lia. }
  assert (r2 = dq) by congruence. subst r2.
  assert (Hsq1 : sq <= pow2 54).
  { destruct (round64_fin _ 54 HS0 HS1 ltac:(lia)) as (r & Hr & _ & Hle).
    assert (r = sq) by congruence. now subst r. }
  assert (Hsqp : 0 < sq -> pow2 0 <= sq).
  { intros H. apply (round64_ge_pow2 (inject_Z l + inject_Z c) sq 0); [| lia | assumption].
    apply HSp. now apply (round64_pos_inv _ sq). }
  assert (Hdq0 : pow2 1 <= dq) by (apply (round64_ge_pow2 _ dq 1 HD0); [lia | assumption]).
  assert (Hdq1 : dq <= pow2 54).
  { destruct (round64_fin (inject_Z b * 2) 54) as (r & Hr & _ & Hle); [| assumption | lia |].
    - pose proof (pow2_pos 1). lra.
    - assert (r = dq) by congruence. now subst r. }
  assert (HX0 : 0 < sq -> pow2 (-54) <= sq / dq).
  { intros H. specialize (Hsqp H). apply Qle_shift_div_l; [assumption |].
    apply Qle_trans with (pow2 (-54) * pow2 54).
    - apply Qmult_le_l; [apply pow2_pos | assumption].
    - rewrite <- pow2_add. exact Hsqp. }
  assert (HX1 : sq / dq <= pow2 53).
  { apply Qle_shift_div_r; [assumption |].
    apply Qle_trans with (pow2 53 * pow2 1).
    - rewrite <- pow2_add. exact Hsq1.
    - apply Qmult_le_l; [apply pow2_pos | assumption]. }
  destruct (SFdiv_represents _ _ _ _ Rs Rd Hd0) as (r3 & Hr3 & Rx).
  { intros H. apply (normal_between _ (-54) 53); auto; lia. }
  assert (r3 = xq) by congruence. subst r3.
  assert (HXq0 : 0 <= sq / dq) by (apply Qle_shift_div_l; [assumption | lra]).
  assert (Hxq1 : xq <= pow2 53).
  { destruct (round64_fin _ 53 HXq0 HX1 ltac:(lia)) as (r & Hr & _ & Hle).
    assert (r = xq) by congruence. now subst r. }
  assert (Hxqp : 0 < xq -> pow2 (-54) <= xq).
  { intros H. apply (round64_ge_pow2 (sq / dq) xq (-54)); [| lia | assumption].
    apply HX0.
    destruct (Qlt_le_dec 0 sq) as [Hsp | Hsz]; [assumption | exfalso].
    assert (Hz : sq / dq == 0).
    { assert (sq == 0) as -> by now apply Qle_antisym. unfold Qdiv. ring. }
    rewrite (round64_zero _ Hz) in Hx. injection Hx as <-. discriminate. }
  destruct (SFmul_represents _ _ _ _ Rx R100) as (r4 & Hr4 & Ry).
  { intros H. assert (Hxp : 0 < xq).
    { destruct (Qlt_le_dec 0 xq) as [Hxp | Hxz]; [assumption | exfalso].
      assert (xq == 0) as Hz by now apply Qle_antisym. rewrite Hz in H. discriminate. }
    specialize (Hxqp Hxp). apply (normal_between _ (-54) 60); try lia.
    - lra.
    - apply Qle_trans with (pow2 53 * pow2 7); [| rewrite <- pow2_add; apply Qle_refl].
      apply Qle_trans with (pow2 53 * 100).
      + apply Qmult_le_compat_r; [assumption | discriminate].
      + apply Qmult_le_l; [apply pow2_pos |].
        rewrite (SyncPercentageFacts.pow2_const 7 128) by (lia || reflexivity). discriminate. }
  assert (r4 = yq) by congruence. subst r4.
  now apply floor_represents.
Qed.

(** [percentage_binary64] at the heights of the specification's scenario
    and at the heights where the selector is one point too low. *)
Lemma percentage_binary64_witness :
  Binary64.percentage 1000 500 300 = Binary64.embedded 1000 500 300
  /\ Binary64.percentage 50 57 0 = Binary64.embedded 50 57 0.
Proof.
  split.
  - apply (percentage_binary64 1000 500 300); first [split; reflexivity | split; discriminate | lia].
  - apply (percentage_binary64 50 57 0); first [split; reflexivity | split; discriminate | lia].
Defined.

End Binary64Facts.

(** ** The reducer and the thunk *)

Module LndFacts.
Import JS Lnd.

Lemma handlers_lookup_handled (t : string) :
  t ∈ handled_types -> is_Some (ACTION_HANDLERS !! t).
Proof.
  unfold handled_types. rewrite !elem_of_cons, elem_of_nil.
  intros H. repeat destruct H as [-> | H]; try (vm_compute; eauto); destruct H.
Qed.

Lemma handlers_lookup_unhandled (t : string) :
  t ∉ handled_types -> ACTION_HANDLERS !! t = None.
Proof.
  intros H. unfold ACTION_HANDLERS. apply not_elem_of_list_to_map_1. exact H.
Qed.

Lemma prototype_lookup_other (t : string) :
  t ∉ inherited_names -> Object_prototype !! t = None.
Proof.
  intros H. unfold Object_prototype. apply not_elem_of_list_to_map_1. exact H.
Qed.

(** The handler found for each type, one equation per entry of the
    object literal. *)
Lemma handler_cases (s : state) (a : action) :
  act_type a ∈ handled_types ->
  lndReducer (Some s) a =
    Next
      (if bool_decide (act_type a = SET_SYNC_STATUS_PENDING) then with_syncStatus "pending" s
       else if bool_decide (act_type a = SET_SYNC_STATUS_WAITING) then with_syncStatus "waiting" s
       else if bool_decide (act_type a = SET_SYNC_STATUS_IN_PROGRESS) then with_syncStatus "in-progress" s
       else if bool_decide (act_type a = SET_SYNC_STATUS_COMPLETE) then with_syncStatus "complete" s
       else if bool_decide (act_type a = RECEIVE_CURRENT_BLOCK_HEIGHT) then with_blockHeight (act_blockHeight a) s
       else if bool_decide (act_type a = RECEIVE_LND_BLOCK_HEIGHT) then with_lndBlockHeight (act_lndBlockHeight a) s
       else if bool_decide (act_type a = RECEIVE_LND_CFILTER_HEIGHT) then with_lndCfilterHeight (act_lndCfilterHeight a) s
       else with_lightningGrpcActive true s).
Proof.
  unfold handled_types. rewrite !elem_of_cons, elem_of_nil. unfold lndReducer.
  intros H. repeat destruct H as [-> | H]; try reflexivity; destruct H.
Qed.

(** A type that is neither handled nor inherited finds no handler. *)
Lemma lndReducer_unhandled (s : state) (a : action) :
  act_type a ∉ handled_types -> act_type a ∉ inherited_names ->
  lndReducer (Some s) a = Next s.
Proof.
  intros H1 H2. unfold lndReducer.
  now rewrite (handlers_lookup_unhandled _ H1), (prototype_lookup_other _ H2).
Qed.

(** A handled action gives a next state, which differs from the state in
    the action's own field at most. *)
Lemma lndReducer_handled_frame (s : state) (a : action) :
  act_type a ∈ handled_types ->
  exists s', lndReducer (Some s) a = Next s'
             /\ forall f : field, own_field (act_type a) <> Some f -> get f s' = get f s.
Proof.
  intros Hin. rewrite (handler_cases s a Hin). eexists. split; [reflexivity |].
  intros f. unfold own_field.
  unfold handled_types in Hin. rewrite !elem_of_cons, elem_of_nil in Hin.
  repeat destruct Hin as [-> | Hin]; try destruct Hin;
    vm_compute; destruct f; intros Hf; try reflexivity; now destruct Hf.
Qed.

(** C8.  The reducer finds its handler with [ACTION_HANDLERS[action.type]],
    and that lookup also finds what the object literal inherits from
    [Object.prototype].  An action of type [toString] is none of the eight
    handled ones, and for it the reducer does not return the state: it
    calls the inherited [toString] and returns the string
    [[object Undefined]]; for [valueOf], [hasOwnProperty] and [__proto__] it
    throws a [TypeError].  For every other type the claim holds: a type
    that is neither handled nor inherited leaves the state as it is, and a
    handled action changes no field but its own: a node-block-height
    action, for one, changes [lndBlockHeight] only. *)
Theorem lndReducer_inherited_gap (s : state) :
  ("toString" ∉ handled_types)
  /\ lndReducer (Some s) (plain "toString") = NotAState "[object Undefined]"
  /\ lndReducer (Some s) (plain "valueOf") = TypeError
  /\ lndReducer (Some s) (plain "hasOwnProperty") = TypeError
  /\ lndReducer (Some s) (plain "__proto__") = TypeError
  /\ (forall a : action,
        act_type a ∉ handled_types -> act_type a ∉ inherited_names ->
        lndReducer (Some s) a = Next s)
  /\ (forall a : action,
        act_type a ∈ handled_types ->
        exists s', lndReducer (Some s) a = Next s'
                   /\ forall f : field,
                        own_field (act_type a) <> Some f -> get f s' = get f s)
  /\ (forall a : action,
        act_type a = RECEIVE_LND_BLOCK_HEIGHT ->
        exists s', lndReducer (Some s) a = Next s'
                   /\ lndBlockHeight s' = act_lndBlockHeight a
                   /\ syncStatus s' = syncStatus s
                   /\ blockHeight s' = blockHeight s
                   /\ lndCfilterHeight s' = lndCfilterHeight s
                   /\ lightningGrpcActive s' = lightningGrpcActive s).
Proof.
  split; [| split; [| split; [| split; [| split; [| split; [| split]]]]]].
  - unfold handled_types. rewrite !not_elem_of_cons. repeat split; try discriminate.
    apply not_elem_of_nil.
  - reflexivity.
  - reflexivity.
  - reflexivity.
  - reflexivity.
  - intros a. apply lndReducer_unhandled.
  - intros a. apply lndReducer_handled_frame.
  - intros a Ht. unfold lndReducer. rewrite Ht. eexists. split; [reflexivity |].
    vm_compute. auto.
Qed.

(** The reducer at an action of redux itself, at a height received
    without a state, and at the inherited [constructor], which hands the
    state back. *)
Lemma lndReducer_examples :
  lndReducer (Some initialState) (plain "@@redux/INIT") = Next initialState
  /\ lndReducer None (Action RECEIVE_LND_BLOCK_HEIGHT Undefined (Number (Fin 7)) Undefined)
     = Next (State "pending" false (Number (Fin 0)) (Number (Fin 7)) (Number (Fin 0)))
  /\ lndReducer (Some initialState) (plain "constructor") = Next initialState.
Proof. repeat split; reflexivity. Qed.

(** The store write made before the [switch], whatever the status. *)
Lemma lndSyncStatus_wallet (status : string) (w : world) :
  wallet (lndSyncStatus status w) =
    if truthy (identity_pubkey (app w))
    then <[hasSynced_key (default "" (identity_pubkey (app w))) := true]> (wallet w)
    else wallet w.
Proof.
  unfold lndSyncStatus, getState.
  destruct (truthy (identity_pubkey (app w)));
    repeat match goal with |- context [if ?b then _ else _] => destruct b end;
    reflexivity.
Qed.

Lemma lndSyncStatus_default (status : string) (w : world) :
  status ∉ ["waiting"; "in-progress"; "complete"] ->
  syncStatus (lnd (app (lndSyncStatus status w))) = "pending".
Proof.
  rewrite !not_elem_of_cons. intros (H1 & H2 & H3 & _).
  apply String.eqb_neq in H1, H2, H3.
  unfold lndSyncStatus. rewrite H1, H2, H3.
  destruct (truthy _); reflexivity.
Qed.

(** C9.  Whenever the identity pubkey is known, the thunk writes
    [hasSynced = true] under that key to the wallet store, for every
    status ([waiting] and [in-progress] as well as [complete]); and a status
    other than those three sets the sync status to [pending]. *)
Theorem lndSyncStatus_persists_hasSynced (status pubKey : string) (w : world) :
  identity_pubkey (app w) = Some pubKey ->
  pubKey <> "" ->
  wallet (lndSyncStatus status w) !! hasSynced_key pubKey = Some true
  /\ StoreSet "wallet" (hasSynced_key pubKey) true ∈ effects (lndSyncStatus status w)
  /\ (status ∉ ["waiting"; "in-progress"; "complete"] ->
      syncStatus (lnd (app (lndSyncStatus status w))) = "pending").
Proof.
  intros Hpk Hne. apply String.eqb_neq in Hne.
  split; [| split].
  - rewrite lndSyncStatus_wallet, Hpk. simpl. rewrite Hne. simpl.
    apply lookup_insert_eq.
  - unfold lndSyncStatus, getState. rewrite Hpk. simpl. rewrite Hne. simpl.
    repeat match goal with |- context [if ?b then _ else _] => destruct b end;
      simpl; set_solver.
  - apply lndSyncStatus_default.
Qed.

(** [lndSyncStatus_persists_hasSynced] at a [waiting] event and at an
    unknown status. *)
Lemma lndSyncStatus_persists_hasSynced_witness :
  let w := World (Root initialState (Some "02ab")) ∅ [] in
  wallet (lndSyncStatus "waiting" w) !! hasSynced_key "02ab" = Some true
  /\ syncStatus (lnd (app (lndSyncStatus "waiting" w))) = "waiting"
  /\ syncStatus (lnd (app (lndSyncStatus "stalled" (dispatch (plain SET_SYNC_STATUS_COMPLETE) w)))) = "pending".
Proof.
  intros w.
  pose proof (lndSyncStatus_persists_hasSynced "waiting" "02ab" w eq_refl ltac:(discriminate)) as [H _].
  pose proof (lndSyncStatus_persists_hasSynced "stalled" "02ab"
                (dispatch (plain SET_SYNC_STATUS_COMPLETE) w) eq_refl ltac:(discriminate))
    as (_ & _ & H3).
  split; [exact H | split; [reflexivity |]].
  apply H3. rewrite !not_elem_of_cons. repeat split; try discriminate. apply not_elem_of_nil.
Defined.

End LndFacts.

(** ** [openExternal] *)

Module PreloadFacts.
Import Preload.

Lemma includes_elem_of (l : list string) (s : string) :
  includes l s = true <-> s ∈ l.
Proof.
  unfold includes. rewrite existsb_exists. split.
  - intros (x & Hx & Heq). apply String.eqb_eq in Heq. subst x.
    now apply list_elem_of_In.
  - intros H. exists s. split; [now apply list_elem_of_In | apply String.eqb_refl].
Qed.

(** C10.  [openExternal] opens a page only for a URL whose hostname is on
    the whitelist, and then it opens that URL; with no hostname, or one that
    is not on the list, it does nothing. *)
Theorem openExternal_whitelist (hostname : string -> option string) (urlString : string) :
  (forall e : effect,
      e ∈ openExternal hostname urlString ->
      e = ShellOpenExternal urlString
      /\ exists h, hostname urlString = Some h /\ h <> "" /\ h ∈ WHITELISTED_DOMAINS)
  /\ (forall h, hostname urlString = Some h -> h <> "" -> h ∈ WHITELISTED_DOMAINS ->
             openExternal hostname urlString = [ShellOpenExternal urlString])
  /\ ((forall h, hostname urlString = Some h -> h = "" \/ h ∉ WHITELISTED_DOMAINS) ->
      openExternal hostname urlString = []).
Proof.
  unfold openExternal. split; [| split].
  - intros e. destruct (hostname urlString) as [h |]; [| now rewrite elem_of_nil].
    destruct (String.eqb_spec h ""); [now rewrite elem_of_nil |].
    destruct (includes WHITELISTED_DOMAINS h) eqn:Hinc; [| now rewrite elem_of_nil].
    rewrite list_elem_of_singleton. intros ->. split; [reflexivity |].
    exists h. repeat split; [assumption |]. now apply includes_elem_of.
  - intros h -> Hne Hin. apply String.eqb_neq in Hne. rewrite Hne.
    apply includes_elem_of in Hin. now rewrite Hin.
  - intros H. destruct (hostname urlString) as [h |]; [| reflexivity].
    destruct (String.eqb_spec h ""); [reflexivity |].
    destruct (includes WHITELISTED_DOMAINS h) eqn:Hinc; [| reflexivity].
    apply includes_elem_of in Hinc. destruct (H h eq_refl); contradiction.
Qed.

(** With a parser that finds the host of the two built-in pages, both are
    opened; a page of another host is not. *)
Lemma openExternal_examples :
  let hostname (u : string) :=
    if String.prefix "https://ln-zap.github.io/" u then Some "ln-zap.github.io"
    else if String.prefix "https://coinfaucet.eu/" u then Some "coinfaucet.eu"
    else if String.prefix "https://example.org/" u then Some "example.org"
    else None in
  openHelpPage hostname
    = [ShellOpenExternal "https://ln-zap.github.io/zap-tutorials/zap-desktop-getting-started"]
  /\ openTestnetFaucet hostname = [ShellOpenExternal "https://coinfaucet.eu/en/btc-testnet/"]
  /\ openExternal hostname "https://example.org/x" = []
  /\ openExternal hostname "not a url" = [].
Proof. repeat split; reflexivity. Qed.

End PreloadFacts.

(** ** The [WalletUnlocker] connector *)

Module WalletUnlockerFacts.
Import Err WalletUnlocker.

Lemma seek_connect (st : string) :
  StateMachine.seek fsm st "connect" = if String.eqb st "ready" then Some "connected" else None.
Proof.
  unfold StateMachine.seek, fsm, StateMachine.build, transitions.
  cbn [foldl StateMachine.t_from StateMachine.t_name StateMachine.t_to].
  destruct (String.eqb_spec st "ready") as [-> | Hne]; [reflexivity |].
  rewrite !lookup_insert_ne by congruence. reflexivity.
Qed.

Lemma seek_disconnect (st : string) :
  StateMachine.seek fsm st "disconnect" = if String.eqb st "connected" then Some "ready" else None.
Proof.
  unfold StateMachine.seek, fsm, StateMachine.build, transitions.
  cbn [foldl StateMachine.t_from StateMachine.t_name StateMachine.t_to].
  destruct (String.eqb_spec st "connected") as [-> | Hne]; [reflexivity |].
  rewrite !lookup_insert_ne by congruence. reflexivity.
Qed.

Lemma onBeforeConnect_keeps_fsm (getDeadline : nat -> nat) (a : answers) (u : t) :
  state (snd (fst (onBeforeConnect getDeadline a u))) = state u
  /\ pending (snd (fst (onBeforeConnect getDeadline a u))) = pending u.
Proof.
  unfold onBeforeConnect.
  destruct (validateHost_err a), (loadSync_err a), (credentials_err a), (waitForReady_err a);
    simpl; auto.
Qed.

Lemma connect_cases (u : t) :
  (state u = "ready" /\ pending u = false /\ connect u = (inr tt, set_fsm "ready" true u))
  \/ (exists f, connect u = (inl f, u)
                /\ (f = StateMachine.InvalidTransition "connect" (state u)
                    \/ f = StateMachine.PendingTransition "connect" (state u))).
Proof.
  unfold connect, StateMachine.check. rewrite seek_connect.
  destruct (String.eqb_spec (state u) "ready") as [Hst | Hst].
  - destruct (pending u) eqn:Hp.
    + right. eexists. split; [reflexivity | auto].
    + left. rewrite Hst. auto.
  - right. eexists. split; [reflexivity | auto].
Qed.

Lemma connect_settles_cases (getDeadline : nat -> nat) (a : answers) (u : t) :
  let r := connect_settles getDeadline a u in
  (state u = "ready" /\ pending u = true
   /\ ((fst (fst (onBeforeConnect getDeadline a u)) = Resolved tt
        /\ fst (fst r) = inr tt
        /\ state (snd (fst r)) = "connected" /\ pending (snd (fst r)) = false)
       \/ (exists e, fst (fst (onBeforeConnect getDeadline a u)) = Rejected e
                     /\ fst (fst r) = inl (StateMachine.HookRejected e)
                     /\ state (snd (fst r)) = "ready" /\ pending (snd (fst r)) = false)))
  \/ ((state u <> "ready" \/ pending u = false) /\ r = (inr tt, u, [])).
Proof.
  unfold connect_settles. rewrite seek_connect.
  destruct (pending u) eqn:Hp; [| right; auto].
  destruct (String.eqb_spec (state u) "ready") as [Hst | Hst]; [| right; auto].
  left. split; [assumption | split; [reflexivity |]].
  pose proof (onBeforeConnect_keeps_fsm getDeadline a u) as [Hs Hp'].
  destruct (onBeforeConnect getDeadline a u) as [[[[] | e] u'] tr]; simpl in *.
  - left. auto.
  - right. exists e. auto.
Qed.

Lemma disconnect_cases (u : t) :
  let r := disconnect u in
  (state u = "connected" /\ pending u = false
   /\ fst (fst r) = inr tt /\ state (snd (fst r)) = "ready" /\ pending (snd (fst r)) = false)
  \/ (exists f, r = (inl f, u, [])
                /\ (f = StateMachine.InvalidTransition "disconnect" (state u)
                    \/ f = StateMachine.PendingTransition "disconnect" (state u))).
Proof.
  unfold disconnect, StateMachine.check. rewrite seek_disconnect.
  destruct (String.eqb_spec (state u) "connected") as [Hst | Hst].
  - destruct (pending u) eqn:Hp.
    + right. eexists. split; [reflexivity | auto].
    + left. unfold onBeforeDisconnect. destruct (service _); simpl; auto.
  - right. eexists. split; [reflexivity | auto].
Qed.

Lemma step_well_formed (getDeadline : nat -> nat) (c : call) (u : t) :
  well_formed u -> well_formed (snd (fst (step getDeadline c u))).
Proof.
  intros Hwf. unfold well_formed. destruct c as [| a | | st]; simpl.
  - destruct (connect_cases u) as [(_ & _ & ->) | (f & -> & _)]; simpl; auto.
  - destruct (connect_settles_cases getDeadline a u)
      as [(_ & _ & [(_ & _ & Hs & Hp) | (e & _ & _ & Hs & _)]) | (_ & ->)]; simpl; auto.
  - destruct (disconnect_cases u) as [(_ & _ & _ & Hs & _) | (f & -> & _)]; simpl; auto.
  - exact Hwf.
Qed.

Lemma run_well_formed (getDeadline : nat -> nat) (cs : list call) (u : t) :
  well_formed u -> well_formed (run getDeadline cs u).
Proof.
  revert u. induction cs as [| c cs IH]; intros u Hwf; simpl; [exact Hwf |].
  apply IH. now apply step_well_formed.
Qed.

Lemma phase_of_ready (u : t) (p : bool) :
  state u = "ready" -> pending u = p ->
  ConnectorSpec.phase_of u = Some (if p then ConnectorSpec.connecting else ConnectorSpec.idle).
Proof. intros Hs Hp. unfold ConnectorSpec.phase_of. now rewrite Hs, Hp. Qed.

Lemma phase_of_connected (u : t) :
  state u = "connected" -> pending u = false ->
  ConnectorSpec.phase_of u = Some ConnectorSpec.ready.
Proof. intros Hs Hp. unfold ConnectorSpec.phase_of. now rewrite Hs, Hp. Qed.

(** C4.  Read through [phase_of], an instance is at all times in one of
    the phases of the specification (never in [disconnecting]: that hook
    returns at once), and whatever happens to it either leaves it as it was
    or is one of the specification's moves: [connect()] takes [idle] to
    [connecting], the hook's promise resolving takes [connecting] to
    [ready], its rejecting takes [connecting] back to [idle] with the
    hook's error as the result, and [disconnect()] takes [ready] to [idle].
    An assignment to [state] is refused and changes nothing. *)
Theorem connector_refines_spec (getDeadline : nat -> nat) (cfg : LndConfig)
        (cs : list call) (c : call) :
  let u := run getDeadline cs (new cfg) in
  let r := step getDeadline c u in
  let u' := snd (fst r) in
  exists p p',
    ConnectorSpec.phase_of u = Some p
    /\ ConnectorSpec.phase_of u' = Some p'
    /\ p <> ConnectorSpec.disconnecting
    /\ ((u' = u /\ forall st, c = AssignState st -> fst (fst r) = inl StateMachine.StateAssignment)
        \/ (c = CallConnect /\ fst (fst r) = inr tt
            /\ ConnectorSpec.next p ConnectorSpec.m_connect = Some p')
        \/ (exists a, c = HookSettles a /\ fst (fst r) = inr tt
                      /\ ConnectorSpec.next p ConnectorSpec.m_ready = Some p')
        \/ (exists a e, c = HookSettles a
                        /\ fst (fst r) = inl (StateMachine.HookRejected e)
                        /\ ConnectorSpec.next p (ConnectorSpec.m_fail e) = Some p')
        \/ (c = CallDisconnect /\ fst (fst r) = inr tt
            /\ ConnectorSpec.next p ConnectorSpec.m_disconnect = Some p')).
Proof.
  intros u r u'.
  assert (Hwf : well_formed u) by (apply run_well_formed; left; reflexivity).
  assert (Hp : exists p, ConnectorSpec.phase_of u = Some p /\ p <> ConnectorSpec.disconnecting).
  { destruct Hwf as [Hs | [Hs Hp]].
    - eexists. split; [apply (phase_of_ready u (pending u) Hs eq_refl) |].
      destruct (pending u); discriminate.
    - eexists. split; [apply (phase_of_connected u Hs Hp) | discriminate]. }
  destruct Hp as (p & Hp & Hnd).
  subst r u'. destruct c as [| a | | st]; simpl.
  - destruct (connect_cases u) as [(Hs & Hpe & ->) | (f & -> & _)]; simpl.
    + exists p, ConnectorSpec.connecting. pose proof (phase_of_ready u false Hs Hpe) as Hq. rewrite Hq in Hp.
      injection Hp as <-.
      split; [exact Hq | split; [reflexivity | split; [discriminate |]]].
      right. left. auto.
    + exists p, p. split; [assumption | split; [assumption | split; [assumption |]]].
      left. split; [reflexivity | discriminate].
  - destruct (connect_settles_cases getDeadline a u)
      as [(Hs & Hpe & [(_ & Hr & Hs' & Hp') | (e & _ & Hr & Hs' & Hp')]) | (_ & Heq)].
    + exists p, ConnectorSpec.ready. pose proof (phase_of_ready u true Hs Hpe) as Hq. rewrite Hq in Hp.
      injection Hp as <-.
      split; [exact Hq | split; [apply (phase_of_connected _ Hs' Hp') | split; [discriminate |]]].
      right. right. left. exists a. auto.
    + exists p, ConnectorSpec.idle. pose proof (phase_of_ready u true Hs Hpe) as Hq. rewrite Hq in Hp.
      injection Hp as <-.
      split; [exact Hq | split; [apply (phase_of_ready _ false Hs' Hp') | split; [discriminate |]]].
      right. right. right. left. exists a, e. auto.
    + rewrite Heq. simpl. exists p, p.
      split; [assumption | split; [assumption | split; [assumption |]]].
      left. split; [reflexivity | discriminate].
  - destruct (disconnect_cases u) as [(Hs & Hpe & Hr & Hs' & Hp') | (f & Heq & _)].
    + exists p, ConnectorSpec.idle. pose proof (phase_of_connected u Hs Hpe) as Hq. rewrite Hq in Hp.
      injection Hp as <-.
      split; [exact Hq | split; [apply (phase_of_ready _ false Hs' Hp') | split; [discriminate |]]].
      right. right. right. right. auto.
    + rewrite Heq. simpl. exists p, p.
      split; [assumption | split; [assumption | split; [assumption |]]].
      left. split; [reflexivity | discriminate].
  - exists p, p. split; [assumption | split; [assumption | split; [assumption |]]].
    left. split; [reflexivity | intros st' _; reflexivity].
Qed.

(** One round trip of a new instance through the three phases. *)
Lemma connector_round_trip :
  let cfg := Config "rpc.proto" "localhost:10009" "tls.cert" "admin.macaroon" in
  let ok := Answers None None None None true None in
  let run := run (fun s => s) in
  ConnectorSpec.phase_of (new cfg) = Some ConnectorSpec.idle
  /\ ConnectorSpec.phase_of (run [CallConnect] (new cfg)) = Some ConnectorSpec.connecting
  /\ ConnectorSpec.phase_of (run [CallConnect; HookSettles ok] (new cfg)) = Some ConnectorSpec.ready
  /\ ConnectorSpec.phase_of (run [CallConnect; HookSettles ok; CallDisconnect] (new cfg))
     = Some ConnectorSpec.idle
  /\ fst (fst (step (fun s => s) CallConnect (run [CallConnect] (new cfg))))
     = inl (StateMachine.PendingTransition "connect" "ready").
Proof. repeat split; reflexivity. Qed.

(** C5, against the claim as stated: [disconnect()] on a new instance,
    which is not connected, throws; and so does a second [disconnect()]
    after a first one that succeeded. *)
Lemma disconnect_idle_counterexample :
  let cfg := Config "rpc.proto" "localhost:10009" "tls.cert" "admin.macaroon" in
  let ok := Answers None None None None true None in
  let connected := snd (fst (connect_await (fun s => s) ok (new cfg))) in
  ConnectorSpec.phase_of (new cfg) = Some ConnectorSpec.idle
  /\ fst (fst (disconnect (new cfg))) = inl (StateMachine.InvalidTransition "disconnect" "ready")
  /\ fst (fst (disconnect connected)) = inr tt
  /\ fst (fst (disconnect (snd (fst (disconnect connected)))))
     = inl (StateMachine.InvalidTransition "disconnect" "ready").
Proof. repeat split; reflexivity. Qed.

(** C5, amended.  [disconnect()] on a connected instance closes the channel
    if there is one and leaves the instance not connected; on an instance
    that is not connected it is refused as an invalid transition, closes
    nothing and changes nothing, and [can('disconnect')] is false there. *)
Theorem disconnect_spec (u : t) :
  (state u = "connected" -> pending u = false ->
   exists u',
     disconnect u
       = (inr tt, u',
          Log "Disconnecting from WalletUnlocker gRPC service"
            :: match service u with Some _ => [Close] | None => [] end)
     /\ state u' = "ready" /\ pending u' = false
     /\ service u' = (fun c => Client (client_host c) true) <$> service u)
  /\ (state u = "ready" ->
      disconnect u = (inl (StateMachine.InvalidTransition "disconnect" "ready"), u, [])
      /\ can "disconnect" u = false).
Proof.
  split.
  - intros Hs Hp. unfold disconnect, StateMachine.check. rewrite seek_disconnect, Hs, Hp.
    simpl. unfold onBeforeDisconnect. simpl.
    destruct (service u) eqn:Hsv; simpl; eexists; repeat split; simpl; try reflexivity.
    exact Hsv.
  - intros Hs. unfold disconnect, can, StateMachine.can, StateMachine.check.
    rewrite seek_disconnect, Hs. simpl. split; [reflexivity |].
    rewrite andb_false_iff. right. reflexivity.
Qed.

Lemma credentials_err_none (a : answers) :
  credentials_err a = None <-> createSslCreds_err a = None /\ createMacaroonCreds_err a = None.
Proof.
  unfold credentials_err.
  destruct (createSslCreds_err a), (createMacaroonCreds_err a), (ssl_settles_first a);
    split; try intros [? ?]; try discriminate; auto.
Qed.

Ltac answer_cases a :=
  destruct (validateHost_err a) eqn:?, (loadSync_err a) eqn:?,
           (credentials_err a) eqn:?, (waitForReady_err a) eqn:?; simpl.

Ltac absurd_member H :=
  solve [exfalso; rewrite ?elem_of_cons, elem_of_nil in H;
         decompose [or] H; try discriminate; try contradiction].

(** C6.  [onBeforeConnect] does its steps in one fixed order: the host is
    validated first, the proto file is loaded, the TLS and macaroon
    credentials are built, the channel is opened, and the call waits for
    it to be ready until the deadline two seconds ahead.  A step that fails
    ends the attempt with that step's error and none of the later steps
    is made.  When the wait fails, the channel is closed and [connect()]
    rejects with the error of the wait, the instance staying not
    connected. *)
Theorem onBeforeConnect_sequence (getDeadline : nat -> nat) (a : answers) (u : t) :
  let cfg := lndConfig u in
  let r := onBeforeConnect getDeadline a u in
  let tr := snd r in
  tr `prefix_of` connect_sequence (getDeadline 2) cfg
  /\ (exists rest, tr = Log "Connecting to WalletUnlocker gRPC service"
                          :: ValidateHost (host cfg) :: rest)
  /\ (forall e, validateHost_err a = Some e ->
                 fst (fst r) = Rejected e /\ tr = take 2 (connect_sequence (getDeadline 2) cfg))
  /\ (CreateSslCreds (cert cfg) ∈ tr ->
       validateHost_err a = None /\ loadSync_err a = None)
  /\ (NewClient (host cfg) ∈ tr ->
       validateHost_err a = None /\ loadSync_err a = None
       /\ createSslCreds_err a = None /\ createMacaroonCreds_err a = None)
  /\ (validateHost_err a = None -> loadSync_err a = None -> credentials_err a = None ->
       match waitForReady_err a with
       | None =>
           fst (fst r) = Resolved tt
           /\ tr = take 9 (connect_sequence (getDeadline 2) cfg)
           /\ service (snd (fst r)) = Some (Client (host cfg) false)
       | Some e =>
           fst (fst r) = Rejected e
           /\ tr = connect_sequence (getDeadline 2) cfg
           /\ service (snd (fst r)) = Some (Client (host cfg) true)
           /\ (state u = "ready" -> pending u = false ->
                fst (fst (connect_await getDeadline a u)) = inl (StateMachine.HookRejected e)
                /\ state (snd (fst (connect_await getDeadline a u))) = "ready")
       end).
Proof.
  intros cfg r tr. subst r tr cfg.
  split; [| split; [| split; [| split; [| split]]]].
  - unfold onBeforeConnect, connect_sequence. answer_cases a; eexists; reflexivity.
  - unfold onBeforeConnect. answer_cases a; eexists; reflexivity.
  - intros e He. unfold onBeforeConnect. rewrite He. auto.
  - unfold onBeforeConnect. answer_cases a; intros Hin; auto; absurd_member Hin.
  - unfold onBeforeConnect. answer_cases a; intros Hin; try absurd_member Hin.
    all: match goal with H : credentials_err _ = None |- _ =>
           apply credentials_err_none in H; destruct H end; auto.
  - intros H1 H2 H3. unfold onBeforeConnect. rewrite H1, H2, H3.
    destruct (waitForReady_err a) as [e |] eqn:H5; simpl; [| auto].
    split; [reflexivity | split; [reflexivity | split; [reflexivity |]]].
    intros Hs Hp. unfold connect_await, connect, StateMachine.check.
    rewrite seek_connect, Hs, Hp. simpl. unfold connect_settles. simpl.
    rewrite seek_connect. simpl. unfold onBeforeConnect. rewrite H1, H2, H3, H5.
    simpl. auto.
Qed.

End WalletUnlockerFacts.

(** ** The controller *)

Module ZapControllerFacts.
Import Err ZapController.







Local Open Scope N_scope.

(** *** [shutdownNeutrino] *)

Lemma fire_due_inv (start now : N) (s : shutdown) :
  graceful_inv start s -> graceful_inv start (fire_due now s).
Proof.
  intros (Hn & Ht & Hr). unfold fire_due.
  destruct (timer s) as [at_ |] eqn:Htm; [| unfold graceful_inv; rewrite Htm; auto].
  destruct (at_ <? now) eqn:Hlt; [| unfold graceful_inv; rewrite Htm; auto].
  destruct Ht as [[= ->] | Ht]; [| discriminate].
  unfold on_timeout, graceful_inv. rewrite Hn. simpl.
  split; [reflexivity | split; [auto |]].
  destruct (result s); simpl; [lia | assumption | assumption].
Qed.

Lemma fire_due_not_late (start now : N) (s : shutdown) :
  graceful_inv start s -> result (fire_due now s) = Pending -> now <= start + grace_ms.
Proof.
  intros (Hn & Ht & Hr). unfold fire_due.
  destruct (timer s) as [at_ |] eqn:Htm.
  - destruct Ht as [[= ->] | Ht]; [| discriminate].
    destruct (start + grace_ms <? now) eqn:Hlt.
    + unfold on_timeout. rewrite Hn. simpl. destruct (result s); discriminate.
    + intros _. apply N.ltb_ge in Hlt. exact Hlt.
  - intros Hp. rewrite Hp in Hr. discriminate.
Qed.

Lemma handle_inv (start now : N) (ev : event) (s : shutdown) :
  start <= now ->
  graceful_inv start s ->
  (result s = Pending -> now <= start + grace_ms) ->
  graceful_inv start (handle now ev s).
Proof.
  intros Hle (Hn & Ht & Hr) Hlate. unfold handle, graceful_inv.
  destruct ev.
  - destruct (closeListener s); [| now repeat split]. simpl.
    split; [assumption | split; [auto |]].
    destruct (result s); simpl; [split; auto | assumption | assumption].
  - simpl. auto.
  - rewrite Hn. simpl. split; [reflexivity | split; [assumption |]].
    destruct (result s); simpl; [split; auto | assumption | assumption].
Qed.

Lemma deliver_inv (start : N) (evs : list (N * event)) :
  forall (clock : N) (s : shutdown),
    start <= clock -> graceful_inv start s -> graceful_inv start (deliver clock evs s).
Proof.
  induction evs as [| [delay ev] evs IH]; intros clock s Hle Hinv; simpl; [assumption |].
  apply IH; [lia |].
  apply handle_inv; [lia | now apply fire_due_inv |].
  now apply fire_due_not_late.
Qed.

(** A resolved promise stays as it is. *)
Lemma handle_resolved (now t : N) (ev : event) (s : shutdown) :
  result s = ResolvedAt t -> result (handle now ev s) = ResolvedAt t.
Proof.
  intros Hr. unfold handle. destruct ev.
  - destruct (closeListener s); simpl; [now rewrite Hr | assumption].
  - assumption.
  - destruct (has_neutrino s); simpl; [now rewrite Hr | assumption].
Qed.

Lemma on_timeout_resolved (now t : N) (s : shutdown) :
  result s = ResolvedAt t -> result (on_timeout now s) = ResolvedAt t.
Proof.
  intros Hr. unfold on_timeout. destruct (has_neutrino s); simpl; [now rewrite Hr | assumption].
Qed.

Lemma fire_due_resolved (now t : N) (s : shutdown) :
  result s = ResolvedAt t -> result (fire_due now s) = ResolvedAt t.
Proof.
  intros Hr. unfold fire_due. destruct (timer s); [| assumption].
  destruct (_ <? _); [now apply on_timeout_resolved | assumption].
Qed.

Lemma deliver_resolved (t : N) (evs : list (N * event)) :
  forall (clock : N) (s : shutdown),
    result s = ResolvedAt t -> result (deliver clock evs s) = ResolvedAt t.
Proof.
  induction evs as [| [delay ev] evs IH]; intros clock s Hr; simpl; [assumption |].
  apply IH. apply handle_resolved. now apply fire_due_resolved.
Qed.

Lemma finish_resolved (t : N) (s : shutdown) :
  result s = ResolvedAt t -> result (finish s) = ResolvedAt t.
Proof.
  intros Hr. unfold finish. destruct (timer s); [now apply on_timeout_resolved | assumption].
Qed.

(** Once the deadline has passed, the timer has fired or was cleared, and
    the promise is resolved. *)
Lemma fire_due_after_deadline (start now : N) (s : shutdown) :
  graceful_inv start s -> start + grace_ms < now ->
  exists t, result (fire_due now s) = ResolvedAt t /\ start <= t <= start + grace_ms.
Proof.
  intros Hinv Hlt.
  pose proof (fire_due_inv start now s Hinv) as (_ & _ & Hr).
  destruct (result (fire_due now s)) as [| t | t] eqn:Hres.
  - apply (fire_due_not_late start now s Hinv) in Hres. lia.
  - eauto.
  - destruct Hr.
Qed.

Lemma fire_due_twice (start now now' : N) (s : shutdown) :
  graceful_inv start s -> start + grace_ms < now -> start + grace_ms < now' ->
  fire_due now s = fire_due now' s.
Proof.
  intros (_ & Ht & _) H1 H2. unfold fire_due.
  destruct Ht as [-> | ->]; [| reflexivity].
  apply N.ltb_lt in H1, H2. now rewrite H1, H2.
Qed.

Lemma finish_fire_due (start now : N) (s : shutdown) :
  graceful_inv start s -> start + grace_ms < now -> finish s = fire_due now s.
Proof.
  intros (_ & Ht & _) H1. unfold finish, fire_due.
  destruct Ht as [-> | ->]; [| reflexivity].
  apply N.ltb_lt in H1. now rewrite H1.
Qed.

(** Delivering all the events goes through the state seen at [time]. *)
Lemma deliver_through (start time : N) (evs : list (N * event)) :
  forall (clock : N) (s : shutdown),
    start <= clock -> clock <= time -> start + grace_ms <= time ->
    graceful_inv start s ->
    exists t, result (observe clock time evs s) = ResolvedAt t
              /\ start <= t <= start + grace_ms
              /\ result (finish (deliver clock evs s)) = ResolvedAt t.
Proof.
  unfold observe.
  induction evs as [| [delay ev] evs IH]; intros clock s Hle Hct Hdl Hinv; simpl.
  - destruct (fire_due_after_deadline start (time + 1) s Hinv ltac:(lia)) as (t & Ht & Hb).
    exists t. rewrite (finish_fire_due start (time + 1) s Hinv ltac:(lia)). auto.
  - destruct (clock + delay <=? time) eqn:Hin.
    + apply N.leb_le in Hin. simpl. apply IH; [lia | lia | lia |].
      apply handle_inv; [lia | now apply fire_due_inv | now apply fire_due_not_late].
    + apply N.leb_gt in Hin. simpl.
      destruct (fire_due_after_deadline start (time + 1) s Hinv ltac:(lia)) as (t & Ht & Hb).
      exists t. split; [assumption | split; [assumption |]].
      apply finish_resolved, deliver_resolved, handle_resolved.
      rewrite <- (fire_due_twice start (time + 1) (clock + delay) s Hinv) by lia.
      assumption.
Qed.

(** While no [close] event has been handled and the deadline has not
    passed, the timer stays set. *)
Lemma deliver_timer_set (start time : N) (evs : list (N * event)) :
  forall (clock : N) (s : shutdown),
    time <= start + grace_ms ->
    timer s = Some (start + grace_ms) -> has_neutrino s = true ->
    forallb (fun de => negb (is_close (snd de))) (upto clock time evs) = true ->
    timer (deliver clock (upto clock time evs) s) = Some (start + grace_ms)
    /\ has_neutrino (deliver clock (upto clock time evs) s) = true.
Proof.
  induction evs as [| [delay ev] evs IH]; intros clock s Htime Htm Hn Hall; simpl; [auto |].
  simpl in Hall. destruct (clock + delay <=? time) eqn:Hin; [| simpl; auto].
  apply N.leb_le in Hin. simpl in Hall. apply andb_true_iff in Hall as [Hev Hall].
  simpl. apply IH; try assumption.
  - unfold fire_due. rewrite Htm.
    assert (Hnl : (start + grace_ms <? clock + delay) = false) by (apply N.ltb_ge; lia).
    rewrite Hnl. destruct ev; simpl; try assumption; [discriminate |].
    rewrite Hn. assumption.
  - unfold fire_due. rewrite Htm.
    assert (Hnl : (start + grace_ms <? clock + delay) = false) by (apply N.ltb_ge; lia).
    rewrite Hnl. destruct ev; simpl; try assumption; [discriminate |].
    rewrite Hn. reflexivity.
Qed.

(** C2, against the claim as stated: with a connection that is not local
    the call stops nothing, though a [Lightning] connection that could
    terminate and a process handle are there; and with a local connection
    but no process handle the promise is rejected before the stop request
    is made. *)
Lemma shutdownNeutrino_counterexample :
  let l := LightningInstance true true in
  let remote := Controller true custom (Some l) true "running" false in
  let no_handle := Controller true local (Some l) false "running" false in
  shutdownNeutrino remote 0 = Shutdown None false (ResolvedAt 0) [] true
  /\ result (shutdownNeutrino no_handle 0) = RejectedAt 0
  /\ forallb (fun a => match snd a with LightningTerminate | NeutrinoKill => false | _ => true end)
             (log (finish (shutdownNeutrino no_handle 0)))
     = true.
Proof. repeat split; reflexivity. Qed.

(** C2, amended.  With a local connection: when a [Lightning] connection
    that can terminate and the process handle are there, the stop request
    is made and a ten-second timer is set; whatever the events from
    outside, the promise is resolved at the deadline, it was resolved once,
    at a time between the call and the deadline, that stays the time it
    was resolved at whatever comes later, and the process is killed at the
    deadline if no [close] event came before.  When there is no such
    connection, the promise resolves at once, no timer is set, and the
    process is killed if its handle is there.  With a connection that is
    not local the call resolves at once and does nothing. *)
Theorem shutdownNeutrino_spec (c : t) (now : N) (evs : list (N * event)) :
  let s0 := shutdownNeutrino c now in
  let deadline := now + grace_ms in
  let graceful := match lightning c with Some l => can_terminate l | None => false end in
  (is_local (lndConfig_type c) = true -> graceful = true -> neutrino c = true ->
   (now, LightningTerminate) ∈ log s0
   /\ (now, SetTimeout grace_ms) ∈ log s0
   /\ timer s0 = Some deadline
   /\ result s0 = Pending
   /\ (exists t, result (observe now deadline evs s0) = ResolvedAt t
                  /\ now <= t <= deadline
                  /\ result (finish (deliver now evs s0)) = ResolvedAt t)
   /\ (forallb (fun de => negb (is_close (snd de))) (upto now deadline evs) = true ->
        (deadline, NeutrinoKill) ∈ log (observe now deadline evs s0)))
  /\ (is_local (lndConfig_type c) = true -> graceful = false ->
      result s0 = ResolvedAt now /\ timer s0 = None
      /\ log s0 = (if neutrino c then [(now, NeutrinoKill)] else []))
  /\ (is_local (lndConfig_type c) = false ->
      result s0 = ResolvedAt now /\ timer s0 = None /\ log s0 = []).
Proof.
  intros s0 deadline graceful. subst s0 deadline graceful. unfold shutdownNeutrino.
  split; [| split].
  - intros Hl Hg Hn. rewrite Hl, Hg, Hn. simpl negb. cbv iota.
    set (s0 := Shutdown _ _ _ _ _).
    assert (Hinv : graceful_inv now s0) by (unfold graceful_inv; simpl; auto).
    split; [subst s0; simpl; rewrite !elem_of_cons; auto 10 |].
    split; [subst s0; simpl; rewrite !elem_of_cons; auto 10 |].
    split; [reflexivity | split; [reflexivity | split]].
    + apply (deliver_through now (now + grace_ms) evs now s0); auto; lia.
    + intros Hall.
      destruct (deliver_timer_set now (now + grace_ms) evs now s0) as [Htm Hhn];
        [lia | reflexivity | reflexivity | assumption |].
      unfold observe, fire_due. rewrite Htm.
      assert (Hlt : (now + grace_ms <? now + grace_ms + 1) = true) by (apply N.ltb_lt; lia).
      rewrite Hlt. unfold on_timeout. rewrite Hhn. simpl.
      rewrite elem_of_app, !elem_of_cons. auto 10.
  - intros Hl Hg. rewrite Hl, Hg. simpl. destruct (neutrino c); auto.
  - intros Hl. rewrite Hl. simpl. auto.
Qed.

(** Three runs of a graceful shutdown begun at time 0: the process closes
    after three seconds; nothing happens; the stop request fails after
    one second and the process never closes. *)
Lemma shutdownNeutrino_runs :
  let c := Controller true local (Some (LightningInstance true true)) true "running" false in
  let s0 := shutdownNeutrino c 0 in
  result (observe 0 10000 [(3000, ProcessClose)] s0) = ResolvedAt 3000
  /\ result (observe 0 10000 [] s0) = ResolvedAt 10000
  /\ result (observe 0 10000 [(1000, TerminateRejected)] s0) = ResolvedAt 1000
  /\ result (finish (deliver 0 [(1000, TerminateRejected); (20000, ProcessClose)] s0))
     = ResolvedAt 1000
  /\ filter (fun a => is_kill (snd a))
            (log (observe 0 10000 [(1000, TerminateRejected)] s0))
     = [(1000, NeutrinoKill); (10000, NeutrinoKill)].
Proof. repeat split; vm_compute; reflexivity. Qed.

End ZapControllerFacts.

(** ** The thunks and the reducer, over sequences *)

Module LndThunksFacts.
Import JS Lnd LndFacts LndThunks.

Lemma own_field_unhandled (t : string) : t ∉ handled_types -> own_field t = None.
Proof.
  unfold handled_types. rewrite !not_elem_of_cons. intros (H1 & H2 & H3 & H4 & H5 & H6 & H7 & H8 & _).
  unfold own_field. rewrite bool_decide_eq_false_2.
  - now rewrite !bool_decide_eq_false_2 by assumption.
  - rewrite !elem_of_cons, elem_of_nil. tauto.
Qed.

Lemma state_ext (s s' : state) : (forall f, get f s = get f s') -> s = s'.
Proof.
  intros H. destruct s, s'.
  pose proof (H FSyncStatus) as H1. pose proof (H FLightningGrpcActive) as H2.
  pose proof (H FBlockHeight) as H3. pose proof (H FLndBlockHeight) as H4.
  pose proof (H FLndCfilterHeight) as H5. simpl in *. congruence.
Qed.

(** Whether the reducer returns a state depends on the action's type
    only. *)
Lemma lndReducer_next (s s' : state) (a : action) (sa : state) :
  lndReducer (Some s) a = Next sa -> exists sa', lndReducer (Some s') a = Next sa'.
Proof.
  unfold lndReducer. destruct (ACTION_HANDLERS !! act_type a); [eauto |].
  destruct (Object_prototype !! act_type a) as [[] |]; try discriminate; eauto.
Qed.

(** A field that is not the action's own is left as it was. *)
Lemma lndReducer_other (s sa : state) (a : action) (f : field) :
  lndReducer (Some s) a = Next sa -> own_field (act_type a) <> Some f -> get f sa = get f s.
Proof.
  intros Hr Hf. destruct (decide (act_type a ∈ handled_types)) as [Hin | Hout].
  - destruct (lndReducer_handled_frame s a Hin) as (s' & Hs' & Hfr).
    assert (s' = sa) by congruence. subst s'. now apply Hfr.
  - unfold lndReducer in Hr. rewrite (handlers_lookup_unhandled _ Hout) in Hr.
    destruct (Object_prototype !! act_type a) as [[] |]; try discriminate;
      injection Hr as <-; reflexivity.
Qed.

(** What an action writes to its own field does not depend on the state. *)
Lemma lndReducer_own (s s' sa sa' : state) (a : action) (f : field) :
  lndReducer (Some s) a = Next sa -> lndReducer (Some s') a = Next sa' ->
  own_field (act_type a) = Some f -> get f sa = get f sa'.
Proof.
  intros Hr Hr' Hf. destruct (decide (act_type a ∈ handled_types)) as [Hin | Hout].
  - rewrite (handler_cases s a Hin) in Hr. rewrite (handler_cases s' a Hin) in Hr'.
    injection Hr as <-. injection Hr' as <-. revert Hf. unfold own_field.
    unfold handled_types in Hin. rewrite !elem_of_cons, elem_of_nil in Hin.
    destruct a as [t b l c]. simpl in *.
    repeat destruct Hin as [-> | Hin]; try destruct Hin;
      vm_compute; intros Hf; injection Hf as <-; reflexivity.
  - rewrite (own_field_unhandled _ Hout) in Hf. discriminate.
Qed.

(** X1.  Reducing the same action twice is reducing it once; two actions
    that write different fields can be reduced in either order; and of two
    actions that write the same field the second one wins. *)
Theorem lndReducer_algebra (s sa sb : state) (a b : action) :
  lndReducer (Some s) a = Next sa ->
  lndReducer (Some s) b = Next sb ->
  lndReducer (Some sa) a = Next sa
  /\ (own_field (act_type a) <> own_field (act_type b) ->
      lndReducer (Some sa) b = lndReducer (Some sb) a)
  /\ (own_field (act_type a) = own_field (act_type b) ->
      lndReducer (Some sa) b = Next sb).
Proof.
  intros Ha Hb.
  destruct (lndReducer_next s sa a sa Ha) as (saa & Haa).
  destruct (lndReducer_next s sa b sb Hb) as (sab & Hab).
  destruct (lndReducer_next s sb a sa Ha) as (sba & Hba).
  split; [| split].
  - rewrite Haa. f_equal. apply state_ext. intros f.
    destruct (decide (own_field (act_type a) = Some f)) as [Hf | Hf].
    + exact (lndReducer_own _ _ _ _ a f Haa Ha Hf).
    + exact (lndReducer_other _ _ a f Haa Hf).
  - intros Hne. rewrite Hab, Hba. f_equal. apply state_ext. intros f.
    destruct (decide (own_field (act_type a) = Some f)) as [Hfa | Hfa];
      destruct (decide (own_field (act_type b) = Some f)) as [Hfb | Hfb].
    + congruence.
    + rewrite (lndReducer_other _ _ b f Hab Hfb).
      exact (lndReducer_own _ _ _ _ a f Ha Hba Hfa).
    + rewrite (lndReducer_other _ _ a f Hba Hfa).
      exact (lndReducer_own _ _ _ _ b f Hab Hb Hfb).
    + rewrite (lndReducer_other _ _ b f Hab Hfb), (lndReducer_other _ _ a f Hba Hfa).
      rewrite (lndReducer_other _ _ a f Ha Hfa), (lndReducer_other _ _ b f Hb Hfb).
      reflexivity.
  - intros Heq. rewrite Hab. f_equal. apply state_ext. intros f.
    destruct (decide (own_field (act_type b) = Some f)) as [Hfb | Hfb].
    + exact (lndReducer_own _ _ _ _ b f Hab Hb Hfb).
    + rewrite (lndReducer_other _ _ b f Hab Hfb), (lndReducer_other _ _ b f Hb Hfb).
      apply (lndReducer_other _ _ a f Ha). congruence.
Qed.

(** [lndReducer_algebra] at a block height received twice and a sync
    status in between. *)
Lemma lndReducer_algebra_witness :
  let a := Action RECEIVE_CURRENT_BLOCK_HEIGHT (Number (Fin 7)) Undefined Undefined in
  let b := plain SET_SYNC_STATUS_WAITING in
  let sa := State "pending" false (Number (Fin 7)) (Number (Fin 0)) (Number (Fin 0)) in
  let sb := State "waiting" false (Number (Fin 0)) (Number (Fin 0)) (Number (Fin 0)) in
  lndReducer (Some sa) a = Next sa
  /\ lndReducer (Some sa) b = lndReducer (Some sb) a.
Proof.
  intros a b sa sb.
  destruct (lndReducer_algebra initialState sa sb a b eq_refl eq_refl) as (H1 & H2 & _).
  split; [exact H1 | apply H2; discriminate].
Defined.

Lemma last_carried_snoc {A : Type} (carried : message -> option A)
      (ms : list message) (m : message) (d : A) :
  last_carried carried (ms ++ [m]) d
  = match carried m with Some v => v | None => last_carried carried ms d end.
Proof.
  unfold last_carried. rewrite omap_app. simpl.
  destruct (carried m) as [v |]; simpl.
  - now rewrite last_snoc.
  - now rewrite app_nil_r.
Qed.

Lemma lndSyncStatus_status (status : string) (w : world) :
  syncStatus (lnd (app (lndSyncStatus status w)))
  = if bool_decide (status ∈ ["waiting"; "in-progress"; "complete"]) then status else "pending".
Proof.
  destruct (decide (status ∈ ["waiting"; "in-progress"; "complete"])) as [Hin | Hout].
  - rewrite bool_decide_eq_true_2 by assumption.
    rewrite !elem_of_cons, elem_of_nil in Hin.
    unfold lndSyncStatus. destruct Hin as [-> | [-> | [-> | []]]];
      destruct (truthy _); reflexivity.
  - rewrite bool_decide_eq_false_2 by assumption. now apply lndSyncStatus_default.
Qed.

(** What one thunk call does to the [lnd] slice, field by field. *)
Lemma receive_fields (m : message) (w : world) :
  let s := lnd (app w) in
  let s' := lnd (app (receive m w)) in
  syncStatus s' = default (syncStatus s) (carried_syncStatus m)
  /\ blockHeight s' = default (blockHeight s) (carried_blockHeight m)
  /\ Lnd.lndBlockHeight s' = default (Lnd.lndBlockHeight s) (carried_lndBlockHeight m)
  /\ Lnd.lndCfilterHeight s' = default (Lnd.lndCfilterHeight s) (carried_lndCfilterHeight m)
  /\ Lnd.lightningGrpcActive s' = Lnd.lightningGrpcActive s || is_grpcActive m
  /\ identity_pubkey (app (receive m w))
     = default (identity_pubkey (app w)) (carried_pubkey m).
Proof.
  destruct m as [status | | h | h | h | pubKey]; cbn [receive].
  - split; [apply lndSyncStatus_status |].
    unfold lndSyncStatus, getState. simpl.
    destruct (truthy _);
      repeat match goal with |- context [if ?b then _ else _] => destruct b end;
      simpl; rewrite ?orb_false_r; repeat split; reflexivity.
  - simpl. rewrite orb_true_r. repeat split; reflexivity.
  - simpl. rewrite orb_false_r. repeat split; reflexivity.
  - simpl. rewrite orb_false_r. repeat split; reflexivity.
  - simpl. rewrite orb_false_r. repeat split; reflexivity.
  - simpl. rewrite orb_false_r. repeat split; reflexivity.
Qed.

(** X2.  After any sequence of thunk calls every field of the [lnd] slice
    holds what the last call for that field carried, or what it held
    before when there was none; [lightningGrpcActive] is never reset; the
    thunks leave the identity pubkey to the [info] module; so the sync
    percentage is computed from the three heights received last. *)
Theorem receive_all_last_wins (ms : list message) (w : world) :
  let s := lnd (app w) in
  let w' := receive_all ms w in
  let s' := lnd (app w') in
  syncStatus s' = last_carried carried_syncStatus ms (syncStatus s)
  /\ blockHeight s' = last_carried carried_blockHeight ms (blockHeight s)
  /\ Lnd.lndBlockHeight s' = last_carried carried_lndBlockHeight ms (Lnd.lndBlockHeight s)
  /\ Lnd.lndCfilterHeight s' = last_carried carried_lndCfilterHeight ms (Lnd.lndCfilterHeight s)
  /\ Lnd.lightningGrpcActive s' = Lnd.lightningGrpcActive s || existsb is_grpcActive ms
  /\ identity_pubkey (app w') = last_carried carried_pubkey ms (identity_pubkey (app w))
  /\ syncPercentage (app w')
     = percentage_of (last_carried carried_blockHeight ms (blockHeight s))
                     (last_carried carried_lndBlockHeight ms (Lnd.lndBlockHeight s))
                     (last_carried carried_lndCfilterHeight ms (Lnd.lndCfilterHeight s)).
Proof.
  cbv zeta.
  assert (H : syncStatus (lnd (app (receive_all ms w)))
              = last_carried carried_syncStatus ms (syncStatus (lnd (app w)))
            /\ blockHeight (lnd (app (receive_all ms w)))
               = last_carried carried_blockHeight ms (blockHeight (lnd (app w)))
            /\ Lnd.lndBlockHeight (lnd (app (receive_all ms w)))
               = last_carried carried_lndBlockHeight ms (Lnd.lndBlockHeight (lnd (app w)))
            /\ Lnd.lndCfilterHeight (lnd (app (receive_all ms w)))
               = last_carried carried_lndCfilterHeight ms (Lnd.lndCfilterHeight (lnd (app w)))
            /\ Lnd.lightningGrpcActive (lnd (app (receive_all ms w)))
               = Lnd.lightningGrpcActive (lnd (app w)) || existsb is_grpcActive ms
            /\ identity_pubkey (app (receive_all ms w))
               = last_carried carried_pubkey ms (identity_pubkey (app w))).
  { induction ms as [| m ms IH] using rev_ind.
    - simpl. rewrite orb_false_r. repeat split; reflexivity.
    - unfold receive_all in *. rewrite foldl_snoc.
      destruct IH as (I1 & I2 & I3 & I4 & I5 & I6).
      destruct (receive_fields m (foldl (fun w m => receive m w) w ms))
        as (R1 & R2 & R3 & R4 & R5 & R6).
      rewrite !last_carried_snoc, existsb_app. simpl. rewrite orb_false_r.
      rewrite R1, R2, R3, R4, R5, R6, I1, I2, I3, I4, I5, I6.
      repeat split; try (now destruct m); symmetry; apply orb_assoc. }
  destruct H as (H1 & H2 & H3 & H4 & H5 & H6).
  repeat (split; [assumption |]).
  unfold syncPercentage, blockHeightSelector, lndBlockHeightSelector, lndCfilterHeightSelector.
  now rewrite H2, H3, H4.
Qed.






Lemma dispatch_effects (a : action) (w : world) :
  effects (dispatch a w) = effects w ++ [Dispatch a].
Proof. unfold dispatch. now destruct (lndReducer _ a). Qed.

Lemma lndSyncStatus_notifications (status : string) (w : world) :
  filter is_notification (effects (lndSyncStatus status w))
  = filter is_notification (effects w)
    ++ (if String.eqb status "complete"
        then [ShowNotification "Lightning Node Synced"
                               "Visa who? You're your own payment processor now!"]
        else []).
Proof.
  unfold lndSyncStatus, getState.
  set (w1 := if truthy _ then _ else w).
  assert (H1 : filter is_notification (effects w1) = filter is_notification (effects w)).
  { unfold w1. destruct (truthy _); [| reflexivity].
    unfold store_set. cbn [effects]. rewrite filter_app. simpl. now rewrite app_nil_r. }
  clearbody w1.
  destruct (String.eqb_spec status "waiting") as [-> | N1].
  { rewrite dispatch_effects, filter_app, H1. reflexivity. }
  destruct (String.eqb_spec status "in-progress") as [-> | N2].
  { rewrite dispatch_effects, filter_app, H1. reflexivity. }
  destruct (String.eqb_spec status "complete") as [-> | N3].
  - unfold showNotification, dispatch_thunk. cbn [effects].
    rewrite dispatch_effects, !filter_app, H1. simpl. now rewrite !app_nil_r.
  - rewrite dispatch_effects, filter_app, H1. reflexivity.
Qed.

Lemma receive_notifications (m : message) (w : world) :
  filter is_notification (effects (receive m w))
  = filter is_notification (effects w)
    ++ (if is_complete m
        then [ShowNotification "Lightning Node Synced"
                               "Visa who? You're your own payment processor now!"]
        else []).
Proof.
  destruct m as [status | | h | h | h | pubKey]; cbn [receive is_complete].
  - apply lndSyncStatus_notifications.
  - unfold lightningGrpcActive, dispatch_thunk.
    rewrite dispatch_effects, filter_app. cbn [effects]. rewrite filter_app. simpl.
    now rewrite !app_nil_r.
  - unfold currentBlockHeight. rewrite dispatch_effects, filter_app. reflexivity.
  - unfold lndBlockHeight. rewrite dispatch_effects, filter_app. reflexivity.
  - unfold lndCfilterHeight. rewrite dispatch_effects, filter_app. reflexivity.
  - cbn [effects]. now rewrite app_nil_r.
Qed.

(** X4.  The desktop notification is shown once for every [complete]
    sync-status call and for nothing else. *)
Theorem receive_all_notifications (ms : list message) (w : world) :
  filter is_notification (effects (receive_all ms w))
  = filter is_notification (effects w)
    ++ replicate (length (filter is_complete ms))
                 (ShowNotification "Lightning Node Synced"
                                   "Visa who? You're your own payment processor now!").
Proof.
  induction ms as [| m ms IH] using rev_ind; [simpl; now rewrite app_nil_r |].
  unfold receive_all in *. rewrite foldl_snoc, receive_notifications, IH, filter_app.
  rewrite length_app, replicate_add, app_assoc.
  f_equal. destruct (is_complete m) eqn:E.
  - rewrite filter_cons_True by (now rewrite E). reflexivity.
  - rewrite filter_cons_False by (now rewrite E). reflexivity.
Qed.

End LndThunksFacts.

(** ** What the selector can return *)

Module SyncPercentageRange.
Import JS JSFacts Lnd SyncPercentageFacts.
Local Open Scope Q_scope.











End SyncPercentageRange.

(** ** The percentage against the exact formula *)

Module SyncPercentageBounds.
Import JS JSFacts Lnd SyncPercentageFacts Binary64 Binary64Facts Roundoff.
Local Open Scope Q_scope.

Lemma round64_one : round64 1 = Fin 1.
Proof. reflexivity. Qed.

Lemma round64_hundred : round64 100 = Fin 100.
Proof. vm_compute. reflexivity. Qed.

(** X6.  While neither node height exceeds the reference height, the
    percentage lies between 0 and 100; and it is 100 when both node
    heights have reached the reference height. *)
Theorem syncPercentage_at_most_100 (b l c : Z) (st : root) :
  (0 < b < 2 ^ 53)%Z -> (0 <= l <= b)%Z -> (0 <= c <= b)%Z ->
  exists p : Z,
    syncPercentage (heights b l c st) = Number (Fin (inject_Z p))
    /\ (0 <= p <= 100)%Z
    /\ (l = b -> c = b -> p = 100%Z).
Proof.
  intros Hb Hl Hc. rewrite syncPercentage_heights.
  destruct (percentage_chain b l c Hb ltac:(lia) ltac:(lia))
    as (sq & dq & xq & yq & Hs & Hd & Hx & Hy & Hs0 & Hd0 & Hx0 & Hy0 & Hp & Heq).
  exists (Qfloor yq). split; [assumption |].
  assert (Hsum0 : 0 <= inject_Z l + inject_Z c).
  { rewrite <- inject_Z_plus. change 0 with (inject_Z 0). rewrite <- Zle_Qle. lia. }
  assert (Hsd : inject_Z l + inject_Z c <= inject_Z b * 2).
  { change 2 with (inject_Z 2). rewrite <- inject_Z_plus, <- inject_Z_mult, <- Zle_Qle. lia. }
  assert (Hle : sq <= dq) by exact (round64_fin_mono _ _ _ _ Hsum0 Hsd Hs Hd).
  assert (Hq0 : 0 <= sq / dq) by (apply Qle_shift_div_l; [assumption | lra]).
  assert (Hq1 : sq / dq <= 1) by (apply Qle_shift_div_r; [assumption | lra]).
  assert (Hx1 : xq <= 1) by exact (round64_fin_mono _ _ _ _ Hq0 Hq1 Hx round64_one).
  assert (Hy1 : yq <= 100).
  { apply (round64_fin_mono (xq * 100) 100 yq 100); [lra | lra | assumption | exact round64_hundred]. }
  split; [split; [lia |] |].
  - apply Qfloor_resp_le in Hy1. exact Hy1.
  - intros -> ->.
    assert (Hds : inject_Z b * 2 <= inject_Z b + inject_Z b) by lra.
    assert (Hge : dq <= sq).
    { apply (round64_fin_mono (inject_Z b * 2) (inject_Z b + inject_Z b)); try assumption. lra. }
    assert (Hq2 : 1 <= sq / dq) by (apply Qle_shift_div_l; [assumption | lra]).
    assert (Hx2 : 1 <= xq).
    { apply (round64_fin_mono 1 (sq / dq) 1 xq); [lra | assumption | exact round64_one | assumption]. }
    assert (Hy2 : 100 <= yq).
    { apply (round64_fin_mono 100 (xq * 100) 100 yq); [lra | lra | exact round64_hundred | assumption]. }
    assert (Hyq : yq == 100) by now apply Qle_antisym.
    now rewrite (Qfloor_comp _ _ Hyq).
Qed.


(** [syncPercentage_at_most_100] half way through the first phase and at
    the end of the second. *)
Lemma syncPercentage_at_most_100_witness :
  (exists p : Z,
     syncPercentage (heights 1000 500 0 (Root initialState None)) = Number (Fin (inject_Z p))
     /\ (0 <= p <= 100)%Z /\ (500 = 1000 -> 0 = 1000 -> p = 100)%Z)
  /\ (exists p : Z,
        syncPercentage (heights 1000 1000 1000 (Root initialState None)) = Number (Fin (inject_Z p))
        /\ (0 <= p <= 100)%Z /\ (1000 = 1000 -> 1000 = 1000 -> p = 100)%Z).
Proof.
  split.
  - apply (syncPercentage_at_most_100 1000 500 0 (Root initialState None));
      first [split; reflexivity | split; discriminate | lia].
  - apply (syncPercentage_at_most_100 1000 1000 1000 (Root initialState None));
      first [split; reflexivity | split; discriminate | lia].
Defined.

(** *** How far rounding moves a number *)

Lemma rne_half (t : Q) : inject_Z (rne t) - t <= 1 # 2 /\ t - inject_Z (rne t) <= 1 # 2.
Proof.
  unfold rne. pose proof (Qfloor_le t) as Hlo. pose proof (Qlt_floor t) as Hhi.
  rewrite inject_Z_plus in Hhi. change (inject_Z 1) with 1 in Hhi.
  destruct (Qcompare _ _) eqn:Hc; qcompare_hyps.
  - destruct (Z.even _); [| rewrite inject_Z_plus; change (inject_Z 1) with 1]; lra.
  - lra.
  - rewrite inject_Z_plus. change (inject_Z 1) with 1. lra.
Qed.

Lemma round_pos_error (q : Q) :
  0 < q -> (-1022 <= flog2 q)%Z ->
  q * (1 - u53) <= round_pos q /\ round_pos q <= q * (1 + u53).
Proof.
  intros Hq Hr. unfold round_pos, ulp_exp. rewrite Z.max_l by lia.
  set (e := (flog2 q - 52)%Z).
  pose proof (pow2_pos e) as He.
  destruct (rne_half (q / pow2 e)) as [H1 H2].
  assert (Hqe : q / pow2 e * pow2 e == q) by (field; apply pow2_nonzero).
  destruct (flog2_spec q Hq) as [Hlo _].
  assert (Hu : pow2 e == 2 * (pow2 (flog2 q) * u53)).
  { replace (flog2 q) with (e + 52)%Z at 1 by (unfold e; lia). rewrite pow2_add.
    assert (H52 : 2 * (pow2 52 * u53) == 1) by reflexivity.
    rewrite <- (Qmult_1_r (pow2 e)) at 1. rewrite <- H52. ring. }
  set (t := q / pow2 e) in *. set (n := inject_Z (rne t)) in *.
  assert (Ha : (n - t) * pow2 e <= (1 # 2) * pow2 e) by (apply Qmult_le_compat_r; lra).
  assert (Hb : (t - n) * pow2 e <= (1 # 2) * pow2 e) by (apply Qmult_le_compat_r; lra).
  assert (Hc : pow2 (flog2 q) * u53 <= q * u53) by (apply Qmult_le_compat_r; [assumption | discriminate]).
  split; lra.
Qed.

Lemma round64_error (q r : Q) :
  normal q -> round64 q = Fin r -> q * (1 - u53) <= r /\ r <= q * (1 + u53).
Proof.
  intros Hn Hr. rewrite (round64_normal q Hn) in Hr. injection Hr as <-.
  rewrite Qred_correct. destruct Hn as [Hq [Hlo _]]. now apply round_pos_error.
Qed.

(** A number of the format is its own rounding. *)
Lemma round64_exact (q r : Q) (m e : Z) :
  normal q -> (0 < m)%Z -> q == F m e -> (ulp_exp q <= e)%Z -> round64 q = Fin r -> r == q.
Proof.
  intros Hn Hm Hq He Hr. rewrite (round64_normal q Hn) in Hr. injection Hr as <-.
  rewrite Qred_correct. now apply (round_pos_exact q m e).
Qed.


Lemma normal_integer (z : Z) (k : Z) :
  (1 <= z <= 2 ^ k)%Z -> (0 <= k < 1023)%Z -> normal (inject_Z z).
Proof.
  intros Hz Hk. apply (normal_between _ 0 k); try lia.
  - change (pow2 0) with (inject_Z 1). rewrite <- Zle_Qle. lia.
  - rewrite pow2_inject by lia. rewrite <- Zle_Qle. lia.
Qed.

Lemma round64_integer (q r : Q) (z : Z) :
  q == inject_Z z -> (1 <= z < 2 ^ 53)%Z -> round64 q = Fin r -> r == q.
Proof.
  intros Hq Hz Hr.
  assert (Hlo : pow2 0 <= q).
  { rewrite Hq. change (pow2 0) with (inject_Z 1). rewrite <- Zle_Qle. lia. }
  assert (Hlt : q < pow2 53).
  { rewrite Hq, pow2_inject by lia. rewrite <- Zlt_Qlt. lia. }
  assert (Hn : normal q) by (apply (normal_between _ 0 53); try lia; lra).
  apply (round64_exact _ r z 0 Hn); [lia | rewrite Hq; unfold F; change (pow2 0) with 1; ring | | assumption].
  unfold ulp_exp. destruct Hn as [Hp _]. destruct (flog2_spec _ Hp) as [Hs _].
  assert (flog2 q < 53)%Z by (apply pow2_lt_inv; lra). lia.
Qed.

Lemma round64_double (b : Z) (r : Q) :
  (1 <= b < 2 ^ 53)%Z -> round64 (inject_Z b * 2) = Fin r -> r == inject_Z b * 2.
Proof.
  intros Hb Hr. set (q := inject_Z b * 2) in *.
  assert (Hq : q == inject_Z (b * 2)) by (unfold q; rewrite inject_Z_mult; reflexivity).
  assert (Hlo : pow2 1 <= q).
  { rewrite Hq. change (pow2 1) with (inject_Z 2). rewrite <- Zle_Qle. lia. }
  assert (Hlt : q < pow2 54).
  { rewrite Hq, pow2_inject by lia. rewrite <- Zlt_Qlt.
    change (2 ^ 54)%Z with (2 ^ 53 * 2)%Z. lia. }
  assert (Hn : normal q) by (apply (normal_between _ 1 54); try lia; lra).
  apply (round64_exact _ r b 1 Hn); [lia | unfold q, F; change (pow2 1) with 2; ring | | assumption].
  unfold ulp_exp. destruct Hn as [Hp _]. destruct (flog2_spec _ Hp) as [Hs _].
  assert (flog2 q < 54)%Z by (apply pow2_lt_inv; lra). lia.
Qed.

(** X7.  For heights whose sum is at most [2^45], the percentage that the
    selector returns is the one of the exact formula or one less: it is
    never too high, and never more than one point too low. *)
Theorem syncPercentage_within_one (b l c : Z) (st : root) :
  (0 < b < 2 ^ 53)%Z -> (0 <= l)%Z -> (0 <= c)%Z -> (l + c <= 2 ^ 45)%Z ->
  exists p : Z,
    syncPercentage (heights b l c st) = Number (Fin (inject_Z p))
    /\ (HeightSyncSpec.percentage b l c - 1 <= p <= HeightSyncSpec.percentage b l c)%Z.
Proof.
  intros Hb Hl Hc Hsum. rewrite syncPercentage_heights.
  assert (H45 : (2 ^ 45 < 2 ^ 53)%Z) by reflexivity.
  destruct (percentage_chain b l c Hb ltac:(lia) ltac:(lia))
    as (sq & dq & xq & yq & Hs & Hd & Hx & Hy & Hs0 & Hd0 & Hx0 & Hy0 & Hp & Heq).
  exists (Qfloor yq). split; [assumption |].
  unfold HeightSyncSpec.percentage.
  set (S := inject_Z l + inject_Z c) in *. set (B := inject_Z b).
  set (v := S / (2 * B) * 100).
  assert (HB : 1 <= B) by (unfold B; change 1 with (inject_Z 1); rewrite <- Zle_Qle; lia).
  assert (HSz : S == inject_Z (l + c)) by (unfold S; now rewrite inject_Z_plus).
  assert (Hdq : dq == B * 2) by (apply round64_double; [lia | assumption]).
  assert (HvB : v * B == 50 * S) by (unfold v; field; lra).
  destruct (Z.eq_dec (l + c) 0) as [Hz | Hnz].
  - (* nothing synced yet *)
    assert (HS0 : S == 0) by (rewrite HSz, Hz; reflexivity).
    rewrite (round64_zero _ HS0) in Hs. injection Hs as <-.
    assert (Hx' : 0 / dq == 0) by (unfold Qdiv; ring).
    rewrite (round64_zero _ Hx') in Hx. injection Hx as <-.
    assert (Hy' : 0 * 100 == 0) by ring.
    rewrite (round64_zero _ Hy') in Hy. injection Hy as <-.
    assert (Hv : v == 0) by (unfold v; rewrite HS0; unfold Qdiv; ring).
    rewrite (Qfloor_comp _ _ Hv). change (Qfloor 0) with 0%Z. lia.
  - assert (HS1 : 1 <= S).
    { rewrite HSz. change 1 with (inject_Z 1). rewrite <- Zle_Qle. lia. }
    assert (HS2 : S <= inject_Z (2 ^ 45)) by (rewrite HSz, <- Zle_Qle; lia).
    assert (Hsq : sq == S) by (apply (round64_integer S sq (l + c)); [assumption | lia | assumption]).
    assert (Hxv : sq / dq * 100 == v).
    { unfold v. rewrite Hsq, Hdq. field. lra. }
    (* the quotient and its rounding *)
    assert (Hq45 : pow2 45 == inject_Z (2 ^ 45)) by (apply pow2_inject; lia).
    assert (Hqlo : pow2 (-54) <= sq / dq).
    { apply Qle_shift_div_l; [assumption |]. rewrite Hsq, Hdq.
      assert (Hb54 : B * 2 <= pow2 54).
      { unfold B. rewrite pow2_inject by lia. change 2 with (inject_Z 2) at 1.
        rewrite <- inject_Z_mult, <- Zle_Qle. change (2 ^ 54)%Z with (2 ^ 53 * 2)%Z. lia. }
      apply Qle_trans with (pow2 (-54) * pow2 54).
      - apply Qmult_le_l; [apply pow2_pos | assumption].
      - rewrite <- pow2_add. exact HS1. }
    assert (Hqhi : sq / dq <= pow2 45).
    { apply Qle_shift_div_r; [assumption |]. rewrite Hsq, Hdq, Hq45.
      assert (H0 : 0 <= inject_Z (2 ^ 45)) by discriminate.
      nra. }
    assert (Hnx : normal (sq / dq)) by (apply (normal_between _ (-54) 45); auto; lia).
    destruct (round64_error _ _ Hnx Hx) as [Hx1 Hx2].
    assert (Hxlo : pow2 (-54) <= xq) by (apply (round64_ge_pow2 _ xq (-54) Hqlo); [lia | assumption]).
    assert (Hxhi : xq <= pow2 45).
    { pose proof (pow2_pos (-54)) as H54.
      destruct (round64_fin (sq / dq) 45) as (r & Hr & _ & Hle); [lra | assumption | lia |].
      assert (r = xq) by congruence. now subst r. }
    assert (Hny : normal (xq * 100)).
    { apply (normal_between _ (-54) 52); try lia.
      - pose proof (pow2_pos (-54)). lra.
      - assert (H52 : pow2 52 == pow2 45 * 128) by reflexivity.
        rewrite H52. pose proof (pow2_pos 45). nra. }
    destruct (round64_error _ _ Hny Hy) as [Hy1 Hy2].
    (* the two roundings, in terms of the exact value *)
    set (x := sq / dq) in *.
    assert (Hx100 : x * 100 == v) by exact Hxv.
    assert (Hv0 : 0 <= v) by (rewrite <- Hx100; pose proof (pow2_pos (-54)); lra).
    assert (Hvhi : v <= 50 * S) by (rewrite <- HvB; nra).
    assert (HSu : S * u53 <= 1 # 256).
    { unfold u53. assert (Hc45 : inject_Z (2 ^ 45) * (1 # 9007199254740992) == 1 # 256) by reflexivity.
      rewrite <- Hc45. apply Qmult_le_compat_r; [assumption | discriminate]. }
    assert (Hu0 : 0 < u53) by reflexivity.
    assert (Hu1 : u53 <= 1 # 256) by discriminate.
    assert (Hylo : v - 2 * (v * u53) <= yq).
    { assert (0 <= x) by (pose proof (pow2_pos (-54)); lra).
      assert (Hxu : 0 <= x * u53) by (apply Qmult_le_0_compat; lra).
      assert (Hxuu : 0 <= x * u53 * u53) by (apply Qmult_le_0_compat; lra).
      nra. }
    assert (Hyhi : yq <= v + 3 * (v * u53)).
    { assert (0 <= x) by (pose proof (pow2_pos (-54)); lra).
      assert (Hxu : 0 <= x * u53) by (apply Qmult_le_0_compat; lra).
      assert (Hxuu : 0 <= x * u53 * ((1 # 256) - u53)) by (apply Qmult_le_0_compat; lra).
      nra. }
    assert (Hvu : v * u53 <= 50 # 256).
    { assert (v * u53 <= 50 * S * u53) by (apply Qmult_le_compat_r; lra). lra. }
    split.
    + (* not more than one too low *)
      assert (Hk : inject_Z (Qfloor v - 1) <= yq).
      { pose proof (Qfloor_le v). replace (Qfloor v - 1)%Z with (Qfloor v + -1)%Z by lia.
        rewrite inject_Z_plus. change (inject_Z (-1)) with (-1). lra. }
      apply Qfloor_resp_le in Hk. now rewrite Qfloor_Z in Hk.
    + (* never too high *)
      set (K := Qfloor v).
      assert (HK : v < inject_Z (K + 1)) by apply Qlt_floor.
      assert (Hint : (50 * (l + c) + 1 <= (K + 1) * b)%Z).
      { assert (H : inject_Z (50 * (l + c)) < inject_Z ((K + 1) * b)).
        { rewrite !inject_Z_mult, <- HSz. fold B. change (inject_Z 50) with 50.
          assert (v * B < inject_Z (K + 1) * B) by (apply Qmult_lt_compat_r; lra). lra. }
        rewrite <- Zlt_Qlt in H. lia. }
      assert (HintQ : 50 * S + 1 <= inject_Z (K + 1) * B).
      { rewrite Zle_Qle in Hint. rewrite inject_Z_plus, !inject_Z_mult, <- HSz in Hint.
        exact Hint. }
      assert (HyB : yq * B < inject_Z (K + 1) * B).
      { assert (yq * B <= (v + 3 * (v * u53)) * B) by (apply Qmult_le_compat_r; lra).
        assert (HvuB : v * u53 * B == 50 * (S * u53)) by (transitivity (v * B * u53); [ring | rewrite HvB; ring]).
        nra. }
      assert (Hylt : yq < inject_Z (K + 1)).
      { destruct (Qlt_le_dec yq (inject_Z (K + 1))) as [H | H]; [assumption | exfalso].
        assert (inject_Z (K + 1) * B <= yq * B) by (apply Qmult_le_compat_r; lra). lra. }
      assert (Hfl : (Qfloor yq < K + 1)%Z).
      { rewrite Zlt_Qlt. apply Qle_lt_trans with yq; [apply Qfloor_le | assumption]. }
      lia.
Qed.


(** [syncPercentage_within_one] at the heights 50, 57 and 0, where the
    selector is the one point too low. *)
Lemma syncPercentage_within_one_witness :
  exists p : Z,
    syncPercentage (heights 50 57 0 (Root initialState None)) = Number (Fin (inject_Z p))
    /\ (HeightSyncSpec.percentage 50 57 0 - 1 <= p <= HeightSyncSpec.percentage 50 57 0)%Z.
Proof.
  apply (syncPercentage_within_one 50 57 0 (Root initialState None));
    first [split; reflexivity | discriminate | lia].
Defined.

End SyncPercentageBounds.

(** ** The channel of a [WalletUnlocker] over its whole life *)

Module ChannelFacts.
Import Err WalletUnlocker WalletUnlockerFacts Channel.






Lemma seek_other (st name : string) :
  name <> "connect" -> name <> "disconnect" -> StateMachine.seek fsm st name = None.
Proof.
  intros H1 H2. unfold StateMachine.seek, fsm, transitions, StateMachine.build.
  cbn [foldl StateMachine.t_from StateMachine.t_name StateMachine.t_to].
  rewrite !lookup_insert_ne, !lookup_empty by congruence. reflexivity.
Qed.

(** X10.  [can] answers exactly whether the call would be accepted:
    [connect()] is accepted if and only if [can('connect')] holds, and
    [disconnect()] if and only if [can('disconnect')] holds; the two never
    hold together, neither holds while a transition is in progress, and
    on a constructed instance, whose state is no longer the [none] that
    the library's own [init] transition leaves, [can] of any other name is
    false. *)
Theorem can_is_exact (u : t) :
  (can "connect" u = true <-> fst (connect u) = inr tt)
  /\ (can "disconnect" u = true <-> fst (fst (disconnect u)) = inr tt)
  /\ (can "connect" u = true -> can "disconnect" u = false)
  /\ (pending u = true -> can "connect" u = false /\ can "disconnect" u = false)
  /\ (forall name,
        state u <> "none" -> name <> "connect" -> name <> "disconnect" ->
        can name u = false).
Proof.
  destruct u as [sv cfg st p].
  unfold can, StateMachine.can, connect, disconnect, StateMachine.check. cbn [pending state].
  rewrite seek_connect, seek_disconnect.
  split; [| split; [| split; [| split]]].
  - destruct (String.eqb st "ready"), p; vm_compute; split; congruence.
  - destruct sv, (String.eqb st "connected"), p; vm_compute; split; congruence.
  - destruct (String.eqb_spec st "ready") as [-> | Hne]; destruct p; vm_compute; congruence.
  - intros ->. destruct (String.eqb st "ready"), (String.eqb st "connected"); vm_compute; auto.
  - intros name _ H1 H2. rewrite (seek_other st name H1 H2).
    destruct p; reflexivity.
Qed.

End ChannelFacts.

(** ** The controller's helpers *)

Module LifecycleFacts.
Import Err ZapController Lifecycle.

Lemma count_ipc_on (ch ch' : string) (ipc : listeners) :
  count ch (ipc_on ch' ipc) = if bool_decide (ch = ch') then S (count ch ipc) else count ch ipc.
Proof.
  unfold count, ipc_on. destruct (decide (ch = ch')) as [-> | Hne].
  - rewrite bool_decide_eq_true_2 by reflexivity. now rewrite lookup_insert_eq.
  - rewrite bool_decide_eq_false_2 by assumption. now rewrite lookup_insert_ne by congruence.
Qed.

Lemma count_removeAllListeners (ch ch' : string) (ipc : listeners) :
  count ch (removeAllListeners ch' ipc) = if bool_decide (ch = ch') then 0 else count ch ipc.
Proof.
  unfold count, removeAllListeners. destruct (decide (ch = ch')) as [-> | Hne].
  - rewrite bool_decide_eq_true_2 by reflexivity. now rewrite lookup_delete_eq.
  - rewrite bool_decide_eq_false_2 by assumption. now rewrite lookup_delete_ne by congruence.
Qed.

(** The listeners after the reset made on entering [onboarding]. *)
Lemma count_reset (ch : string) (ipc : listeners) :
  count ch (_registerIpcListeners (_removeIpcListeners ipc))
  = if bool_decide (ch = "startLnd") then 1
    else if bool_decide (ch ∈ ["walletUnlocker"; "lnd"]) then 0
    else count ch ipc.
Proof.
  unfold _registerIpcListeners, _removeIpcListeners.
  rewrite count_ipc_on, !count_removeAllListeners.
  destruct (decide (ch = "startLnd")) as [-> | H1]; [reflexivity |].
  rewrite (bool_decide_eq_false_2 _ H1).
  destruct (decide (ch = "lnd")) as [-> | H2]; [reflexivity |].
  destruct (decide (ch = "walletUnlocker")) as [-> | H3]; [reflexivity |].
  rewrite !bool_decide_eq_false_2; try assumption; [reflexivity |].
  rewrite !elem_of_cons, elem_of_nil. tauto.
Qed.


Lemma connect_await_new (getDeadline : nat -> nat) (a : WalletUnlocker.answers)
      (cfg : WalletUnlocker.LndConfig) :
  let r := WalletUnlocker.connect_await getDeadline a (WalletUnlocker.new cfg) in
  let u := snd (fst r) in
  if answers_ok a then
    fst (fst r) = inr tt
    /\ WalletUnlocker.state u = "connected" /\ WalletUnlocker.pending u = false
    /\ WalletUnlocker.service u
       = Some (WalletUnlocker.Client (WalletUnlocker.host cfg) false)
  else
    exists e, fst (fst r) = inl (StateMachine.HookRejected e)
              /\ WalletUnlocker.state u = "ready" /\ WalletUnlocker.pending u = false
              /\ match WalletUnlocker.validateHost_err a, WalletUnlocker.loadSync_err a,
                       WalletUnlocker.credentials_err a, WalletUnlocker.waitForReady_err a with
                 | Some e', _, _, _ | None, Some e', _, _ | None, None, Some e', _
                 | None, None, None, Some e' => e = e'
                 | None, None, None, None => False
                 end.
Proof.
  unfold answers_ok, WalletUnlocker.connect_await, WalletUnlocker.connect,
    WalletUnlocker.connect_settles, WalletUnlocker.onBeforeConnect, WalletUnlocker.new.
  cbn [WalletUnlocker.pending WalletUnlocker.state WalletUnlocker.lndConfig
       WalletUnlocker.set_fsm WalletUnlocker.service].
  change (StateMachine.check WalletUnlocker.fsm false (StateMachine.initial (Some WalletUnlocker.init)) "connect")
    with (@inr StateMachine.fault string "connected").
  cbn iota. cbn [WalletUnlocker.pending WalletUnlocker.state WalletUnlocker.set_fsm].
  change (StateMachine.seek WalletUnlocker.fsm (StateMachine.initial (Some WalletUnlocker.init)) "connect")
    with (Some "connected").
  cbn iota.
  destruct (WalletUnlocker.validateHost_err a); [simpl; eauto |].
  destruct (WalletUnlocker.loadSync_err a); [simpl; eauto |].
  destruct (WalletUnlocker.credentials_err a); [simpl; eauto |].
  destruct (WalletUnlocker.waitForReady_err a); simpl; eauto.
Qed.

Lemma ipc_after_sendMessage (c : ZapController.t) (msg : string) (d : data) (ipc : listeners) :
  ipc_after (sendMessage c msg d) ipc = ipc.
Proof. unfold sendMessage. now destruct (mainWindow c). Qed.

Lemma ipc_after_app (tr tr' : list ZapController.effect) (ipc : listeners) :
  ipc_after (tr ++ tr') ipc = ipc_after tr' (ipc_after tr ipc).
Proof. unfold ipc_after. apply foldl_app. Qed.

(** The listeners after one helper that is not the entry into
    [onboarding]. *)
Lemma apply_op_count (getDeadline : nat -> nat) (o : op) (w : world) (ch : string) :
  is_enter o = false ->
  count ch (ipc (apply_op getDeadline o w))
  = count ch (ipc w)
    + (if bool_decide (ch = "lnd") && lightning_connected o then 1 else 0)
    + (if bool_decide (ch = "walletUnlocker") && unlocker_connected o then 1 else 0).
Proof.
  destruct o as [from now | l answer | a]; cbn [is_enter]; [discriminate | |]; intros _.
  - cbn [apply_op unlocker_connected lightning_connected]. rewrite andb_false_r, Nat.add_0_r.
    unfold startLightningWallet, ZapController.startLightningWallet.
    destruct answer as [[] | e]; cbn [fst snd ipc].
    + rewrite !ipc_after_app, ipc_after_sendMessage. unfold ipc_after. cbn [foldl].
      rewrite count_ipc_on, andb_true_r.
      destruct (bool_decide (ch = "lnd")); simpl; lia.
    + unfold ipc_after. cbn [foldl app]. rewrite andb_false_r. lia.
  - cbn [apply_op unlocker_connected lightning_connected]. rewrite andb_false_r, Nat.add_0_r.
    unfold startWalletUnlocker.
    pose proof (connect_await_new getDeadline a (unlockerConfig w)) as H. cbv zeta in H.
    destruct (WalletUnlocker.connect_await _ _ _) as [[r u] tr]. cbn [fst snd] in H.
    destruct (answers_ok a).
    + destruct H as (-> & _). cbn [fst snd ipc]. rewrite count_ipc_on.
      destruct (bool_decide (ch = "walletUnlocker")); simpl; lia.
    + destruct H as (e & -> & _). cbn [fst snd ipc]. rewrite andb_false_r. lia.
Qed.

Lemma length_filter_snoc {A : Type} (f : A -> bool) (l : list A) (x : A) :
  length (filter f (l ++ [x])) = length (filter f l) + (if f x then 1 else 0).
Proof.
  rewrite filter_app, length_app. destruct (f x) eqn:E.
  - rewrite filter_cons_True by (now rewrite E). reflexivity.
  - rewrite filter_cons_False by (now rewrite E). reflexivity.
Qed.

Lemma run_ops_count (getDeadline : nat -> nat) (ops : list op) (w : world) (ch : string) :
  forallb (fun o => negb (is_enter o)) ops = true ->
  count ch (ipc (run_ops getDeadline ops w))
  = count ch (ipc w)
    + (if bool_decide (ch = "lnd") then length (filter lightning_connected ops) else 0)
    + (if bool_decide (ch = "walletUnlocker") then length (filter unlocker_connected ops) else 0).
Proof.
  induction ops as [| o ops IH] using rev_ind; intros Hall.
  - simpl. destruct (bool_decide _), (bool_decide _); lia.
  - rewrite forallb_app in Hall. apply andb_true_iff in Hall as [Hall Ho].
    simpl in Ho. rewrite andb_true_r in Ho. apply negb_true_iff in Ho.
    unfold run_ops in *. rewrite foldl_snoc, (apply_op_count _ _ _ _ Ho), (IH Hall).
    rewrite !length_filter_snoc.
    destruct (bool_decide (ch = "lnd")), (bool_decide (ch = "walletUnlocker")),
      (lightning_connected o), (unlocker_connected o); simpl; lia.
Qed.

(** X11.  Entering [onboarding] resets the listeners of [ipcMain]: whatever
    was registered before, there is then exactly one listener for
    [startLnd].  From then on every connection to the Lightning service
    that succeeds adds one listener for [lnd], and every connection to the
    wallet unlocker that succeeds adds one for [walletUnlocker]; attempts
    that fail add none. *)
Theorem listeners_since_onboarding (getDeadline : nat -> nat) (before after : list op)
        (from : string) (now : N) (w : world) :
  forallb (fun o => negb (is_enter o)) after = true ->
  let w' := run_ops getDeadline (before ++ EnterOnboarding from now :: after) w in
  count "startLnd" (ipc w') = 1
  /\ count "lnd" (ipc w') = length (filter lightning_connected after)
  /\ count "walletUnlocker" (ipc w') = length (filter unlocker_connected after).
Proof.
  intros Hall. cbv zeta. unfold run_ops. rewrite foldl_app. cbn [foldl].
  fold (run_ops getDeadline before w).
  set (w1 := apply_op getDeadline (EnterOnboarding from now) (run_ops getDeadline before w)).
  fold (run_ops getDeadline after w1).
  rewrite !(run_ops_count _ _ _ _ Hall).
  unfold w1. cbn [apply_op onOnboarding fst ipc]. rewrite !count_reset.
  rewrite (bool_decide_eq_true_2 ("startLnd" = "startLnd")) by reflexivity.
  rewrite (bool_decide_eq_true_2 ("lnd" = "lnd")) by reflexivity.
  rewrite (bool_decide_eq_true_2 ("walletUnlocker" = "walletUnlocker")) by reflexivity.
  rewrite (bool_decide_eq_true_2 ("lnd" ∈ ["walletUnlocker"; "lnd"])) by set_solver.
  rewrite (bool_decide_eq_true_2 ("walletUnlocker" ∈ ["walletUnlocker"; "lnd"])) by set_solver.
  rewrite !bool_decide_eq_false_2 by discriminate.
  repeat split; lia.
Qed.


(** X12.  [startWalletUnlocker] always works on a new connector, so the
    state machine never refuses its [connect()].  When every step of the
    connection succeeds, the controller holds a connected connector with an
    open channel, one listener for [walletUnlocker] is added and the
    renderer is told; when a step fails, the call fails with the error of
    that step, no listener is added, nothing is sent to the renderer, and
    the connector it leaves behind is not connected. *)
Theorem startWalletUnlocker_spec (getDeadline : nat -> nat) (a : WalletUnlocker.answers)
        (w : world) :
  let r := startWalletUnlocker getDeadline a w in
  let w' := snd (fst r) in
  exists u,
    walletUnlocker w' = Some u
    /\ WalletUnlocker.lndConfig u = unlockerConfig w
    /\ controller w' = controller w
    /\ if answers_ok a then
         fst (fst r) = inr tt
         /\ WalletUnlocker.state u = "connected"
         /\ WalletUnlocker.service u
            = Some (WalletUnlocker.Client (WalletUnlocker.host (unlockerConfig w)) false)
         /\ ipc w' = ipc_on "walletUnlocker" (ipc w)
         /\ (mainWindow (controller w) = true ->
             Ctl (Send "walletUnlockerGrpcActive" NoData) ∈ snd r)
       else
         (exists e, fst (fst r) = inl (StateMachine.HookRejected e)
                    /\ match WalletUnlocker.validateHost_err a, WalletUnlocker.loadSync_err a,
                             WalletUnlocker.credentials_err a,
                             WalletUnlocker.waitForReady_err a with
                       | Some e', _, _, _ | None, Some e', _, _ | None, None, Some e', _
                       | None, None, None, Some e' => e = e'
                       | None, None, None, None => False
                       end)
         /\ WalletUnlocker.state u = "ready" /\ WalletUnlocker.pending u = false
         /\ ipc w' = ipc w
         /\ (forall msg d, Ctl (Send msg d) ∉ snd r).
Proof.
  cbv zeta. unfold startWalletUnlocker.
  pose proof (connect_await_new getDeadline a (unlockerConfig w)) as H. cbv zeta in H.
  assert (Hcfg : WalletUnlocker.lndConfig
                   (snd (fst (WalletUnlocker.connect_await getDeadline a
                                (WalletUnlocker.new (unlockerConfig w)))))
                 = unlockerConfig w).
  { unfold WalletUnlocker.connect_await, WalletUnlocker.connect, WalletUnlocker.connect_settles,
      WalletUnlocker.onBeforeConnect, WalletUnlocker.new.
    cbn [WalletUnlocker.pending WalletUnlocker.state WalletUnlocker.lndConfig
         WalletUnlocker.set_fsm WalletUnlocker.service].
    change (StateMachine.check WalletUnlocker.fsm false
              (StateMachine.initial (Some WalletUnlocker.init)) "connect")
      with (@inr StateMachine.fault string "connected").
    cbn iota. cbn [WalletUnlocker.pending WalletUnlocker.state WalletUnlocker.set_fsm].
    change (StateMachine.seek WalletUnlocker.fsm
              (StateMachine.initial (Some WalletUnlocker.init)) "connect")
      with (Some "connected").
    cbn iota.
    destruct (WalletUnlocker.validateHost_err a); [reflexivity |].
    destruct (WalletUnlocker.loadSync_err a); [reflexivity |].
    destruct (WalletUnlocker.credentials_err a); [reflexivity |].
    destruct (WalletUnlocker.waitForReady_err a); reflexivity. }
  destruct (WalletUnlocker.connect_await _ _ _) as [[r u] tr]. cbn [fst snd] in *.
  destruct (answers_ok a).
  - destruct H as (-> & Hst & Hp & Hsv). cbn [fst snd walletUnlocker controller ipc].
    exists u. repeat split; try assumption; try reflexivity.
    intros Hmw. unfold sendMessage. rewrite Hmw. set_solver.
  - destruct H as (e & -> & Hst & Hp & He). cbn [fst snd walletUnlocker controller ipc].
    exists u. repeat split; try assumption; try reflexivity; [eauto |].
    intros msg d Hin. rewrite !elem_of_app, !list_elem_of_fmap in Hin.
    destruct Hin as [Hin | [(x & Hx & _) | Hin]].
    + apply list_elem_of_singleton in Hin. discriminate.
    + discriminate.
    + apply list_elem_of_singleton in Hin. discriminate.
Qed.


Lemma grpcSslCipherSuites_truthy (ty : conn_type) :
  Lnd.truthy (Some (grpcSslCipherSuites ty)) = true.
Proof. now destruct ty. Qed.

(** X13.  [finishOnboarding] saves before it asks: whatever the state of
    the controller, the new configuration is saved with the settings that
    [SETTINGS_PROPS] allows for the connection type and no others, and the
    active connection is recorded.  Only then is the transition fired,
    [startLnd] for a local connection and [connectLnd] for the others, and
    it is accepted only from [onboarding] with no transition in progress;
    from any other state the call throws, the saved configuration staying
    changed. *)
Theorem finishOnboarding_saves_first
        (SETTINGS_PROPS : conn_type -> list string)
        (connectorConfig : conn_type -> gmap string string -> WalletUnlocker.LndConfig)
        (options : onboardingOptions) (w : world) :
  let r := finishOnboarding SETTINGS_PROPS connectorConfig options w in
  let w' := snd (fst r) in
  let ty := opt_type options in
  let c := controller w in
  (exists settings,
     SaveLndConfig ty "bitcoin" "testnet" "wallet-1" settings ∈ snd r
     /\ unlockerConfig w' = connectorConfig ty settings
     /\ forall k v, settings !! k = Some v
                    <-> opt_props options !! k = Some v /\ k ∈ SETTINGS_PROPS ty)
  /\ SettingsSet "activeConnection" ty "bitcoin" "testnet" "wallet-1" ∈ snd r
  /\ lndConfig_type (controller w') = ty
  /\ ZapController.state (controller w') = ZapController.state c
  /\ (ZapController.state c = "onboarding" -> ZapController.pending c = false ->
      fst (fst r) = inr (if is_local ty then "running" else "connected"))
  /\ (ZapController.state c <> "onboarding" ->
      fst (fst r) = inl (StateMachine.InvalidTransition (transition_for ty)
                           (ZapController.state c)))
  /\ (ZapController.state c = "onboarding" -> ZapController.pending c = true ->
      fst (fst r) = inl (StateMachine.PendingTransition (transition_for ty) "onboarding")).
Proof.
  cbv zeta. unfold finishOnboarding. cbn [fst snd controller unlockerConfig lndConfig_type
    ZapController.state ZapController.pending].
  split; [| split; [| split; [| split; [| split; [| split]]]]].
  - exists (pick (opt_props options) (SETTINGS_PROPS (opt_type options))).
    split; [rewrite !elem_of_cons; auto | split; [reflexivity |]].
    intros k v. unfold pick. rewrite map_lookup_filter_Some. reflexivity.
  - rewrite !elem_of_cons. auto.
  - reflexivity.
  - reflexivity.
  - intros -> ->. now destruct (opt_type options).
  - intros Hne. unfold StateMachine.check, StateMachine.seek, fsm, transitions,
      StateMachine.build, transition_for.
    cbn [foldl StateMachine.t_from StateMachine.t_name StateMachine.t_to].
    destruct (opt_type options); cbn [is_local];
      rewrite !lookup_insert_ne, ?lookup_empty by congruence; reflexivity.
  - intros -> ->. now destruct (opt_type options).
Qed.

(** X14.  The TLS cipher suites are chosen once: [finishOnboarding] sets
    [GRPC_SSL_CIPHER_SUITES] only while it is unset or empty, so after any
    number of onboardings it holds what it held at the start, or else the
    suites of the first connection type.  An onboarding to BTCPay Server
    that follows one of another type keeps the suites of that other
    type, which are not those of BTCPay Server. *)
Theorem cipher_suites_set_once
        (SETTINGS_PROPS : conn_type -> list string)
        (connectorConfig : conn_type -> gmap string string -> WalletUnlocker.LndConfig)
        (o : onboardingOptions) (os : list onboardingOptions) (w : world) :
  GRPC_SSL_CIPHER_SUITES (finish_all SETTINGS_PROPS connectorConfig (o :: os) w)
  = (if Lnd.truthy (GRPC_SSL_CIPHER_SUITES w) then GRPC_SSL_CIPHER_SUITES w
     else Some (grpcSslCipherSuites (opt_type o)))
  /\ (forall ty, ty <> btcpayserver ->
        grpcSslCipherSuites ty <> grpcSslCipherSuites btcpayserver).
Proof.
  split.
  - unfold finish_all. cbn [foldl].
    set (w1 := snd (fst (finishOnboarding SETTINGS_PROPS connectorConfig o w))).
    assert (H1 : GRPC_SSL_CIPHER_SUITES w1
                 = if Lnd.truthy (GRPC_SSL_CIPHER_SUITES w) then GRPC_SSL_CIPHER_SUITES w
                   else Some (grpcSslCipherSuites (opt_type o))) by reflexivity.
    assert (Ht : Lnd.truthy (GRPC_SSL_CIPHER_SUITES w1) = true).
    { rewrite H1. destruct (Lnd.truthy (GRPC_SSL_CIPHER_SUITES w)) eqn:E; [assumption |].
      apply grpcSslCipherSuites_truthy. }
    rewrite <- H1. clearbody w1. clear H1.
    revert w1 Ht. induction os as [| o' os IH]; intros w1 Ht; [reflexivity |].
    cbn [foldl]. rewrite IH.
    + unfold finishOnboarding. cbn [fst snd GRPC_SSL_CIPHER_SUITES]. now rewrite Ht.
    + unfold finishOnboarding. cbn [fst snd GRPC_SSL_CIPHER_SUITES]. now rewrite Ht.
  - intros [] H; try congruence; discriminate.
Qed.


Lemma controller_lookup (k : string * string) :
  fsm !! k
  = if bool_decide (k = ("*", "terminate")) then Some "terminated"
    else if bool_decide (k = ("onboarding", "connectLnd")) then Some "connected"
    else if bool_decide (k = ("onboarding", "startLnd")) then Some "running"
    else if bool_decide (k = ("*", "startOnboarding")) then Some "onboarding"
    else None.
Proof.
  unfold fsm, transitions, StateMachine.build.
  cbn [foldl StateMachine.t_from StateMachine.t_name StateMachine.t_to].
  repeat (case_bool_decide;
          [simplify_eq; now rewrite lookup_insert_eq | rewrite lookup_insert_ne by congruence]).
  apply lookup_empty.
Qed.

Lemma controller_seek (st name : string) :
  StateMachine.seek fsm st name
  = if bool_decide (name = "startOnboarding") then Some "onboarding"
    else if bool_decide (name = "terminate") then Some "terminated"
    else if bool_decide (st = "onboarding") && bool_decide (name = "startLnd") then Some "running"
    else if bool_decide (st = "onboarding") && bool_decide (name = "connectLnd") then Some "connected"
    else None.
Proof.
  unfold StateMachine.seek, StateMachine.wildcard. rewrite !controller_lookup.
  repeat case_bool_decide; simplify_eq; reflexivity.
Qed.

(** X15.  The controller can always be sent back to onboarding and can
    always be terminated: [startOnboarding] and [terminate] are accepted
    from every state, the state before any transition and [terminated]
    included, unless a transition is in progress.  [startLnd] and
    [connectLnd] are accepted from [onboarding] only, and nothing else is a
    transition. *)
Theorem controller_transitions (st name : string) (p : bool) :
  StateMachine.check fsm p st name
  = if bool_decide (name ∈ ["startOnboarding"; "terminate"])
       || bool_decide (st = "onboarding") && bool_decide (name ∈ ["startLnd"; "connectLnd"])
    then
      if p then inl (StateMachine.PendingTransition name st)
      else inr (if bool_decide (name = "startOnboarding") then "onboarding"
                else if bool_decide (name = "terminate") then "terminated"
                else if bool_decide (name = "startLnd") then "running"
                else "connected")
    else inl (StateMachine.InvalidTransition name st).
Proof.
  unfold StateMachine.check. rewrite controller_seek.
  destruct (decide (name = "startOnboarding")) as [-> | N1].
  { rewrite (bool_decide_eq_true_2 (_ ∈ _)) by set_solver. reflexivity. }
  rewrite (bool_decide_eq_false_2 _ N1).
  destruct (decide (name = "terminate")) as [-> | N2].
  { rewrite (bool_decide_eq_true_2 (_ ∈ _)) by set_solver. reflexivity. }
  rewrite (bool_decide_eq_false_2 _ N2).
  rewrite (bool_decide_eq_false_2 (name ∈ ["startOnboarding"; "terminate"]))
    by (rewrite !elem_of_cons, elem_of_nil; tauto).
  cbn [orb].
  destruct (bool_decide (st = "onboarding")); cbn [andb].
  - destruct (decide (name = "startLnd")) as [-> | N3].
    { rewrite (bool_decide_eq_true_2 (_ ∈ _)) by set_solver. reflexivity. }
    rewrite (bool_decide_eq_false_2 _ N3).
    destruct (decide (name = "connectLnd")) as [-> | N4].
    { rewrite (bool_decide_eq_true_2 (_ ∈ _)) by set_solver. reflexivity. }
    rewrite (bool_decide_eq_false_2 _ N4).
    rewrite (bool_decide_eq_false_2 (name ∈ ["startLnd"; "connectLnd"]))
      by (rewrite !elem_of_cons, elem_of_nil; tauto).
    reflexivity.
  - reflexivity.
Qed.


(** X16.  [onOnboarding] and [onTerminated] take the connection down in the
    same way, by the state they come from.  From [connected] the Lightning
    connection is disconnected, if it is there and can be, and the node
    process is left alone; from [running] the node is shut down and
    [disconnect()] is not called; from any other state nothing is taken
    down.  [onTerminated] leaves the listeners as they are. *)
Theorem teardown_by_origin (from : string) (now : N) (w : world) :
  let r1 := onOnboarding from now w in
  let r2 := onTerminated from now w in
  let td := snd (fst r1) in
  snd (fst r2) = td
  /\ fst (fst r2) = w
  /\ (td = Disconnect
      <-> from = "connected"
          /\ exists l, lightning (controller w) = Some l /\ can_disconnect l = true)
  /\ (td = ShutdownNeutrino (shutdownNeutrino (controller w) now) <-> from = "running")
  /\ (td = NoTeardown \/ td = Disconnect
      \/ td = ShutdownNeutrino (shutdownNeutrino (controller w) now))
  /\ (LightningDisconnect ∈ snd r1 <-> td = Disconnect)
  /\ (LightningDisconnect ∈ snd r2 <-> td = Disconnect).
Proof.
  cbv zeta. unfold onOnboarding, onTerminated, teardown_from. cbn [fst snd].
  destruct (String.eqb_spec from "connected") as [-> | Hc].
  - cbn [andb]. change (String.eqb "connected" "running") with false. cbn iota.
    destruct (lightning (controller w)) as [l |] eqn:El.
    + destruct (can_disconnect l) eqn:Ec; cbn iota.
      * repeat split; try reflexivity; try discriminate; eauto;
          try (intros _; rewrite elem_of_app, !elem_of_cons; auto).
      * repeat split; try reflexivity; try discriminate; auto;
          try (intros (_ & l' & Hl & Hd); congruence);
          try (rewrite elem_of_app, !elem_of_cons, elem_of_nil; intros [[H | []] | []];
               discriminate).
    + repeat split; try reflexivity; try discriminate; auto;
        try (intros (_ & l' & Hl & Hd); congruence);
        try (rewrite elem_of_app, !elem_of_cons, elem_of_nil; intros [[H | []] | []];
             discriminate).
  - cbn [andb]. destruct (String.eqb_spec from "running") as [-> | Hr]; cbn iota.
    + repeat split; try reflexivity; try discriminate; auto;
        try (intros (H & _); discriminate);
        try (rewrite elem_of_app, !elem_of_cons, elem_of_nil; intros [[H | []] | []];
             discriminate).
    + repeat split; try reflexivity; try discriminate; auto;
        try (intros (H & _); congruence); try congruence;
        try (rewrite elem_of_app, !elem_of_cons, elem_of_nil; intros [[H | []] | []];
             discriminate).
Qed.


(** [listeners_since_onboarding] for a second onboarding that follows two
    connections, and is followed by one that fails and one that
    succeeds. *)
Lemma listeners_since_onboarding_witness :
  let c := Controller true custom None false "connected" false in
  let w := World c None (WalletUnlocker.Config "rpc.proto" "localhost:10009" "tls.cert" "admin.macaroon")
                 ∅ None in
  let l := LightningInstance true true in
  let e := Error (CodeNumber 14) "unavailable" None in
  let w' := run_ops (fun s => s)
              ([EnterOnboarding "none" 0; LightningWallet l (Resolved tt);
                LightningWallet l (Resolved tt)]
               ++ EnterOnboarding "connected" 5000
               :: [LightningWallet l (Rejected e); LightningWallet l (Resolved tt)]) w in
  count "startLnd" (ipc w') = 1
  /\ count "lnd" (ipc w') = 1
  /\ count "walletUnlocker" (ipc w') = 0.
Proof.
  intros c w l e.
  exact (listeners_since_onboarding (fun s => s)
           [EnterOnboarding "none" 0; LightningWallet l (Resolved tt);
            LightningWallet l (Resolved tt)]
           [LightningWallet l (Rejected e); LightningWallet l (Resolved tt)]
           "connected" 5000 w eq_refl).
Defined.

End LifecycleFacts.

(** ** A shutdown that goes well *)

Module ShutdownFacts.
Import Err ZapController Shutdown.
Local Open Scope N_scope.

Lemma no_kill_app (tm : option N) (cl : bool) (r : promise) (lg lg' : list (N * action)) (h : bool) :
  no_kill (Shutdown tm cl r (lg ++ lg') h)
  = forallb (fun a => negb (is_kill (snd a))) lg && forallb (fun a => negb (is_kill (snd a))) lg'.
Proof. unfold no_kill. cbn [log]. apply forallb_app. Qed.

Lemma deliver_closed (start deadline : N) (evs : list (N * event)) :
  forall (clock : N) (s : shutdown),
    closed_cleanly start deadline s ->
    forallb (fun de => negb (is_rejection (snd de))) evs = true ->
    closed_cleanly start deadline (deliver clock evs s).
Proof.
  induction evs as [| [delay ev] evs IH]; intros clock s Hs Hall; [assumption |].
  cbn [deliver]. cbn [forallb snd] in Hall. apply andb_true_iff in Hall as [Hev Hall].
  apply IH; [| assumption].
  destruct Hs as (Htm & Hcl & Hk & t & Ht & Hin & Hr). unfold fire_due. rewrite Htm.
  destruct ev; cbn [handle is_rejection negb] in *; try discriminate.
  - rewrite Hcl. repeat split; try assumption. eauto.
  - destruct s as [tm cl r lg h]. cbn [timer closeListener result log has_neutrino] in *. subst.
    repeat split; try reflexivity.
    + rewrite no_kill_app. unfold no_kill in Hk. cbn [log] in Hk. now rewrite Hk.
    + exists t. cbn [log result]. repeat split; try lia. apply elem_of_app. now left.
Qed.

Lemma deliver_waiting (start deadline : N) (evs : list (N * event)) :
  forall (clock : N) (s : shutdown),
    start <= clock ->
    waiting deadline s ->
    forallb (fun de => negb (is_rejection (snd de))) evs = true ->
    existsb (fun de => is_close (snd de)) (upto clock deadline evs) = true ->
    closed_cleanly start deadline (deliver clock evs s).
Proof.
  induction evs as [| [delay ev] evs IH]; intros clock s Hc Hs Hall Hex; [discriminate |].
  cbn [deliver]. cbn [forallb snd] in Hall. apply andb_true_iff in Hall as [Hev Hall].
  cbn [upto] in Hex. destruct (N.leb_spec (clock + delay) deadline) as [Hle | Hgt]; [| discriminate].
  cbn [existsb snd] in Hex.
  destruct Hs as (Htm & Hcl & Hr & Hk).
  assert (Hfd : fire_due (clock + delay) s = s).
  { unfold fire_due. rewrite Htm. destruct (N.ltb_spec deadline (clock + delay)); [lia | reflexivity]. }
  rewrite Hfd.
  destruct s as [tm cl r lg h]. cbn [timer closeListener result] in *. subst.
  destruct ev;
    cbn [handle is_rejection negb is_close closeListener timer result log has_neutrino] in *;
    try discriminate.
  - apply deliver_closed; [| assumption].
    repeat split; try reflexivity.
    + rewrite no_kill_app. unfold no_kill in Hk. cbn [log] in Hk. now rewrite Hk.
    + exists (clock + delay). cbn [log result resolve]. repeat split; try lia.
      rewrite elem_of_app, !elem_of_cons. auto.
  - apply (IH (clock + delay)); [lia | | assumption | exact Hex].
    repeat split; try reflexivity.
    rewrite no_kill_app. unfold no_kill in Hk. cbn [log] in Hk. now rewrite Hk.
Qed.

(** X17.  A shutdown that goes well kills nothing: when the stop request is
    made, the process closes by the deadline and the stop request is not
    rejected, then the promise resolves and the timer is cleared at the
    time the process closes, and neither then nor at any later time is the
    process killed. *)
Theorem clean_shutdown_never_kills (c : t) (now : N) (evs : list (N * event)) :
  is_local (lndConfig_type c) = true ->
  match lightning c with Some l => can_terminate l | None => false end = true ->
  neutrino c = true ->
  forallb (fun de => negb (is_rejection (snd de))) evs = true ->
  existsb (fun de => is_close (snd de)) (upto now (now + grace_ms) evs) = true ->
  let s := finish (deliver now evs (shutdownNeutrino c now)) in
  no_kill s = true
  /\ timer s = None
  /\ exists t, now <= t <= now + grace_ms
               /\ (t, ClearTimeout) ∈ log s /\ result s = ResolvedAt t.
Proof.
  intros Hloc Hgr Hn Hall Hex. cbv zeta.
  assert (Hw : waiting (now + grace_ms) (shutdownNeutrino c now)).
  { unfold shutdownNeutrino. rewrite Hloc, Hgr, Hn. repeat split; reflexivity. }
  destruct (deliver_waiting now _ evs now _ ltac:(lia) Hw Hall Hex) as (Htm & Hcl & Hk & Ht).
  unfold finish. rewrite Htm. repeat split; assumption.
Qed.

(** [clean_shutdown_never_kills] for a process that closes after three
    seconds, the stop request having returned after two. *)
Lemma clean_shutdown_never_kills_witness :
  let c := Controller true local (Some (LightningInstance true true)) true "running" false in
  let s := finish (deliver 0 [(2000, TerminateResolved); (1000, ProcessClose)]
                     (shutdownNeutrino c 0)) in
  no_kill s = true
  /\ timer s = None
  /\ exists t, 0 <= t <= 0 + grace_ms
               /\ (t, ClearTimeout) ∈ log s /\ result s = ResolvedAt t.
Proof.
  apply (clean_shutdown_never_kills
           (Controller true local (Some (LightningInstance true true)) true "running" false)
           0 [(2000, TerminateResolved); (1000, ProcessClose)]); reflexivity.
Defined.

End ShutdownFacts.

(** ** The environment given to the renderer *)

Module PreloadEnvFacts.
Import Preload PreloadFacts PreloadEnv.

Lemma copy_lookup (env : gmap string string) (keys : list string) (k : string) :
  forall obj : gmap string string,
    foldl (fun obj key =>
             match env !! key with
             | Some v => <[key := v]> obj
             | None => obj
             end) obj keys !! k
    = if bool_decide (k ∈ keys) then
        match env !! k with Some v => Some v | None => obj !! k end
      else obj !! k.
Proof.
  induction keys as [| key keys IH]; intros obj; cbn [foldl].
  - rewrite bool_decide_eq_false_2; [reflexivity | apply not_elem_of_nil].
  - rewrite IH. destruct (decide (k = key)) as [-> | Hne].
    + rewrite (bool_decide_eq_true_2 (key ∈ key :: keys)) by (apply elem_of_cons; now left).
      destruct (env !! key) as [v |] eqn:E.
      * rewrite lookup_insert_eq. now destruct (bool_decide _).
      * now destruct (bool_decide _).
    + assert (Hiff : k ∈ key :: keys <-> k ∈ keys).
      { rewrite elem_of_cons. tauto. }
      rewrite (bool_decide_ext _ _ Hiff).
      destruct (env !! key) as [v |]; [rewrite lookup_insert_ne by congruence |]; reflexivity.
Qed.

(** X18.  The own properties of [window.env] are the whitelisted
    environment variables that are set, each with its value, and nothing
    else: no other variable of [process.env] reaches the renderer. *)
Theorem window_env_whitelist (process_env : gmap string string) (k : string) :
  window_env process_env !! k
  = if includes WHITELISTED_ENV_VARS k then process_env !! k else None.
Proof.
  unfold window_env. rewrite copy_lookup, lookup_empty.
  destruct (includes WHITELISTED_ENV_VARS k) eqn:Hw.
  - destruct (process_env !! k) as [v |] eqn:E; [| now destruct (bool_decide _)].
    rewrite bool_decide_eq_true_2; [reflexivity |].
    apply list_elem_of_In, filter_In. split; [| assumption].
    apply list_elem_of_In. unfold Object_keys. apply list_elem_of_fmap.
    exists (k, v). split; [reflexivity | now apply elem_of_map_to_list].
  - rewrite bool_decide_eq_false_2; [reflexivity |].
    intros Hin. apply list_elem_of_In, filter_In in Hin. destruct Hin as [_ Hin]. congruence.
Qed.

End PreloadEnvFacts.
